(** * Deadlock engine: state model, Banker's algorithm, wait-for graph, policies

    A shallow embedding of the Python engine:
    - [niki/engine/state.py]   : [Resource], [Process], [SystemState] and its
      mutating operations;
    - [niki/engine/banker.py]  : [find_safe_sequence], [is_safe_state];
    - [niki/engine/rag.py]     : [build_wait_for_graph], [analyze_deadlock];
    - [engine/policies.py]     : [ResourceOrderingPolicy.should_allow];
    - [simulator/dispatcher.py]: [_take_snapshot].

    Python [int] is [Z]; a Python [dict] is an insertion-ordered association
    list; an operation that may raise returns a [result] carrying the state as
    it is at the moment of the return or of the raise.  The object graph
    (aliasing of the per-process dictionaries, [deepcopy]) is modelled in
    [Module Heap] by an explicit store. *)

From Stdlib Require Import ZArith String List Lia Bool DecimalString.
From stdpp Require Import base tactics option list relations strings.
Import ListNotations.

#[local] Set Warnings "-clear-no-such-hyp".

Open Scope string_scope.
Open Scope list_scope.
Open Scope Z_scope.

(* ===================================================================== *)
(** ** Python dictionaries *)
(* ===================================================================== *)

(** Insertion-ordered association list.  Python keeps keys unique; the
    operations below preserve [NoDup (keys d)]. *)
Definition dict (V : Type) : Type := list (string * V).

Section Dict.
Context {V : Type}.

Definition keys (d : dict V) : list string := d.*1.
Definition values (d : dict V) : list V := d.*2.

(** [d[k]] as an option; [k in d]; [d.get(k, dflt)]. *)
Fixpoint dict_get (d : dict V) (k : string) : option V :=
  match d with
  | [] => None
  | (k', v) :: d' => if String.eqb k' k then Some v else dict_get d' k
  end.

Definition dict_mem (d : dict V) (k : string) : bool :=
  match dict_get d k with Some _ => true | None => false end.

Definition dict_get_or (d : dict V) (k : string) (dflt : V) : V :=
  match dict_get d k with Some v => v | None => dflt end.

(** [d[k] = v]: an existing key keeps its position, a new key goes last. *)
Fixpoint dict_set (d : dict V) (k : string) (v : V) : dict V :=
  match d with
  | [] => [(k, v)]
  | (k', v') :: d' =>
      if String.eqb k' k then (k, v) :: d' else (k', v') :: dict_set d' k v
  end.

(** [del d[k]]. *)
Fixpoint dict_del (d : dict V) (k : string) : dict V :=
  match d with
  | [] => []
  | (k', v') :: d' =>
      if String.eqb k' k then dict_del d' k else (k', v') :: dict_del d' k
  end.
End Dict.

(* ===================================================================== *)
(** ** state.py: data model *)
(* ===================================================================== *)

Record Resource := mkResource {
  r_id : string;
  total_units : Z;
  available_units : Z
}.

Record Process := mkProcess {
  p_id : string;
  max_claims : dict Z;
  allocated : dict Z;
  requested : dict Z;
  priority : Z
}.

(** [Process.need]. *)
Definition need (p : Process) (resource_id : string) : Z :=
  let max_claim := dict_get_or (max_claims p) resource_id 0 in
  let current_alloc := dict_get_or (allocated p) resource_id 0 in
  max_claim - current_alloc.

(** [Process.total_need]: one entry per key of [max_claims] or [allocated]
    (Python iterates a set here, so the order of the entries is not fixed). *)
Definition total_need (p : Process) : dict Z :=
  let all_resources :=
    (keys (max_claims p) ++
     List.filter (fun r => negb (dict_mem (max_claims p) r))
       (keys (allocated p)))%list in
  (fun res => (res, need p res)) <$> all_resources.

(** Values stored in an event-log record. *)
Inductive LogField :=
| FStr (s : string)
| FInt (z : Z)
| FClaims (d : dict Z).

Record LogEvent := mkLogEvent {
  ev_type : string;
  ev_timestamp : nat;
  ev_fields : dict LogField
}.

Record SystemState := mkState {
  resources : dict Resource;
  processes : dict Process;
  event_log : list LogEvent
}.

(** [SystemState()] *)
Definition empty_state : SystemState := mkState [] [] [].

(** The two exceptions the engine can raise; messages are not modelled. *)
Inductive exn := ValueError | KeyError.

(** Outcome of a method call, with the state at the return or at the raise. *)
Inductive result (A : Type) :=
| Return (a : A) (s : SystemState)
| Raise (e : exn) (s : SystemState).
Arguments Return {A} a s.
Arguments Raise {A} e s.

Definition state_of {A} (r : result A) : SystemState :=
  match r with Return _ s => s | Raise _ s => s end.

(** [_log_event] *)
Definition log_event (s : SystemState) (event_type : string)
    (kwargs : dict LogField) : SystemState :=
  mkState (resources s) (processes s)
    (event_log s ++ [mkLogEvent event_type (length (event_log s)) kwargs])%list.

(** [_validate_process_and_resource]: [Some e] when it raises [e]. *)
Definition validate_process_and_resource (s : SystemState)
    (process_id resource_id : string) : option exn :=
  if negb (dict_mem (processes s) process_id) then Some ValueError
  else if negb (dict_mem (resources s) resource_id) then Some ValueError
  else None.

Definition set_allocated (p : Process) (a : dict Z) : Process :=
  mkProcess (p_id p) (max_claims p) a (requested p) (priority p).
Definition set_requested (p : Process) (r : dict Z) : Process :=
  mkProcess (p_id p) (max_claims p) (allocated p) r (priority p).
Definition set_available (r : Resource) (a : Z) : Resource :=
  mkResource (r_id r) (total_units r) a.

(* ===================================================================== *)
(** ** state.py: operations *)
(* ===================================================================== *)

(** [add_resource]; the [Resource] constructor rejects a negative total. *)
Definition add_resource (s : SystemState) (resource_id : string)
    (total : Z) : result unit :=
  if dict_mem (resources s) resource_id then Raise ValueError s
  else if total <? 0 then Raise ValueError s
  else
    let s1 := mkState
      (dict_set (resources s) resource_id (mkResource resource_id total total))
      (processes s) (event_log s) in
    Return tt (log_event s1 "resource_added"
                 [("resource", FStr resource_id); ("units", FInt total)]).

(** The validation loop of [add_process]: [Some e] when it raises. *)
Fixpoint check_max_claims (s : SystemState) (items : list (string * Z))
    : option exn :=
  match items with
  | [] => None
  | (res_id, units) :: rest =>
      match dict_get (resources s) res_id with
      | None => Some ValueError
      | Some res =>
          if total_units res <? units then Some ValueError
          else check_max_claims s rest
      end
  end.

Definition add_process (s : SystemState) (process_id : string)
    (claims : dict Z) (prio : Z) : result unit :=
  if dict_mem (processes s) process_id then Raise ValueError s
  else
    match check_max_claims s claims with
    | Some e => Raise e s
    | None =>
        let s1 := mkState (resources s)
          (dict_set (processes s) process_id
             (mkProcess process_id claims [] [] prio))
          (event_log s) in
        Return tt (log_event s1 "process_added"
                     [("process", FStr process_id);
                      ("max_claims", FClaims claims)])
    end.

Definition request (s : SystemState) (process_id resource_id : string)
    (units : Z) : result bool :=
  match validate_process_and_resource s process_id resource_id with
  | Some e => Raise e s
  | None =>
      match dict_get (processes s) process_id with
      | None => Raise KeyError s
      | Some process =>
          if units <=? 0 then Raise ValueError s
          else
            let nd := need process resource_id in
            if nd <? units then
              Return false
                (log_event s "request_rejected"
                   [("process", FStr process_id);
                    ("resource", FStr resource_id);
                    ("units", FInt units);
                    ("reason", FStr "exceeds_need")])
            else
              let process' := set_requested process
                (dict_set (requested process) resource_id
                   (dict_get_or (requested process) resource_id 0 + units)) in
              let s1 := mkState (resources s)
                (dict_set (processes s) process_id process') (event_log s) in
              Return true
                (log_event s1 "request"
                   [("process", FStr process_id);
                    ("resource", FStr resource_id);
                    ("units", FInt units)])
      end
  end.

(** The "clear request if fulfilled" step of [allocate]. *)
Definition clear_request (p : Process) (resource_id : string)
    (units : Z) : Process :=
  if dict_mem (requested p) resource_id then
    let left := Z.max 0 (dict_get_or (requested p) resource_id 0 - units) in
    let requested1 := dict_set (requested p) resource_id left in
    if left =? 0 then set_requested p (dict_del requested1 resource_id)
    else set_requested p requested1
  else p.

Definition allocate (s : SystemState) (process_id resource_id : string)
    (units : Z) : result bool :=
  match validate_process_and_resource s process_id resource_id with
  | Some e => Raise e s
  | None =>
      match dict_get (processes s) process_id,
            dict_get (resources s) resource_id with
      | Some process, Some resource =>
          if units <? 0 then Raise ValueError s
          else if units =? 0 then
            Return true
              (log_event s "allocation_skipped"
                 [("process", FStr process_id);
                  ("resource", FStr resource_id);
                  ("units", FInt 0)])
          else if available_units resource <? units then
            Return false
              (log_event s "allocation_failed"
                 [("process", FStr process_id);
                  ("resource", FStr resource_id);
                  ("units", FInt units);
                  ("reason", FStr "insufficient_available")])
          else
            let current_alloc :=
              dict_get_or (allocated process) resource_id 0 in
            let max_claim := dict_get_or (max_claims process) resource_id 0 in
            if max_claim <? current_alloc + units then
              Return false
                (log_event s "allocation_failed"
                   [("process", FStr process_id);
                    ("resource", FStr resource_id);
                    ("units", FInt units);
                    ("reason", FStr "exceeds_max_claim")])
            else
              let process1 := set_allocated process
                (dict_set (allocated process) resource_id
                   (current_alloc + units)) in
              let resource' :=
                set_available resource (available_units resource - units) in
              let process' := clear_request process1 resource_id units in
              let s1 := mkState
                (dict_set (resources s) resource_id resource')
                (dict_set (processes s) process_id process')
                (event_log s) in
              Return true
                (log_event s1 "allocation"
                   [("process", FStr process_id);
                    ("resource", FStr resource_id);
                    ("units", FInt units)])
      | _, _ => Raise KeyError s
      end
  end.

Definition release (s : SystemState) (process_id resource_id : string)
    (units : Z) : result bool :=
  match validate_process_and_resource s process_id resource_id with
  | Some e => Raise e s
  | None =>
      match dict_get (processes s) process_id,
            dict_get (resources s) resource_id with
      | Some process, Some resource =>
          if units <=? 0 then Raise ValueError s
          else
            let current_alloc :=
              dict_get_or (allocated process) resource_id 0 in
            if current_alloc <? units then
              Return false
                (log_event s "release_failed"
                   [("process", FStr process_id);
                    ("resource", FStr resource_id);
                    ("units", FInt units);
                    ("reason", FStr "insufficient_allocation")])
            else
              let left := current_alloc - units in
              let allocated1 :=
                dict_set (allocated process) resource_id left in
              let process' := set_allocated process
                (if left =? 0 then dict_del allocated1 resource_id
                 else allocated1) in
              let resource' :=
                set_available resource (available_units resource + units) in
              let s1 := mkState
                (dict_set (resources s) resource_id resource')
                (dict_set (processes s) process_id process')
                (event_log s) in
              Return true
                (log_event s1 "release"
                   [("process", FStr process_id);
                    ("resource", FStr resource_id);
                    ("units", FInt units)])
      | _, _ => Raise KeyError s
      end
  end.

(** The loop of [remove_process] over [list(process.allocated.items())]. *)
Fixpoint release_all (s : SystemState) (process_id : string)
    (items : list (string * Z)) : result unit :=
  match items with
  | [] => Return tt s
  | (resource_id, units) :: rest =>
      match release s process_id resource_id units with
      | Return _ s' => release_all s' process_id rest
      | Raise e s' => Raise e s'
      end
  end.

Definition remove_process (s : SystemState) (process_id : string)
    : result unit :=
  match dict_get (processes s) process_id with
  | None => Raise ValueError s
  | Some process =>
      match release_all s process_id (allocated process) with
      | Raise e s' => Raise e s'
      | Return _ s' =>
          let s1 := mkState (resources s')
            (dict_del (processes s') process_id) (event_log s') in
          Return tt (log_event s1 "process_removed"
                       [("process", FStr process_id)])
      end
  end.

(** [get_available] *)
Definition get_available (s : SystemState) (resource_id : string)
    : option Z :=
  match dict_get (resources s) resource_id with
  | None => None
  | Some r => Some (available_units r)
  end.

(** Readers used by the statements: absent keys count as 0, like [.get(r, 0)]. *)
Definition allocated_of (s : SystemState) (p r : string) : Z :=
  match dict_get (processes s) p with
  | Some proc => dict_get_or (allocated proc) r 0
  | None => 0
  end.
Definition requested_of (s : SystemState) (p r : string) : Z :=
  match dict_get (processes s) p with
  | Some proc => dict_get_or (requested proc) r 0
  | None => 0
  end.
Definition max_claims_of (s : SystemState) (p r : string) : Z :=
  match dict_get (processes s) p with
  | Some proc => dict_get_or (max_claims proc) r 0
  | None => 0
  end.
Definition need_of (s : SystemState) (p r : string) : Z :=
  max_claims_of s p r - allocated_of s p r.
Definition available_of (s : SystemState) (r : string) : Z :=
  match dict_get (resources s) r with
  | Some res => available_units res
  | None => 0
  end.
Definition total_of (s : SystemState) (r : string) : Z :=
  match dict_get (resources s) r with
  | Some res => total_units res
  | None => 0
  end.

(** Units of [r] held over all processes. *)
Definition sum_alloc (procs : dict Process) (r : string) : Z :=
  fold_right (fun kv acc => dict_get_or (allocated kv.2) r 0 + acc) 0 procs.

Definition sum_allocated (s : SystemState) (r : string) : Z :=
  sum_alloc (processes s) r.

(** The mutating calls, and the states the API can build. *)
Inductive op :=
| AddResource (resource_id : string) (total : Z)
| AddProcess (process_id : string) (claims : dict Z) (prio : Z)
| Request (process_id resource_id : string) (units : Z)
| Allocate (process_id resource_id : string) (units : Z)
| Release (process_id resource_id : string) (units : Z)
| RemoveProcess (process_id : string).

Definition apply_op (s : SystemState) (o : op) : SystemState :=
  match o with
  | AddResource r t => state_of (add_resource s r t)
  | AddProcess p c prio => state_of (add_process s p c prio)
  | Request p r u => state_of (request s p r u)
  | Allocate p r u => state_of (allocate s p r u)
  | Release p r u => state_of (release s p r u)
  | RemoveProcess p => state_of (remove_process s p)
  end.

Definition run_ops (s : SystemState) (ops : list op) : SystemState :=
  fold_left apply_op ops s.

Inductive reachable : SystemState -> Prop :=
| reachable_empty : reachable empty_state
| reachable_step s o : reachable s -> reachable (apply_op s o).

(* ===================================================================== *)
(** ** banker.py *)
(* ===================================================================== *)

(** The local variables of [find_safe_sequence]. *)
Record BankerVars := mkBanker {
  work : dict Z;
  finish : dict bool;
  safe_sequence : list string;
  progress : bool
}.

(** The inner [for res_id in resource_ids] test with its [break]. *)
Definition can_finish (resource_ids : list string) (proc : Process)
    (w : dict Z) : bool :=
  forallb (fun res_id => negb (dict_get_or w res_id 0 <? need proc res_id))
    resource_ids.

(** "add its allocated resources back to work". *)
Definition give_back (resource_ids : list string) (proc : Process)
    (w : dict Z) : dict Z :=
  fold_left
    (fun w res_id =>
       dict_set w res_id
         (dict_get_or w res_id 0 + dict_get_or (allocated proc) res_id 0))
    resource_ids w.

Definition mark_finished (resource_ids : list string) (v : BankerVars)
    (pid : string) (proc : Process) : BankerVars :=
  mkBanker (give_back resource_ids proc (work v))
    (dict_set (finish v) pid true)
    (safe_sequence v ++ [pid])%list
    true.

(** Body of [for pid, proc in state.processes.items()]. *)
Definition visit (resource_ids : list string) (v : BankerVars)
    (item : string * Process) : BankerVars :=
  let (pid, proc) := item in
  if dict_get_or (finish v) pid false then v
  else if can_finish resource_ids proc (work v) then
    mark_finished resource_ids v pid proc
  else v.

(** One execution of the [for] loop. *)
Definition sweep (resource_ids : list string) (procs : dict Process)
    (v : BankerVars) : BankerVars :=
  fold_left (visit resource_ids) procs v.

Definition clear_progress (v : BankerVars) : BankerVars :=
  mkBanker (work v) (finish v) (safe_sequence v) false.

(** [while progress]: each unit of fuel pays for one pass; the result
    carries the number of passes made.  [None] means the fuel ran out. *)
Fixpoint banker_loop (fuel : nat) (resource_ids : list string)
    (procs : dict Process) (v : BankerVars) : option (BankerVars * nat) :=
  match fuel with
  | O => None
  | S fuel' =>
      let v' := sweep resource_ids procs (clear_progress v) in
      if progress v' then
        match banker_loop fuel' resource_ids procs v' with
        | Some (vf, n) => Some (vf, S n)
        | None => None
        end
      else Some (v', 1%nat)
  end.

Definition banker_init (s : SystemState) : BankerVars :=
  mkBanker
    ((fun kv => (kv.1, available_units kv.2)) <$> resources s)
    ((fun kv => (kv.1, false)) <$> processes s)
    []
    true.

(** Fuel that always suffices (see [banker_loop_terminates]). *)
Definition banker_fuel (s : SystemState) : nat := S (length (processes s)).

Definition banker_run (s : SystemState) : option (BankerVars * nat) :=
  banker_loop (banker_fuel s) (keys (resources s)) (processes s)
    (banker_init s).

Definition find_safe_sequence (s : SystemState)
    : bool * option (list string) :=
  match processes s with
  | [] => (true, Some [])
  | _ =>
      match banker_run s with
      | Some (v, _) =>
          let is_safe := forallb (fun b => b) (values (finish v)) in
          (is_safe, if is_safe then Some (safe_sequence v) else None)
      | None => (false, None)
      end
  end.

(** Outcome of a function that only reads the caller's state. *)
Inductive outcome (A : Type) :=
| Ok (a : A)
| Err (e : exn).
Arguments Ok {A} a.
Arguments Err {A} e.

(** First loop of [is_safe_state]: [Ok true] when every item passes,
    [Ok false] at the first early [return False, None]. *)
Fixpoint check_request (s : SystemState) (proc : Process)
    (items : list (string * Z)) : outcome bool :=
  match items with
  | [] => Ok true
  | (res_id, units) :: rest =>
      if need proc res_id <? units then Ok false
      else
        match get_available s res_id with
        | None => Err ValueError
        | Some available =>
            if available <? units then Ok false
            else check_request s proc rest
        end
  end.

(** Second loop of [is_safe_state]: the tentative allocation. *)
Fixpoint tentative_allocate (s : SystemState) (process : string)
    (items : list (string * Z)) : result bool :=
  match items with
  | [] => Return true s
  | (res_id, units) :: rest =>
      match allocate s process res_id units with
      | Raise e s' => Raise e s'
      | Return false s' => Return false s'
      | Return true s' => tentative_allocate s' process rest
      end
  end.

(** [is_safe_state]; [clone] is the identity on values, so [test_state]
    starts as [s].  An empty process id or an empty request is falsy. *)
Definition is_safe_state (s : SystemState) (process : option string)
    (req : option (dict Z)) : outcome (bool * option (list string)) :=
  let test_state := s in
  match process, req with
  | Some pid, Some items =>
      if (String.eqb pid "" || match items with [] => true | _ => false end)%bool
      then Ok (find_safe_sequence test_state)
      else
        match dict_get (processes test_state) pid with
        | None => Err KeyError
        | Some proc =>
            match check_request test_state proc items with
            | Err e => Err e
            | Ok false => Ok (false, None)
            | Ok true =>
                match tentative_allocate test_state pid items with
                | Raise e _ => Err e
                | Return false _ => Ok (false, None)
                | Return true test_state' =>
                    Ok (find_safe_sequence test_state')
                end
            end
        end
  | _, _ => Ok (find_safe_sequence test_state)
  end.

(* ===================================================================== *)
(** ** rag.py: wait-for graph *)
(* ===================================================================== *)

(** The part of [networkx.DiGraph] the engine uses: nodes in insertion
    order, and edges keyed by (source, target) with their [resource]
    attribute.  Adding an edge that exists overwrites its attribute. *)
Record DiGraph := mkGraph {
  nodes : list string;
  edges : list ((string * string) * string)
}.

Definition empty_graph : DiGraph := mkGraph [] [].

Definition same_edge (e f : string * string) : bool :=
  (String.eqb (fst e) (fst f) && String.eqb (snd e) (snd f))%bool.

Definition has_node (g : DiGraph) (n : string) : bool :=
  existsb (String.eqb n) (nodes g).

Definition has_edge (g : DiGraph) (u v : string) : bool :=
  existsb (fun e => same_edge (fst e) (u, v)) (edges g).

Definition add_node (g : DiGraph) (n : string) : DiGraph :=
  if has_node g n then g else mkGraph (nodes g ++ [n])%list (edges g).

Fixpoint set_edge (es : list ((string * string) * string))
    (e : string * string) (attr : string)
    : list ((string * string) * string) :=
  match es with
  | [] => [(e, attr)]
  | (f, a) :: rest =>
      if same_edge f e then (e, attr) :: rest else (f, a) :: set_edge rest e attr
  end.

Definition add_edge (g : DiGraph) (u v : string) (resource : string)
    : DiGraph :=
  let g' := add_node (add_node g u) v in
  mkGraph (nodes g') (set_edge (edges g') (u, v) resource).

(** Innermost loop of [build_wait_for_graph]: the holders of [res_id]. *)
Definition add_holders (procs : dict Process) (proc_id res_id : string)
    (g : DiGraph) : DiGraph :=
  fold_left
    (fun g other =>
       if String.eqb (fst other) proc_id then g
       else if 0 <? dict_get_or (allocated (snd other)) res_id 0 then
         add_edge g proc_id (fst other) res_id
       else g)
    procs g.

(** Middle loop: the pending requests of one process. *)
Definition add_waits (procs : dict Process) (item : string * Process)
    (g : DiGraph) : DiGraph :=
  fold_left
    (fun g rq =>
       if snd rq =? 0 then g
       else add_holders procs (fst item) (fst rq) g)
    (requested (snd item)) g.

Definition build_wait_for_graph (s : SystemState) : DiGraph :=
  let wfg := fold_left add_node (keys (processes s)) empty_graph in
  fold_left (fun g item => add_waits (processes s) item g) (processes s) wfg.

(** Modelled from the spec: [networkx.simple_cycles] is library code outside
    the repository.  Section 4.3 gives its contract: the list it returns is
    non-empty iff the graph has a cycle.  [reach k g u v] decides whether a
    path of 1 to [k] edges leads from [u] to [v]; a graph has a cycle iff
    some node reaches itself within as many edges as there are nodes. *)
Fixpoint reach (k : nat) (g : DiGraph) (u v : string) : bool :=
  match k with
  | O => false
  | S k' =>
      (has_edge g u v ||
       existsb (fun m => has_edge g u m && reach k' g m v) (nodes g))%bool
  end.

Definition has_cycle (g : DiGraph) : bool :=
  existsb (fun n => reach (length (nodes g)) g n n) (nodes g).

(** [detect_wait_for_cycles] reduced to what [analyze_deadlock] tests:
    [len(wfg_cycles) > 0]. *)
Definition detect_wait_for_cycles_nonempty (wfg : DiGraph) : bool :=
  has_cycle wfg.

(** The fields of [analyze_deadlock]'s dictionary that depend only on the
    wait-for graph and the state's sizes. *)
Record Analysis := mkAnalysis {
  has_deadlock : bool;
  wait_for_graph : DiGraph;
  process_count : nat;
  resource_count : nat
}.

Definition analyze_deadlock (s : SystemState) : Analysis :=
  let wfg := build_wait_for_graph s in
  mkAnalysis (detect_wait_for_cycles_nonempty wfg) wfg
    (length (processes s)) (length (resources s)).

(* ===================================================================== *)
(** ** policies.py: ResourceOrderingPolicy *)
(* ===================================================================== *)

(** [sorted] on a list of strings. *)
Fixpoint insert_sorted (x : string) (l : list string) : list string :=
  match l with
  | [] => [x]
  | y :: l' => if String.leb x y then x :: l else y :: insert_sorted x l'
  end.

Definition sorted (l : list string) : list string :=
  fold_right insert_sorted [] l.

(** [r in order] and [order.index(r)]. *)
Definition in_order (order : list string) (r : string) : bool :=
  existsb (String.eqb r) order.

Fixpoint index (order : list string) (r : string) : option nat :=
  match order with
  | [] => None
  | x :: rest =>
      if String.eqb x r then Some O
      else match index rest r with Some i => Some (S i) | None => None end
  end.

(** [max] of a generator: it raises on an empty one. *)
Definition py_max (l : list nat) : option nat :=
  match l with
  | [] => None
  | x :: rest => Some (fold_left Nat.max rest x)
  end.

Record ResourceOrderingPolicy := mkOrdering {
  resource_order : list string
}.

(** The loop over [request.keys()]: the first requested resource ranked
    below [highest_held_idx], if any. *)
Fixpoint first_violation (order : list string) (highest_held_idx : nat)
    (request_keys : list string) : option string :=
  match request_keys with
  | [] => None
  | res_id :: rest =>
      if negb (in_order order res_id) then
        first_violation order highest_held_idx rest
      else
        match index order res_id with
        | Some req_idx =>
            if (req_idx <? highest_held_idx)%nat then Some res_id
            else first_violation order highest_held_idx rest
        | None => first_violation order highest_held_idx rest
        end
  end.

(** [ResourceOrderingPolicy.should_allow]: the policy object after the call
    (the ordering is cached on first use) and the call's outcome. *)
Definition should_allow (self : ResourceOrderingPolicy) (s : SystemState)
    (process_id : string) (req : dict Z)
    : ResourceOrderingPolicy * outcome (bool * string) :=
  let self' :=
    match resource_order self with
    | [] => mkOrdering (sorted (keys (resources s)))
    | _ => self
    end in
  let order := resource_order self' in
  match dict_get (processes s) process_id with
  | None => (self', Err KeyError)
  | Some process =>
      let held_resources :=
        List.filter (fun r => 0 <? dict_get_or (allocated process) r 0)
          (keys (allocated process)) in
      match held_resources with
      | [] => (self', Ok (true, "No resources held, request allowed"))
      | _ =>
          let ranks :=
            omap (index order) (List.filter (in_order order) held_resources) in
          match py_max ranks with
          | None => (self', Err ValueError)
          | Some highest_held_idx =>
              match first_violation order highest_held_idx (keys req) with
              | Some res_id =>
                  (self', Ok (false,
                     ("Violates resource ordering: requesting " ++ res_id ++
                      " while holding higher-order resources")%string))
              | None => (self', Ok (true, "Follows resource ordering"))
              end
          end
      end
  end.

(* ===================================================================== *)
(** ** Measures, invariants and spec-side definitions used in statements *)
(* ===================================================================== *)

(** Number of processes whose [finish] flag is still false. *)
Definition unfinished (f : dict bool) : nat :=
  length (List.filter (fun kv => negb kv.2) f).

(** The spec's reading of the Banker tie-break, for comparison with the
    loop: after the processes in [finished] (in that order) have given their
    units back, the first process in insertion order that is not finished
    and whose need fits the work vector. *)
Definition work_after (s : SystemState) (finished : list string) : dict Z :=
  fold_left
    (fun w pid =>
       match dict_get (processes s) pid with
       | Some proc => give_back (keys (resources s)) proc w
       | None => w
       end)
    finished (work (banker_init s)).




(** Spec scenario 4: resource R1 of 10 units; P1 claims 5 and holds 3. *)
Definition exceeds_need_state : SystemState :=
  run_ops empty_state
    [AddResource "R1" 10;
     AddProcess "P1" [("R1", 5)] 0;
     Allocate "P1" "R1" 3].

(** What the operations maintain for one process: its dictionaries have
    unique keys, it holds a positive number of units, within its claim, of
    existing resources only, and its pending requests are positive. *)
Record proc_inv (rs : dict Resource) (proc : Process) : Prop := mkProcInv {
  pi_alloc_nodup : NoDup (keys (allocated proc));
  pi_req_nodup : NoDup (keys (requested proc));
  pi_alloc : forall r u, dict_get (allocated proc) r = Some u ->
    0 < u /\ u <= dict_get_or (max_claims proc) r 0 /\ r ∈ keys rs;
  pi_req : forall r u, dict_get (requested proc) r = Some u ->
    0 < u /\ r ∈ keys rs
}.

(** What the operations maintain for the state: unique ids, [proc_inv] for
    every process, and for every resource a non-negative number of available
    units that, with the units held, adds up to the total (conservation). *)
Record state_inv (s : SystemState) : Prop := mkStateInv {
  si_res_nodup : NoDup (keys (resources s));
  si_proc_nodup : NoDup (keys (processes s));
  si_procs : forall pid proc, dict_get (processes s) pid = Some proc ->
    proc_inv (resources s) proc;
  si_res : forall rid res, dict_get (resources s) rid = Some res ->
    0 <= available_units res /\
    available_units res + sum_allocated s rid = total_units res
}.

(** One resource of 10 units; P1 claims 5 and asks twice for 3. *)
Definition double_request_state : SystemState :=
  run_ops empty_state
    [AddResource "R1" 10;
     AddProcess "P1" [("R1", 5)] 0;
     Request "P1" "R1" 3;
     Request "P1" "R1" 3].

(** [p] waits for [q]: the three nested loops of [build_wait_for_graph]
    reach [add_edge(p, q)]. *)
Definition waits (s : SystemState) (p q : string) : Prop :=
  exists proc other r u,
    (p, proc) ∈ processes s /\ (q, other) ∈ processes s /\ p <> q /\
    (r, u) ∈ requested proc /\ u <> 0 /\
    0 < dict_get_or (allocated other) r 0.

(** Every resource has at most one unit. *)
Definition single_unit (s : SystemState) : bool :=
  forallb (fun kv : string * Resource => total_units kv.2 <=? 1) (resources s).

(** The spec's "request validity": requested + allocated <= max_claims for
    every pending request. *)
Definition request_valid (s : SystemState) : bool :=
  forallb
    (fun kv : string * Process =>
       forallb
         (fun rq : string * Z =>
            rq.2 + dict_get_or (allocated kv.2) rq.1 0
            <=? dict_get_or (max_claims kv.2) rq.1 0)
         (requested kv.2))
    (processes s).

(** The spec's "claim bound": allocated <= max_claims, also where the
    process holds nothing. *)
Definition claim_bound (s : SystemState) : bool :=
  forallb
    (fun kv : string * Process =>
       forallb
         (fun mc : string * Z => dict_get_or (allocated kv.2) mc.1 0 <=? mc.2)
         (max_claims kv.2))
    (processes s).

(** The data-model invariants of the spec, as far as they constrain the
    numbers: conservation and the shape of the dictionaries ([state_inv]),
    the claim bound and request validity. *)
Definition data_model_inv (s : SystemState) : Prop :=
  state_inv s /\ claim_bound s = true /\ request_valid s = true.

(** Spec scenario 1: two single-unit resources, circular wait. *)
Definition circular_wait_state : SystemState :=
  run_ops empty_state
    [AddResource "R1" 1; AddResource "R2" 1;
     AddProcess "P1" [("R1", 1); ("R2", 1)] 1;
     AddProcess "P2" [("R1", 1); ("R2", 1)] 2;
     Allocate "P1" "R1" 1; Allocate "P2" "R2" 1;
     Request "P1" "R2" 1; Request "P2" "R1" 1].

(** The same timeline on resources of two units each. *)
Definition two_unit_cycle_state : SystemState :=
  run_ops empty_state
    [AddResource "R1" 2; AddResource "R2" 2;
     AddProcess "P1" [("R1", 1); ("R2", 1)] 1;
     AddProcess "P2" [("R1", 1); ("R2", 1)] 2;
     Allocate "P1" "R1" 1; Allocate "P2" "R2" 1;
     Request "P1" "R2" 1; Request "P2" "R1" 1].

(** What a Python dictionary guarantees for the tables the wait-for graph
    reads: every process id and every key of a [requested] dictionary occurs
    once. *)
Definition unique_keys (s : SystemState) : Prop :=
  NoDup (keys (processes s)) /\
  forall p proc, (p, proc) ∈ processes s -> NoDup (keys (requested proc)).

(** A state assembled field by field, not through the operations: P1 has the
    pending entry R1: -1 and P2 holds the unit of R1. *)
Definition negative_request_state : SystemState :=
  mkState [("R1", mkResource "R1" 1 0)]
    [("P1", mkProcess "P1" [("R1", 1)] [] [("R1", -1)] 0);
     ("P2", mkProcess "P2" [("R1", 1)] [("R1", 1)] [] 0)]
    [].

(** Single-unit resources, one pending request and no circular wait. *)
Definition single_unit_safe_state : SystemState :=
  run_ops empty_state
    [AddResource "R1" 1; AddResource "R2" 1;
     AddProcess "P1" [("R1", 1); ("R2", 1)] 1;
     AddProcess "P2" [("R1", 1); ("R2", 1)] 2;
     Allocate "P1" "R1" 1;
     Request "P2" "R1" 1].

(** The edge relation of a graph, and the nodes that lie on a cycle. *)
Definition edge_rel (g : DiGraph) (a b : string) : Prop :=
  has_edge g a b = true.

Definition on_cycle (g : DiGraph) (a : string) : Prop := tc (edge_rel g) a a.

(** Invariant of the safety loop used for single-unit resources: no process
    on a wait-for cycle is finished, and a resource still held by an
    unfinished process has no unit in the work vector. *)
Definition blocked_inv (s : SystemState) (v : BankerVars) : Prop :=
  keys (finish v) = keys (processes s) /\
  (forall a, on_cycle (build_wait_for_graph s) a ->
     dict_get_or (finish v) a false = false) /\
  (forall rid q qp, (q, qp) ∈ processes s ->
     dict_get_or (finish v) q false = false ->
     0 < dict_get_or (allocated qp) rid 0 ->
     dict_get_or (work v) rid 0 <= 0).

(** A walk from [u] to [v] through the intermediate nodes [l]. *)
Fixpoint walk (g : DiGraph) (u : string) (l : list string) (v : string)
    : Prop :=
  match l with
  | [] => edge_rel g u v
  | m :: l' => edge_rel g u m /\ walk g m l' v
  end.

(** Both ends of every edge are nodes, as [add_edge] guarantees. *)
Definition graph_wf (g : DiGraph) : Prop :=
  forall u v, has_edge g u v = true ->
    has_node g u = true /\ has_node g v = true.

(* ===================================================================== *)
(** ** The object graph: references, in-place mutation and deepcopy *)
(* ===================================================================== *)

(** In Python a [Process] holds references to its three dictionaries,
    [SystemState.snapshot] hands out some of these references, and
    [clone] is [deepcopy].  [Module Heap] re-states the operations of
    state.py over a store of mutable objects, so that aliasing is visible. *)
Module Heap.

Abbreviation loc := nat.

(** A value in an event-log record; [max_claims=max_claims] stores the
    dictionary by reference. *)
Inductive LogFieldH :=
| HStr (s : string)
| HInt (z : Z)
| HRef (l : loc).

Record LogEventH := mkLogEventH {
  hev_type : string;
  hev_timestamp : nat;
  hev_fields : dict LogFieldH
}.

(** The fields of a [Process] object and of a [SystemState] object. *)
Record ProcessRefs := mkProcessRefs {
  pr_id : string;
  pr_max_claims : loc;
  pr_allocated : loc;
  pr_requested : loc;
  pr_priority : Z
}.

Record StateRefs := mkStateRefs {
  sr_resources : loc;
  sr_processes : loc;
  sr_event_log : loc
}.

(** Mutable objects: a dictionary of integers, a [Resource], a [Process],
    a dictionary of objects, the event-log list, a [SystemState]. *)
Inductive obj :=
| OInts (d : dict Z)
| OResource (r : Resource)
| OProcess (p : ProcessRefs)
| ODict (d : dict loc)
| OLog (l : list LogEventH)
| OState (st : StateRefs).

Abbreviation store := (list obj).

(** A computation ends with a value, with a Python exception, or because
    the store has an object of the wrong kind at some address (which no
    store built by the operations has). *)
Inductive fault := PyExn (e : exn) | IllTyped.

Inductive hresult (A : Type) :=
| Done (a : A) (h : store)
| Fail (e : fault) (h : store).
Arguments Done {A} a h.
Arguments Fail {A} e h.

Definition store_of {A} (r : hresult A) : store :=
  match r with Done _ h => h | Fail _ h => h end.

Definition M (A : Type) : Type := store -> hresult A.

Definition ret {A} (a : A) : M A := fun h => Done a h.
Definition raise {A} (e : exn) : M A := fun h => Fail (PyExn e) h.
Definition ill_typed {A} : M A := fun h => Fail IllTyped h.
Definition bind {A B} (m : M A) (k : A -> M B) : M B :=
  fun h => match m h with
           | Done a h' => k a h'
           | Fail e h' => Fail e h'
           end.

Notation "x <- m ;; k" := (bind m (fun x => k))
  (at level 100, m at next level, right associativity).
Notation "m ;;; k" := (bind m (fun _ => k))
  (at level 100, right associativity).

Definition load (l : loc) : M obj :=
  fun h => match h !! l with
           | Some o => Done o h
           | None => Fail IllTyped h
           end.

Definition write (l : loc) (o : obj) : M unit :=
  fun h => match h !! l with
           | Some _ => Done tt (<[l := o]> h)
           | None => Fail IllTyped h
           end.

Definition new (o : obj) : M loc :=
  fun h => Done (length h) (h ++ [o]).

Definition load_ints (l : loc) : M (dict Z) :=
  o <- load l ;; match o with OInts d => ret d | _ => ill_typed end.
Definition load_resource (l : loc) : M Resource :=
  o <- load l ;; match o with OResource r => ret r | _ => ill_typed end.
Definition load_process (l : loc) : M ProcessRefs :=
  o <- load l ;; match o with OProcess p => ret p | _ => ill_typed end.
Definition load_dict (l : loc) : M (dict loc) :=
  o <- load l ;; match o with ODict d => ret d | _ => ill_typed end.
Definition load_log (l : loc) : M (list LogEventH) :=
  o <- load l ;; match o with OLog lg => ret lg | _ => ill_typed end.
Definition load_state (l : loc) : M StateRefs :=
  o <- load l ;; match o with OState st => ret st | _ => ill_typed end.

(** [SystemState()] *)
Definition new_state : M loc :=
  rs <- new (ODict []) ;;
  ps <- new (ODict []) ;;
  lg <- new (OLog []) ;;
  new (OState (mkStateRefs rs ps lg)).

(** [_log_event] *)
Definition log_event (self : loc) (event_type : string)
    (kwargs : dict LogFieldH) : M unit :=
  st <- load_state self ;;
  lg <- load_log (sr_event_log st) ;;
  write (sr_event_log st)
    (OLog (lg ++ [mkLogEventH event_type (length lg) kwargs])).

(** [_validate_process_and_resource] *)
Definition validate_process_and_resource (self : loc)
    (process_id resource_id : string) : M unit :=
  st <- load_state self ;;
  ps <- load_dict (sr_processes st) ;;
  if negb (dict_mem ps process_id) then raise ValueError
  else
    rs <- load_dict (sr_resources st) ;;
    if negb (dict_mem rs resource_id) then raise ValueError else ret tt.

(** [self.processes[process_id]] and [self.resources[resource_id]] *)
Definition get_process (self : loc) (process_id : string) : M loc :=
  st <- load_state self ;;
  ps <- load_dict (sr_processes st) ;;
  match dict_get ps process_id with
  | Some l => ret l
  | None => raise KeyError
  end.

Definition get_resource (self : loc) (resource_id : string) : M loc :=
  st <- load_state self ;;
  rs <- load_dict (sr_resources st) ;;
  match dict_get rs resource_id with
  | Some l => ret l
  | None => raise KeyError
  end.

(** [Process.need] *)
Definition need (p : ProcessRefs) (resource_id : string) : M Z :=
  mc <- load_ints (pr_max_claims p) ;;
  al <- load_ints (pr_allocated p) ;;
  ret (dict_get_or mc resource_id 0 - dict_get_or al resource_id 0).

Definition add_resource (self : loc) (resource_id : string) (total : Z)
    : M unit :=
  st <- load_state self ;;
  rs <- load_dict (sr_resources st) ;;
  if dict_mem rs resource_id then raise ValueError
  else if total <? 0 then raise ValueError
  else
    r <- new (OResource (mkResource resource_id total total)) ;;
    rs' <- load_dict (sr_resources st) ;;
    write (sr_resources st) (ODict (dict_set rs' resource_id r)) ;;;
    log_event self "resource_added"
      [("resource", HStr resource_id); ("units", HInt total)].

Fixpoint check_max_claims (rs : dict loc) (items : list (string * Z))
    : M unit :=
  match items with
  | [] => ret tt
  | (res_id, units) :: rest =>
      match dict_get rs res_id with
      | None => raise ValueError
      | Some rl =>
          r <- load_resource rl ;;
          if total_units r <? units then raise ValueError
          else check_max_claims rs rest
      end
  end.

(** [add_process]; [claims] is the caller's dictionary, kept by reference. *)
Definition add_process (self : loc) (process_id : string) (claims : loc)
    (prio : Z) : M unit :=
  st <- load_state self ;;
  ps <- load_dict (sr_processes st) ;;
  if dict_mem ps process_id then raise ValueError
  else
    items <- load_ints claims ;;
    rs <- load_dict (sr_resources st) ;;
    check_max_claims rs items ;;;
    al <- new (OInts []) ;;
    rq <- new (OInts []) ;;
    p <- new (OProcess (mkProcessRefs process_id claims al rq prio)) ;;
    ps' <- load_dict (sr_processes st) ;;
    write (sr_processes st) (ODict (dict_set ps' process_id p)) ;;;
    log_event self "process_added"
      [("process", HStr process_id); ("max_claims", HRef claims)].

Definition request (self : loc) (process_id resource_id : string)
    (units : Z) : M bool :=
  validate_process_and_resource self process_id resource_id ;;;
  pl <- get_process self process_id ;;
  process <- load_process pl ;;
  if units <=? 0 then raise ValueError
  else
    nd <- need process resource_id ;;
    if nd <? units then
      log_event self "request_rejected"
        [("process", HStr process_id); ("resource", HStr resource_id);
         ("units", HInt units); ("reason", HStr "exceeds_need")] ;;;
      ret false
    else
      rq <- load_ints (pr_requested process) ;;
      write (pr_requested process)
        (OInts (dict_set rq resource_id
                  (dict_get_or rq resource_id 0 + units))) ;;;
      log_event self "request"
        [("process", HStr process_id); ("resource", HStr resource_id);
         ("units", HInt units)] ;;;
      ret true.

(** The "clear request if fulfilled" step of [allocate]. *)
Definition clear_request (process : ProcessRefs) (resource_id : string)
    (units : Z) : M unit :=
  rq <- load_ints (pr_requested process) ;;
  if dict_mem rq resource_id then
    let left := Z.max 0 (dict_get_or rq resource_id 0 - units) in
    write (pr_requested process) (OInts (dict_set rq resource_id left)) ;;;
    rq1 <- load_ints (pr_requested process) ;;
    if dict_get_or rq1 resource_id 0 =? 0 then
      write (pr_requested process) (OInts (dict_del rq1 resource_id))
    else ret tt
  else ret tt.

Definition allocate (self : loc) (process_id resource_id : string)
    (units : Z) : M bool :=
  validate_process_and_resource self process_id resource_id ;;;
  pl <- get_process self process_id ;;
  process <- load_process pl ;;
  rl <- get_resource self resource_id ;;
  resource <- load_resource rl ;;
  if units <? 0 then raise ValueError
  else if units =? 0 then
    log_event self "allocation_skipped"
      [("process", HStr process_id); ("resource", HStr resource_id);
       ("units", HInt 0)] ;;;
    ret true
  else if available_units resource <? units then
    log_event self "allocation_failed"
      [("process", HStr process_id); ("resource", HStr resource_id);
       ("units", HInt units); ("reason", HStr "insufficient_available")] ;;;
    ret false
  else
    al <- load_ints (pr_allocated process) ;;
    mc <- load_ints (pr_max_claims process) ;;
    let current_alloc := dict_get_or al resource_id 0 in
    let max_claim := dict_get_or mc resource_id 0 in
    if max_claim <? current_alloc + units then
      log_event self "allocation_failed"
        [("process", HStr process_id); ("resource", HStr resource_id);
         ("units", HInt units); ("reason", HStr "exceeds_max_claim")] ;;;
      ret false
    else
      al1 <- load_ints (pr_allocated process) ;;
      write (pr_allocated process)
        (OInts (dict_set al1 resource_id (current_alloc + units))) ;;;
      r1 <- load_resource rl ;;
      write rl (OResource (set_available r1 (available_units r1 - units))) ;;;
      clear_request process resource_id units ;;;
      log_event self "allocation"
        [("process", HStr process_id); ("resource", HStr resource_id);
         ("units", HInt units)] ;;;
      ret true.

Definition release (self : loc) (process_id resource_id : string)
    (units : Z) : M bool :=
  validate_process_and_resource self process_id resource_id ;;;
  pl <- get_process self process_id ;;
  process <- load_process pl ;;
  rl <- get_resource self resource_id ;;
  if units <=? 0 then raise ValueError
  else
    al <- load_ints (pr_allocated process) ;;
    let current_alloc := dict_get_or al resource_id 0 in
    if current_alloc <? units then
      log_event self "release_failed"
        [("process", HStr process_id); ("resource", HStr resource_id);
         ("units", HInt units); ("reason", HStr "insufficient_allocation")] ;;;
      ret false
    else
      write (pr_allocated process)
        (OInts (dict_set al resource_id (current_alloc - units))) ;;;
      al1 <- load_ints (pr_allocated process) ;;
      (if dict_get_or al1 resource_id 0 =? 0 then
         write (pr_allocated process) (OInts (dict_del al1 resource_id))
       else ret tt) ;;;
      r1 <- load_resource rl ;;
      write rl (OResource (set_available r1 (available_units r1 + units))) ;;;
      log_event self "release"
        [("process", HStr process_id); ("resource", HStr resource_id);
         ("units", HInt units)] ;;;
      ret true.

Fixpoint release_all (self : loc) (process_id : string)
    (items : list (string * Z)) : M unit :=
  match items with
  | [] => ret tt
  | (resource_id, units) :: rest =>
      release self process_id resource_id units ;;;
      release_all self process_id rest
  end.

Definition remove_process (self : loc) (process_id : string) : M unit :=
  st <- load_state self ;;
  ps <- load_dict (sr_processes st) ;;
  match dict_get ps process_id with
  | None => raise ValueError
  | Some pl =>
      process <- load_process pl ;;
      items <- load_ints (pr_allocated process) ;;
      release_all self process_id items ;;;
      ps' <- load_dict (sr_processes st) ;;
      write (sr_processes st) (ODict (dict_del ps' process_id)) ;;;
      log_event self "process_removed" [("process", HStr process_id)]
  end.

(** [get_available] *)
Definition get_available (self : loc) (resource_id : string) : M Z :=
  st <- load_state self ;;
  rs <- load_dict (sr_resources st) ;;
  match dict_get rs resource_id with
  | None => raise ValueError
  | Some rl => r <- load_resource rl ;; ret (available_units r)
  end.

(** [deepcopy]: every object gets a copy at its address plus the size of
    the store, with its references moved by the same offset.  The copy of
    the object graph under [self] is thus disjoint from the original and
    shares inside itself exactly what the original shares (the copies of
    unreachable objects are garbage). *)
Definition shift_field (n : nat) (f : LogFieldH) : LogFieldH :=
  match f with HRef l => HRef (n + l)%nat | _ => f end.

Definition shift_event (n : nat) (e : LogEventH) : LogEventH :=
  mkLogEventH (hev_type e) (hev_timestamp e)
    ((fun kv => (kv.1, shift_field n kv.2)) <$> hev_fields e).

Definition shift (n : nat) (o : obj) : obj :=
  match o with
  | OInts d => OInts d
  | OResource r => OResource r
  | OProcess p =>
      OProcess (mkProcessRefs (pr_id p) (n + pr_max_claims p)%nat
                  (n + pr_allocated p)%nat (n + pr_requested p)%nat
                  (pr_priority p))
  | ODict d => ODict ((fun kv => (kv.1, (n + kv.2)%nat)) <$> d)
  | OLog lg => OLog (shift_event n <$> lg)
  | OState st =>
      OState (mkStateRefs (n + sr_resources st)%nat (n + sr_processes st)%nat
                (n + sr_event_log st)%nat)
  end.

(** [clone] *)
Definition clone (self : loc) : M loc :=
  fun h => Done (length h + self)%nat (h ++ (shift (length h) <$> h)).

(** The contents of the state object at [self], as a value. *)
Definition read_ints (h : store) (l : loc) : option (dict Z) :=
  match h !! l with Some (OInts d) => Some d | _ => None end.

Definition read_resource (h : store) (l : loc) : option Resource :=
  match h !! l with Some (OResource r) => Some r | _ => None end.

Definition read_process (h : store) (l : loc) : option Process :=
  match h !! l with
  | Some (OProcess p) =>
      match read_ints h (pr_max_claims p), read_ints h (pr_allocated p),
            read_ints h (pr_requested p) with
      | Some mc, Some al, Some rq =>
          Some (mkProcess (pr_id p) mc al rq (pr_priority p))
      | _, _, _ => None
      end
  | _ => None
  end.

Fixpoint read_all {A B} (f : A -> option B) (d : dict A) : option (dict B) :=
  match d with
  | [] => Some []
  | (k, a) :: d' =>
      match f a, read_all f d' with
      | Some b, Some d'' => Some ((k, b) :: d'')
      | _, _ => None
      end
  end.

Definition read_field (h : store) (f : LogFieldH) : option LogField :=
  match f with
  | HStr s => Some (FStr s)
  | HInt z => Some (FInt z)
  | HRef l =>
      match read_ints h l with Some d => Some (FClaims d) | None => None end
  end.

Fixpoint read_log (h : store) (lg : list LogEventH) : option (list LogEvent) :=
  match lg with
  | [] => Some []
  | e :: lg' =>
      match read_all (read_field h) (hev_fields e), read_log h lg' with
      | Some fs, Some evs =>
          Some (mkLogEvent (hev_type e) (hev_timestamp e) fs :: evs)
      | _, _ => None
      end
  end.

Definition read_state (h : store) (self : loc) : option SystemState :=
  match h !! self with
  | Some (OState st) =>
      match h !! sr_resources st, h !! sr_processes st,
            h !! sr_event_log st with
      | Some (ODict rs), Some (ODict ps), Some (OLog lg) =>
          match read_all (read_resource h) rs, read_all (read_process h) ps,
                read_log h lg with
          | Some rs', Some ps', Some lg' => Some (mkState rs' ps' lg')
          | _, _, _ => None
          end
      | _, _, _ => None
      end
  | _ => None
  end.

(** [find_safe_sequence] only reads the state it is given. *)
Definition find_safe_sequence (self : loc)
    : M (bool * option (list string)) :=
  fun h => match read_state h self with
           | Some s => Done (find_safe_sequence s) h
           | None => Fail IllTyped h
           end.

(** First loop of [is_safe_state]: [false] at the first early return. *)
Fixpoint check_request (test_state : loc) (proc : ProcessRefs)
    (items : list (string * Z)) : M bool :=
  match items with
  | [] => ret true
  | (res_id, units) :: rest =>
      nd <- need proc res_id ;;
      if nd <? units then ret false
      else
        available <- get_available test_state res_id ;;
        if available <? units then ret false
        else check_request test_state proc rest
  end.

(** Second loop of [is_safe_state]. *)
Fixpoint tentative_allocate (test_state : loc) (process : string)
    (items : list (string * Z)) : M bool :=
  match items with
  | [] => ret true
  | (res_id, units) :: rest =>
      ok <- allocate test_state process res_id units ;;
      if ok then tentative_allocate test_state process rest else ret false
  end.

(** [is_safe_state]; [req] is the caller's request dictionary, by value
    because the function only iterates over it. *)
Definition is_safe_state (state : loc) (process : option string)
    (req : option (dict Z)) : M (bool * option (list string)) :=
  test_state <- clone state ;;
  match process, req with
  | Some pid, Some items =>
      if (String.eqb pid "" || match items with [] => true | _ => false end)%bool
      then find_safe_sequence test_state
      else
        pl <- get_process test_state pid ;;
        proc <- load_process pl ;;
        ok <- check_request test_state proc items ;;
        if negb ok then ret (false, None)
        else
          ok2 <- tentative_allocate test_state pid items ;;
          if negb ok2 then ret (false, None)
          else find_safe_sequence test_state
  | _, _ => find_safe_sequence test_state
  end.

(** [SystemState.snapshot]: the three per-process dictionaries are put into
    the result as they are, by reference; [need] and the resource table
    are built afresh. *)
Record ProcessSnapshot := mkProcessSnapshot {
  snap_max_claims : loc;
  snap_allocated : loc;
  snap_requested : loc;
  snap_need : dict Z;
  snap_priority : Z
}.

Record Snapshot := mkSnapshot {
  snap_resources : dict (Z * Z);
  snap_processes : dict ProcessSnapshot
}.

Fixpoint snapshot_resources (rs : dict loc) : M (dict (Z * Z)) :=
  match rs with
  | [] => ret []
  | (rid, rl) :: rest =>
      r <- load_resource rl ;;
      tl <- snapshot_resources rest ;;
      ret ((rid, (total_units r, available_units r)) :: tl)
  end.

(** [Process.total_need] *)
Definition total_need (p : ProcessRefs) : M (dict Z) :=
  mc <- load_ints (pr_max_claims p) ;;
  al <- load_ints (pr_allocated p) ;;
  ret (total_need (mkProcess (pr_id p) mc al [] (pr_priority p))).

Fixpoint snapshot_processes (ps : dict loc) : M (dict ProcessSnapshot) :=
  match ps with
  | [] => ret []
  | (pid, pl) :: rest =>
      p <- load_process pl ;;
      nd <- total_need p ;;
      tl <- snapshot_processes rest ;;
      ret ((pid, mkProcessSnapshot (pr_max_claims p) (pr_allocated p)
                   (pr_requested p) nd (pr_priority p)) :: tl)
  end.

Definition snapshot (self : loc) : M Snapshot :=
  st <- load_state self ;;
  rs <- load_dict (sr_resources st) ;;
  rs' <- snapshot_resources rs ;;
  ps <- load_dict (sr_processes st) ;;
  ps' <- snapshot_processes ps ;;
  ret (mkSnapshot rs' ps').

(** What a reader of the snapshot sees in store [h]. *)
Record ProcessView := mkProcessView {
  view_max_claims : dict Z;
  view_allocated : dict Z;
  view_requested : dict Z;
  view_need : dict Z;
  view_priority : Z
}.

Definition view_process (h : store) (p : ProcessSnapshot)
    : option ProcessView :=
  match read_ints h (snap_max_claims p), read_ints h (snap_allocated p),
        read_ints h (snap_requested p) with
  | Some mc, Some al, Some rq =>
      Some (mkProcessView mc al rq (snap_need p) (snap_priority p))
  | _, _, _ => None
  end.

Definition view (h : store) (s : Snapshot)
    : option (dict (Z * Z) * dict ProcessView) :=
  match read_all (view_process h) (snap_processes s) with
  | Some ps => Some (snap_resources s, ps)
  | None => None
  end.

(** dispatcher.py: [SimulationSnapshot] and [_take_snapshot], without the
    fields that are passed through unchanged. *)
Record SimulationSnapshot := mkSimulationSnapshot {
  sim_event_index : Z;
  sim_system_state : Snapshot;
  sim_deadlock_analysis : Analysis
}.

Definition take_snapshot (snapshots : list SimulationSnapshot) (state : loc)
    (event_index : Z) : M (list SimulationSnapshot) :=
  system_state <- snapshot state ;;
  fun h =>
    match read_state h state with
    | Some s =>
        Done (snapshots ++
              [mkSimulationSnapshot event_index system_state
                 (analyze_deadlock s)]) h
    | None => Fail IllTyped h
    end.

(** *** Framing: what a computation on a copy may touch *)

(** All references held by an object point at or above address [n]. *)
Definition refs_above (n : nat) (o : obj) : Prop :=
  match o with
  | OInts _ | OResource _ | OLog _ => True
  | OProcess p =>
      (n <= pr_max_claims p)%nat /\ (n <= pr_allocated p)%nat /\
      (n <= pr_requested p)%nat
  | ODict d => Forall (fun kv : string * loc => (n <= kv.2)%nat) d
  | OState st =>
      (n <= sr_resources st)%nat /\ (n <= sr_processes st)%nat /\
      (n <= sr_event_log st)%nat
  end.

(** Store [h] agrees with [h0] below [n], and its objects at or above [n]
    only refer to objects at or above [n]. *)
Definition framed (n : nat) (h0 h : store) : Prop :=
  (forall l, (l < n)%nat -> h !! l = h0 !! l) /\
  (forall l o, (n <= l)%nat -> h !! l = Some o -> refs_above n o).

(** [m] keeps the store framed whatever its outcome, and a value it
    returns satisfies [Q]. *)
Definition hoare (n : nat) (h0 : store) {A} (m : M A) (Q : A -> Prop)
    : Prop :=
  forall h, framed n h0 h ->
    framed n h0 (store_of (m h)) /\
    forall a h', m h = Done a h' -> Q a.

(** *** Scenario: a snapshot taken by the dispatcher, then an allocation *)

(** R1 has 10 units; P1 claims 5 and holds 3. *)
Definition snapshot_setup : M loc :=
  st <- new_state ;;
  add_resource st "R1" 10 ;;;
  claims <- new (OInts [("R1", 5)]) ;;
  add_process st "P1" claims 0 ;;;
  allocate st "P1" "R1" 3 ;;;
  ret st.

(** What the first stored snapshot shows right after [_take_snapshot]. *)
Definition stored_snapshot_view_before
    : option (dict (Z * Z) * dict ProcessView) :=
  match (st <- snapshot_setup ;; take_snapshot [] st 0) [] with
  | Done (sim :: _) h => view h (sim_system_state sim)
  | _ => None
  end.

(** What the same stored snapshot shows after a later call [mutate] on the
    live state. *)
Definition stored_snapshot_view_after {A} (mutate : loc -> M A)
    : option (dict (Z * Z) * dict ProcessView) :=
  match (st <- snapshot_setup ;;
         snaps <- take_snapshot [] st 0 ;;
         mutate st ;;;
         ret snaps) [] with
  | Done (sim :: _) h => view h (sim_system_state sim)
  | _ => None
  end.

(** The state [snapshot_setup] builds, and the store that holds it. *)
Definition setup_store : store := store_of (snapshot_setup []).
Definition setup_state : loc :=
  match snapshot_setup [] with Done st _ => st | Fail _ _ => O end.

End Heap.

(** The spec's resource-ordering rule, for comparison with [should_allow]:
    [h] is the highest rank among the held resources that have a rank
    ([None] stands for minus infinity), and the request is allowed iff every
    requested resource that has a rank is ranked at or above [h]. *)
Definition highest_held_rank (order : list string) (process : Process)
    : option nat :=
  py_max
    (omap (index order)
       (List.filter (fun r => 0 <? dict_get_or (allocated process) r 0)
          (keys (allocated process)))).

Definition ordering_allows (order : list string) (process : Process)
    (req : dict Z) : bool :=
  forallb
    (fun r' =>
       match index order r', highest_held_rank order process with
       | Some k, Some h => (h <=? k)%nat
       | _, _ => true
       end)
    (keys req).

(** R1 and R2 of one unit each; P1 holds R2. *)
Definition holds_r2_state : SystemState :=
  run_ops empty_state
    [AddResource "R1" 1; AddResource "R2" 1;
     AddProcess "P1" [("R1", 1); ("R2", 1)] 0;
     Allocate "P1" "R2" 1].

(** Spec scenario 2: three processes on R1:10, R2:5, R3:7. *)
Definition banker_three_state : SystemState :=
  run_ops empty_state
    [AddResource "R1" 10; AddResource "R2" 5; AddResource "R3" 7;
     AddProcess "P1" [("R1", 7); ("R2", 5); ("R3", 3)] 0;
     AddProcess "P2" [("R1", 3); ("R2", 2); ("R3", 2)] 0;
     AddProcess "P3" [("R1", 9); ("R2", 0); ("R3", 2)] 0;
     Allocate "P1" "R2" 1;
     Allocate "P2" "R1" 2;
     Allocate "P3" "R1" 3; Allocate "P3" "R3" 2].

(** Spec scenario 3: R1 of 5 units, two processes claiming 4 and holding 2. *)
Definition unsafe_grant_state : SystemState :=
  run_ops empty_state
    [AddResource "R1" 5;
     AddProcess "P1" [("R1", 4)] 0;
     AddProcess "P2" [("R1", 4)] 0;
     Allocate "P1" "R1" 2;
     Allocate "P2" "R1" 2].

(* ===================================================================== *)
(** ** Definitions for the further properties *)
(* ===================================================================== *)

(** Every record of the log carries its position as timestamp. *)
Definition log_ok (lg : list LogEvent) : Prop :=
  forall i ev, lg !! i = Some ev -> ev_timestamp ev = i.

(** The elementary changes a method of [SystemState] is made of: append a
    log record; replace a process record by one with the same id, claims
    and priority; replace a resource record by one with the same id and
    total; delete a process; store a new resource with all units available;
    store a new process that holds nothing and whose claims passed the
    validation loop. *)
Inductive changes (s : SystemState) : SystemState -> Prop :=
| changes_none : changes s s
| changes_log s1 ty kw :
    changes s s1 -> changes s (log_event s1 ty kw)
| changes_process s1 p proc proc' :
    changes s s1 ->
    dict_get (processes s1) p = Some proc ->
    max_claims proc' = max_claims proc ->
    p_id proc' = p_id proc ->
    priority proc' = priority proc ->
    changes s (mkState (resources s1) (dict_set (processes s1) p proc')
                 (event_log s1))
| changes_resource s1 r res res' :
    changes s s1 ->
    dict_get (resources s1) r = Some res ->
    total_units res' = total_units res ->
    r_id res' = r_id res ->
    changes s (mkState (dict_set (resources s1) r res') (processes s1)
                 (event_log s1))
| changes_delete s1 p :
    changes s s1 ->
    changes s (mkState (resources s1) (dict_del (processes s1) p)
                 (event_log s1))
| changes_new_resource s1 r t :
    changes s s1 ->
    dict_get (resources s1) r = None ->
    0 <= t ->
    changes s (mkState (dict_set (resources s1) r (mkResource r t t))
                 (processes s1) (event_log s1))
| changes_new_process s1 p claims prio :
    changes s s1 ->
    dict_get (processes s1) p = None ->
    check_max_claims s1 claims = None ->
    changes s (mkState (resources s1)
                 (dict_set (processes s1) p (mkProcess p claims [] [] prio))
                 (event_log s1)).

(** Static facts the operations keep: every claim names an existing
    resource and is at most its total; totals are not negative; a record is
    stored under its own id. *)
Record bounds_inv (s : SystemState) : Prop := mkBoundsInv {
  bi_claims : forall p proc r u,
    dict_get (processes s) p = Some proc ->
    (r, u) ∈ max_claims proc ->
    exists res, dict_get (resources s) r = Some res /\ u <= total_units res;
  bi_total : forall r res,
    dict_get (resources s) r = Some res ->
    0 <= total_units res /\ r_id res = r;
  bi_pid : forall p proc,
    dict_get (processes s) p = Some proc -> p_id proc = p
}.

(** Running the processes of [seq] to completion one after the other,
    starting with the work vector [w]: each one must find its whole
    remaining need in the work vector, and gives back what it holds. *)
Fixpoint runs_to_completion (rids : list string) (procs : dict Process)
    (w : dict Z) (seq : list string) : bool :=
  match seq with
  | [] => true
  | p :: rest =>
      match dict_get procs p with
      | Some proc =>
          (can_finish rids proc w &&
           runs_to_completion rids procs (give_back rids proc w) rest)%bool
      | None => false
      end
  end.

(** A safe order of the state: every process exactly once, and running them
    in this order from the available units never blocks. *)
Definition safe_order (s : SystemState) (seq : list string) : Prop :=
  seq ≡ₚ keys (processes s) /\
  runs_to_completion (keys (resources s)) (processes s)
    (work (banker_init s)) seq = true.

(** What the safety loop keeps: the sequence built so far lists exactly the
    finished processes, it can run to completion, and the work vector is
    what is left after it. *)
Definition banker_inv (s : SystemState) (v : BankerVars) : Prop :=
  keys (finish v) = keys (processes s) /\
  work v = work_after s (safe_sequence v) /\
  NoDup (safe_sequence v) /\
  (forall p, dict_get_or (finish v) p false = true <-> p ∈ safe_sequence v) /\
  runs_to_completion (keys (resources s)) (processes s)
    (work (banker_init s)) (safe_sequence v) = true.

(** No unfinished process fits the work vector. *)
Definition stuck (s : SystemState) (v : BankerVars) : Prop :=
  forall p proc, (p, proc) ∈ processes s ->
    dict_get_or (finish v) p false = false ->
    can_finish (keys (resources s)) proc (work v) = false.

(** Units of [r] held by the processes listed in [l]. *)
Definition held_by (s : SystemState) (l : list string) (r : string) : Z :=
  fold_right (fun p acc => allocated_of s p r + acc) 0 l.

(* ===================================================================== *)
(** ** banker.py: get_banker_decision *)
(* ===================================================================== *)

(** [str(n)] and [f"{n}"] for a Python [int]. *)
Definition py_str_int (z : Z) : string := NilZero.string_of_int (Z.to_int z).

(** The dictionary returned by [get_banker_decision], one field per key. *)
Record Decision := mkDecision {
  dec_safe : bool;
  dec_reason : string;
  dec_safe_sequence : option (list string)
}.

(** First loop of [get_banker_decision]: the first item above the need,
    with the need that it exceeds. *)
Fixpoint exceeds_need (proc : Process) (items : list (string * Z))
    : option (string * Z * Z) :=
  match items with
  | [] => None
  | (res_id, units) :: rest =>
      let need := need proc res_id in
      if need <? units then Some (res_id, units, need)
      else exceeds_need proc rest
  end.

(** Second loop: the first item above the available units;
    [get_available] raises for an unknown resource. *)
Fixpoint exceeds_available (s : SystemState) (items : list (string * Z))
    : outcome (option (string * Z * Z)) :=
  match items with
  | [] => Ok None
  | (res_id, units) :: rest =>
      match get_available s res_id with
      | None => Err ValueError
      | Some available =>
          if available <? units then Ok (Some (res_id, units, available))
          else exceeds_available s rest
      end
  end.

Definition get_banker_decision (s : SystemState) (process_id : string)
    (request : dict Z) : outcome Decision :=
  if negb (dict_mem (processes s) process_id) then
    Ok (mkDecision false
          ("Process " ++ process_id ++ " does not exist")%string None)
  else
    match dict_get (processes s) process_id with
    | None => Err KeyError
    | Some proc =>
        match exceeds_need proc request with
        | Some (res_id, units, need) =>
            Ok (mkDecision false
                  ("Request for " ++ res_id ++ " (" ++ py_str_int units
                   ++ ") exceeds need (" ++ py_str_int need ++ ")")%string
                  None)
        | None =>
            match exceeds_available s request with
            | Err e => Err e
            | Ok (Some (res_id, units, available)) =>
                Ok (mkDecision false
                      ("Request for " ++ res_id ++ " (" ++ py_str_int units
                       ++ ") exceeds available (" ++ py_str_int available
                       ++ ")")%string
                      None)
            | Ok None =>
                match is_safe_state s (Some process_id) (Some request) with
                | Err e => Err e
                | Ok (is_safe, sequence) =>
                    if is_safe then
                      Ok (mkDecision true
                            "Request leaves system in safe state" sequence)
                    else
                      Ok (mkDecision false
                            "Request would leave system in unsafe state (no safe sequence exists)"
                            None)
                end
            end
        end
    end.

(* ===================================================================== *)
(** ** policies.py: recovery policies *)
(* ===================================================================== *)

(** [min(deadlocked_processes, key=lambda pid: state.processes[pid].priority)]:
    the keys are computed in list order ([KeyError] for an id that is not a
    process) and a later element replaces the current one only when its key
    is strictly smaller. *)
Fixpoint min_by_priority_loop (s : SystemState) (rest : list string)
    (best : string) (best_key : Z) : outcome string :=
  match rest with
  | [] => Ok best
  | pid :: rest' =>
      match dict_get (processes s) pid with
      | None => Err KeyError
      | Some proc =>
          if priority proc <? best_key
          then min_by_priority_loop s rest' pid (priority proc)
          else min_by_priority_loop s rest' best best_key
      end
  end.

Definition min_by_priority (s : SystemState) (pids : list string)
    : outcome string :=
  match pids with
  | [] => Err ValueError
  | pid :: rest =>
      match dict_get (processes s) pid with
      | None => Err KeyError
      | Some proc => min_by_priority_loop s rest pid (priority proc)
      end
  end.

(** [for pid in deadlocked_processes: state.remove_process(pid)]. *)
Fixpoint remove_each (s : SystemState) (pids : list string) : result unit :=
  match pids with
  | [] => Return tt s
  | pid :: rest =>
      match remove_process s pid with
      | Raise e s' => Raise e s'
      | Return _ s' => remove_each s' rest
      end
  end.

(** [KillProcessRecovery.recover]; the policy's only field is [kill_all]. *)
Definition kill_process_recover (kill_all : bool) (s : SystemState)
    (deadlocked_processes : list string)
    : result (bool * string * list string) :=
  match deadlocked_processes with
  | [] => Return (false, "No deadlocked processes", []) s
  | _ :: _ =>
      if kill_all then
        match remove_each s deadlocked_processes with
        | Raise e s' => Raise e s'
        | Return _ s' =>
            Return (true,
                    ("Terminated all "
                     ++ py_str_int (Z.of_nat (length deadlocked_processes))
                     ++ " deadlocked processes")%string,
                    deadlocked_processes) s'
        end
      else
        match min_by_priority s deadlocked_processes with
        | Err e => Raise e s
        | Ok victim =>
            match remove_process s victim with
            | Raise e s' => Raise e s'
            | Return _ s' =>
                Return (true, ("Terminated process " ++ victim)%string,
                        [victim]) s'
            end
        end
  end.

Definition priority_of (s : SystemState) (p : string) : Z :=
  match dict_get (processes s) p with
  | Some proc => priority proc
  | None => 0
  end.

(** [v] is the first element of [l] with the least priority. *)
Definition first_lowest_priority (s : SystemState) (l : list string)
    (v : string) : Prop :=
  exists pre post, l = pre ++ v :: post /\
    (forall q, q ∈ pre -> priority_of s v < priority_of s q) /\
    (forall q, q ∈ post -> priority_of s v <= priority_of s q).

(** The loop of [PreemptLowPriorityRecovery.recover]: every holding of the
    victim is released and recorded in [released]. *)
Fixpoint preempt_loop (s : SystemState) (victim : string)
    (items : list (string * Z)) (released : dict Z) : result (dict Z) :=
  match items with
  | [] => Return released s
  | (res_id, units) :: rest =>
      match release s victim res_id units with
      | Raise e s' => Raise e s'
      | Return _ s' =>
          preempt_loop s' victim rest (dict_set released res_id units)
      end
  end.

Section Preempt.

(** How Python prints the dictionary [released] inside the f-string; the
    text of a [repr] is left open. *)
Variable repr_dict : dict Z -> string.

(** [PreemptLowPriorityRecovery.recover]. *)
Definition preempt_low_priority_recover (s : SystemState)
    (deadlocked_processes : list string)
    : result (bool * string * list string) :=
  match deadlocked_processes with
  | [] => Return (false, "No deadlocked processes", []) s
  | _ :: _ =>
      match min_by_priority s deadlocked_processes with
      | Err e => Raise e s
      | Ok victim =>
          match dict_get (processes s) victim with
          | None => Raise KeyError s
          | Some victim_proc =>
              match preempt_loop s victim (allocated victim_proc) [] with
              | Raise e s' => Raise e s'
              | Return released s' =>
                  Return (true,
                          ("Preempted " ++ victim ++ " (priority="
                           ++ py_str_int (priority victim_proc)
                           ++ "), released " ++ repr_dict released)%string,
                          [victim]) s'
              end
          end
      end
  end.

End Preempt.

(** The resources a process holds, in the order of its [allocated]
    dictionary (the list [held_resources] of [should_allow]). *)
Definition held_resources (process : Process) : list string :=
  List.filter (fun r => 0 <? dict_get_or (allocated process) r 0)
    (keys (allocated process)).

(** The ordering the policy works with: its own, or the sorted resource ids
    when it has none. *)
Definition effective_order (self : ResourceOrderingPolicy) (s : SystemState)
    : list string :=
  match resource_order self with
  | [] => sorted (keys (resources s))
  | o => o
  end.

(* ===================================================================== *)
(** ** policies.py: ConservativeAllocationPolicy *)
(* ===================================================================== *)

(** First loop of [ConservativeAllocationPolicy.should_allow], over the
    entries of [total_need()]; [state.resources[res_id]] raises [KeyError]
    for an unknown resource. *)
Fixpoint first_excess_need (s : SystemState) (needs : list (string * Z))
    : outcome (option (string * Z * Z)) :=
  match needs with
  | [] => Ok None
  | (res_id, need) :: rest =>
      match dict_get (resources s) res_id with
      | None => Err KeyError
      | Some res =>
          let total_units := total_units res in
          if total_units <? need then Ok (Some (res_id, need, total_units))
          else first_excess_need s rest
      end
  end.

(** Second loop: the first requested resource with too few available
    units; [get_available] raises [ValueError] for an unknown resource. *)
Fixpoint first_unavailable (s : SystemState) (items : list (string * Z))
    : outcome (option string) :=
  match items with
  | [] => Ok None
  | (res_id, units) :: rest =>
      match get_available s res_id with
      | None => Err ValueError
      | Some available =>
          if available <? units then Ok (Some res_id)
          else first_unavailable s rest
      end
  end.

Section Conservative.

(** The order in which Python iterates the set built from a list of keys;
    the language does not fix it. *)
Variable set_iter : list string -> list string.

(** [Process.total_need] with the iteration order of its set made
    explicit. *)
Definition total_need_items (p : Process) : dict Z :=
  (fun res => (res, need p res))
    <$> set_iter (keys (max_claims p) ++ keys (allocated p))%list.

(** [ConservativeAllocationPolicy.should_allow]. *)
Definition conservative_should_allow (s : SystemState) (process_id : string)
    (request : dict Z) : outcome (bool * string) :=
  match dict_get (processes s) process_id with
  | None => Err KeyError
  | Some process =>
      match first_excess_need s (total_need_items process) with
      | Err e => Err e
      | Ok (Some (res_id, need, total_units)) =>
          Ok (false,
              ("Maximum need for " ++ res_id ++ " (" ++ py_str_int need
               ++ ") exceeds total available (" ++ py_str_int total_units
               ++ ")")%string)
      | Ok None =>
          match first_unavailable s request with
          | Err e => Err e
          | Ok (Some res_id) =>
              Ok (false,
                  ("Insufficient " ++ res_id ++ " available now")%string)
          | Ok None => Ok (true, "Conservative check passed")
          end
      end
  end.

End Conservative.

(* ===================================================================== *)
(** ** rag.py: the resource allocation graph *)
(* ===================================================================== *)

(** Attributes networkx stores with a node and with an edge.  A node that
    only an edge introduced has no attribute. *)
Record NodeData := mkNodeData {
  node_type : option string;
  node_units : option Z
}.

Record EdgeData := mkEdgeData {
  edge_type : string;
  edge_units : Z
}.

(** [ResourceAllocationGraph]: the [DiGraph] with its attributes, and the
    two sets of ids. *)
Record ResourceAllocationGraph := mkRag {
  rag_nodes : dict NodeData;
  rag_edges : list ((string * string) * EdgeData);
  process_nodes : list string;
  resource_nodes : list string
}.

Definition empty_rag : ResourceAllocationGraph := mkRag [] [] [] [].

(** [set.add]. *)
Definition set_add (x : string) (l : list string) : list string :=
  if existsb (String.eqb x) l then l else (l ++ [x])%list.

(** [DiGraph.add_node(n, **attr)]: a new node gets the attributes, an
    existing one has them updated. *)
Definition rag_add_node (nodes : dict NodeData) (n : string)
    (ty : option string) (units : option Z) : dict NodeData :=
  match dict_get nodes n with
  | None => dict_set nodes n (mkNodeData ty units)
  | Some old =>
      dict_set nodes n
        (mkNodeData
           (match ty with Some _ => ty | None => node_type old end)
           (match units with Some _ => units | None => node_units old end))
  end.

Fixpoint edge_get (es : list ((string * string) * EdgeData))
    (e : string * string) : option EdgeData :=
  match es with
  | [] => None
  | (f, d) :: rest => if same_edge f e then Some d else edge_get rest e
  end.

Fixpoint edge_set (es : list ((string * string) * EdgeData))
    (e : string * string) (d : EdgeData)
    : list ((string * string) * EdgeData) :=
  match es with
  | [] => [(e, d)]
  | (f, d') :: rest =>
      if same_edge f e then (e, d) :: rest else (f, d') :: edge_set rest e d
  end.

(** [DiGraph.add_edge(u, v, edge_type=..., units=...)]: missing end points
    become nodes without attributes. *)
Definition rag_add_edge (g : ResourceAllocationGraph) (u v : string)
    (d : EdgeData) : ResourceAllocationGraph :=
  let nodes1 := rag_add_node (rag_nodes g) u None None in
  let nodes2 := rag_add_node nodes1 v None None in
  mkRag nodes2 (edge_set (rag_edges g) (u, v) d)
    (process_nodes g) (resource_nodes g).

Definition rag_add_process (g : ResourceAllocationGraph) (process_id : string)
    : ResourceAllocationGraph :=
  mkRag (rag_add_node (rag_nodes g) process_id (Some "process") None)
    (rag_edges g) (set_add process_id (process_nodes g)) (resource_nodes g).

Definition rag_add_resource (g : ResourceAllocationGraph)
    (resource_id : string) (units : Z) : ResourceAllocationGraph :=
  mkRag (rag_add_node (rag_nodes g) resource_id (Some "resource") (Some units))
    (rag_edges g) (process_nodes g) (set_add resource_id (resource_nodes g)).

Definition add_request_edge (g : ResourceAllocationGraph)
    (process_id resource_id : string) (units : Z) : ResourceAllocationGraph :=
  rag_add_edge g process_id resource_id (mkEdgeData "request" units).

Definition add_assignment_edge (g : ResourceAllocationGraph)
    (resource_id process_id : string) (units : Z) : ResourceAllocationGraph :=
  rag_add_edge g resource_id process_id (mkEdgeData "assignment" units).

(** The two inner loops of [build_resource_allocation_graph]. *)
Definition add_assignments (process_id : string) (items : dict Z)
    (g : ResourceAllocationGraph) : ResourceAllocationGraph :=
  fold_left
    (fun g item =>
       if 0 <? snd item then add_assignment_edge g (fst item) process_id (snd item)
       else g)
    items g.

Definition add_requests (process_id : string) (items : dict Z)
    (g : ResourceAllocationGraph) : ResourceAllocationGraph :=
  fold_left
    (fun g item =>
       if 0 <? snd item then add_request_edge g process_id (fst item) (snd item)
       else g)
    items g.

Definition build_resource_allocation_graph (s : SystemState)
    : ResourceAllocationGraph :=
  let rag1 :=
    fold_left
      (fun g item => rag_add_resource g (fst item) (total_units (snd item)))
      (resources s) empty_rag in
  fold_left
    (fun g item =>
       let g1 := rag_add_process g (fst item) in
       let g2 := add_assignments (fst item) (allocated (snd item)) g1 in
       add_requests (fst item) (requested (snd item)) g2)
    (processes s) rag1.

(** The edges [build_resource_allocation_graph] writes, in the order it
    writes them. *)
Definition assignment_writes (process_id : string) (items : dict Z)
    : list ((string * string) * EdgeData) :=
  (fun item => ((fst item, process_id), mkEdgeData "assignment" (snd item)))
    <$> List.filter (fun item => 0 <? snd item) items.

Definition request_writes (process_id : string) (items : dict Z)
    : list ((string * string) * EdgeData) :=
  (fun item => ((process_id, fst item), mkEdgeData "request" (snd item)))
    <$> List.filter (fun item => 0 <? snd item) items.

Definition rag_writes (procs : dict Process)
    : list ((string * string) * EdgeData) :=
  flat_map
    (fun item =>
       assignment_writes (fst item) (allocated (snd item)) ++
       request_writes (fst item) (requested (snd item)))%list
    procs.

(** The exception a call ends with, if any. *)
Definition exn_of {A} (r : result A) : option exn :=
  match r with Raise e _ => Some e | Return _ _ => None end.

Definition op_raises (s : SystemState) (o : op) : option exn :=
  match o with
  | AddResource r t => exn_of (add_resource s r t)
  | AddProcess p c prio => exn_of (add_process s p c prio)
  | Request p r u => exn_of (request s p r u)
  | Allocate p r u => exn_of (allocate s p r u)
  | Release p r u => exn_of (release s p r u)
  | RemoveProcess p => exn_of (remove_process s p)
  end.

(** The calls that the API rejects with an exception. *)
Definition bad_call (s : SystemState) (o : op) : Prop :=
  match o with
  | AddResource r t => r ∈ keys (resources s) \/ t < 0
  | AddProcess p c _ =>
      p ∈ keys (processes s) \/
      exists r u, (r, u) ∈ c /\ (r ∉ keys (resources s) \/ total_of s r < u)
  | Request p r u =>
      p ∉ keys (processes s) \/ r ∉ keys (resources s) \/ u <= 0
  | Allocate p r u =>
      p ∉ keys (processes s) \/ r ∉ keys (resources s) \/ u < 0
  | Release p r u =>
      p ∉ keys (processes s) \/ r ∉ keys (resources s) \/ u <= 0
  | RemoveProcess p => p ∉ keys (processes s)
  end.

(** [SystemState.snapshot] with the iteration order of the set inside
    [Process.total_need] made explicit. *)
Module AnyOrder.
Section SnapshotOrder.

(** The order in which Python iterates the set built from a list of keys;
    the language does not fix it. *)
Variable set_iter : list string -> list string.

(** [Process.total_need] *)
Definition total_need (p : Heap.ProcessRefs) : Heap.M (dict Z) :=
  Heap.bind (Heap.load_ints (Heap.pr_max_claims p)) (fun mc =>
  Heap.bind (Heap.load_ints (Heap.pr_allocated p)) (fun al =>
  Heap.ret
    (total_need_items set_iter
       (mkProcess (Heap.pr_id p) mc al [] (Heap.pr_priority p))))).

Fixpoint snapshot_processes (ps : dict Heap.loc)
    : Heap.M (dict Heap.ProcessSnapshot) :=
  match ps with
  | [] => Heap.ret []
  | (pid, pl) :: rest =>
      Heap.bind (Heap.load_process pl) (fun p =>
      Heap.bind (total_need p) (fun nd =>
      Heap.bind (snapshot_processes rest) (fun tl =>
      Heap.ret
        ((pid, Heap.mkProcessSnapshot (Heap.pr_max_claims p)
                 (Heap.pr_allocated p) (Heap.pr_requested p) nd
                 (Heap.pr_priority p)) :: tl))))
  end.

(** [snapshot] *)
Definition snapshot (self : Heap.loc) : Heap.M Heap.Snapshot :=
  Heap.bind (Heap.load_state self) (fun st =>
  Heap.bind (Heap.load_dict (Heap.sr_resources st)) (fun rs =>
  Heap.bind (Heap.snapshot_resources rs) (fun rs' =>
  Heap.bind (Heap.load_dict (Heap.sr_processes st)) (fun ps =>
  Heap.bind (snapshot_processes ps) (fun ps' =>
  Heap.ret (Heap.mkSnapshot rs' ps')))))).

(** What [snapshot()] of a state with value [s] shows when it is taken:
    the needs are the entries of [total_need()] in the order of its set. *)
Definition snapshot_of (s : SystemState)
    : dict (Z * Z) * dict Heap.ProcessView :=
  ((fun kv => (kv.1, (total_units kv.2, available_units kv.2)))
     <$> resources s,
   (fun kv =>
      (kv.1, Heap.mkProcessView (max_claims kv.2) (allocated kv.2)
               (requested kv.2) (total_need_items set_iter kv.2)
               (priority kv.2)))
     <$> processes s).

End SnapshotOrder.
End AnyOrder.

(** Two process tables that the safety check cannot tell apart: the same
    ids in the same order, with the same claims and holdings. *)
Definition same_claims (ps ps' : dict Process) : Prop :=
  Forall2
    (fun a b : string * Process =>
       a.1 = b.1 /\ max_claims a.2 = max_claims b.2 /\
       allocated a.2 = allocated b.2)
    ps ps'.

(* ===================================================================== *)
(** * Proofs *)
(* ===================================================================== *)

(** ** Dictionary lemmas *)

Section DictFacts.
Context {V : Type}.
Implicit Types (d : dict V) (k : string) (v : V).

Lemma dict_get_set_eq d k v : dict_get (dict_set d k v) k = Some v.
Proof.
  induction d as [|[k' v'] d IH]; simpl.
  - by rewrite String.eqb_refl.
  - destruct (String.eqb_spec k' k) as [->|Hne]; simpl.
    + by rewrite String.eqb_refl.
    + destruct (String.eqb_spec k' k); [done | exact IH].
Qed.

Lemma dict_get_set_ne d k k' v :
  k <> k' -> dict_get (dict_set d k v) k' = dict_get d k'.
Proof.
  intros Hne. induction d as [|[k0 v0] d IH]; simpl.
  - destruct (String.eqb_spec k k'); [done | reflexivity].
  - destruct (String.eqb_spec k0 k) as [->|Hk]; simpl.
    + destruct (String.eqb_spec k k'); [done | reflexivity].
    + destruct (String.eqb_spec k0 k'); [reflexivity | exact IH].
Qed.

Lemma dict_get_del_eq d k : dict_get (dict_del d k) k = None.
Proof.
  induction d as [|[k' v'] d IH]; simpl; [reflexivity|].
  destruct (String.eqb_spec k' k) as [->|Hne]; simpl; [exact IH|].
  destruct (String.eqb_spec k' k); [done | exact IH].
Qed.

Lemma dict_get_del_ne d k k' :
  k <> k' -> dict_get (dict_del d k) k' = dict_get d k'.
Proof.
  intros Hne. induction d as [|[k0 v0] d IH]; simpl; [reflexivity|].
  destruct (String.eqb_spec k0 k) as [->|Hk]; simpl.
  - destruct (String.eqb_spec k k'); [done | exact IH].
  - destruct (String.eqb_spec k0 k'); [reflexivity | exact IH].
Qed.

Lemma dict_get_elem d k v : dict_get d k = Some v -> (k, v) ∈ d.
Proof.
  induction d as [|[k' v'] d IH]; simpl; [done|].
  destruct (String.eqb_spec k' k) as [->|Hne].
  - intros [= ->]. by left.
  - intros H. right. by apply IH.
Qed.

Lemma dict_get_None d k : dict_get d k = None <-> k ∉ keys d.
Proof.
  unfold keys. induction d as [|[k' v'] d IH]; simpl.
  - split; [intros _; apply not_elem_of_nil | done].
  - rewrite not_elem_of_cons.
    destruct (String.eqb_spec k' k) as [->|Hne]; [naive_solver|].
    rewrite IH. naive_solver.
Qed.

Lemma dict_get_Some_key d k v : dict_get d k = Some v -> k ∈ keys d.
Proof.
  intros H%dict_get_elem. unfold keys.
  apply list_elem_of_fmap. by exists (k, v).
Qed.

Lemma elem_keys_dict_get d k : k ∈ keys d -> exists v, dict_get d k = Some v.
Proof.
  intros H. destruct (dict_get d k) eqn:E; [by eexists|].
  by apply dict_get_None in E.
Qed.

Lemma elem_dict_get d k v :
  NoDup (keys d) -> (k, v) ∈ d -> dict_get d k = Some v.
Proof.
  unfold keys. induction d as [|[k' v'] d IH]; simpl.
  - intros _ H. by apply elem_of_nil in H.
  - rewrite NoDup_cons, elem_of_cons.
    intros [Hnotin Hnd] [Heq|Hin].
    + injection Heq as -> ->. by rewrite String.eqb_refl.
    + destruct (String.eqb_spec k' k) as [->|Hne]; [|by apply IH].
      exfalso. apply Hnotin. apply list_elem_of_fmap. by exists (k, v).
Qed.

Lemma dict_mem_true d k : dict_mem d k = true <-> k ∈ keys d.
Proof.
  unfold dict_mem. split.
  - destruct (dict_get d k) eqn:E; [|done]. intros _.
    by eapply dict_get_Some_key.
  - intros [v ->]%elem_keys_dict_get. reflexivity.
Qed.

Lemma dict_mem_false d k : dict_mem d k = false <-> k ∉ keys d.
Proof.
  rewrite <- dict_mem_true. destruct (dict_mem d k); split; congruence.
Qed.

Lemma keys_set_present d k v : k ∈ keys d -> keys (dict_set d k v) = keys d.
Proof.
  unfold keys. induction d as [|[k' v'] d IH]; simpl.
  - intros H. by apply elem_of_nil in H.
  - rewrite elem_of_cons. simpl. intros H.
    destruct (String.eqb_spec k' k) as [->|Hne]; simpl; [done|].
    f_equal. apply IH. naive_solver.
Qed.

Lemma keys_set_absent d k v :
  k ∉ keys d -> keys (dict_set d k v) = (keys d ++ [k])%list.
Proof.
  unfold keys. induction d as [|[k' v'] d IH]; simpl; [done|].
  rewrite not_elem_of_cons. simpl. intros [Hk Hd].
  destruct (String.eqb_spec k' k) as [->|Hne]; simpl; [done|].
  f_equal. by apply IH.
Qed.

Lemma elem_keys_set d k v k' :
  k' ∈ keys (dict_set d k v) <-> k' = k \/ k' ∈ keys d.
Proof.
  unfold keys. induction d as [|[k0 v0] d IH]; simpl.
  - rewrite elem_of_cons, !elem_of_nil. tauto.
  - destruct (String.eqb_spec k0 k) as [->|Hne]; simpl.
    + rewrite !elem_of_cons. tauto.
    + rewrite !elem_of_cons, IH. tauto.
Qed.

Lemma elem_keys_del d k k' :
  k' ∈ keys (dict_del d k) <-> k' <> k /\ k' ∈ keys d.
Proof.
  unfold keys. induction d as [|[k0 v0] d IH]; simpl.
  - rewrite !elem_of_nil. tauto.
  - destruct (String.eqb_spec k0 k) as [->|Hne]; simpl.
    + rewrite elem_of_cons, IH. naive_solver.
    + rewrite !elem_of_cons, IH. naive_solver.
Qed.

Lemma NoDup_keys_set d k v : NoDup (keys d) -> NoDup (keys (dict_set d k v)).
Proof.
  intros Hnd. destruct (dict_mem d k) eqn:E.
  - apply dict_mem_true in E. by rewrite keys_set_present.
  - apply dict_mem_false in E. rewrite keys_set_absent by done.
    apply NoDup_app. split; [done|]. split; [|apply NoDup_singleton].
    intros x Hx Hx'%list_elem_of_singleton. by subst.
Qed.

Lemma NoDup_keys_del d k : NoDup (keys d) -> NoDup (keys (dict_del d k)).
Proof.
  unfold keys. induction d as [|[k0 v0] d IH]; simpl; [done|].
  rewrite NoDup_cons. simpl. intros [Hnotin Hnd].
  destruct (String.eqb_spec k0 k) as [->|Hne]; simpl; [by apply IH|].
  apply NoDup_cons. split; [|by apply IH].
  intros H%elem_keys_del. tauto.
Qed.

Lemma elem_dict_set d k v kv :
  kv ∈ dict_set d k v -> kv = (k, v) \/ kv ∈ d.
Proof.
  induction d as [|[k0 v0] d IH]; simpl.
  - rewrite elem_of_cons, elem_of_nil. tauto.
  - destruct (String.eqb_spec k0 k) as [->|Hne]; simpl.
    + rewrite !elem_of_cons. tauto.
    + rewrite !elem_of_cons. intros [?|?]; [tauto|].
      destruct IH; tauto.
Qed.

Lemma elem_dict_del d k kv : kv ∈ dict_del d k -> kv ∈ d /\ kv.1 <> k.
Proof.
  induction d as [|[k0 v0] d IH]; simpl.
  - intros H. by apply elem_of_nil in H.
  - destruct (String.eqb_spec k0 k) as [->|Hne]; simpl.
    + rewrite elem_of_cons. intros H. destruct (IH H). tauto.
    + rewrite !elem_of_cons. intros [->|H]; [by split; [left|]|].
      destruct (IH H). tauto.
Qed.

Lemma dict_get_or_set_eq d k v dflt :
  dict_get_or (dict_set d k v) k dflt = v.
Proof. unfold dict_get_or. by rewrite dict_get_set_eq. Qed.

Lemma dict_get_or_set_ne d k k' v dflt :
  k <> k' -> dict_get_or (dict_set d k v) k' dflt = dict_get_or d k' dflt.
Proof. intros. unfold dict_get_or. by rewrite dict_get_set_ne. Qed.

Lemma dict_get_or_del_eq d k dflt : dict_get_or (dict_del d k) k dflt = dflt.
Proof. unfold dict_get_or. by rewrite dict_get_del_eq. Qed.

Lemma dict_get_or_del_ne d k k' dflt :
  k <> k' -> dict_get_or (dict_del d k) k' dflt = dict_get_or d k' dflt.
Proof. intros. unfold dict_get_or. by rewrite dict_get_del_ne. Qed.
End DictFacts.

(** ** state.py: request *)

Lemma validate_ok s p r proc res :
  dict_get (processes s) p = Some proc ->
  dict_get (resources s) r = Some res ->
  validate_process_and_resource s p r = None.
Proof.
  intros Hp Hr. unfold validate_process_and_resource, dict_mem.
  by rewrite Hp, Hr.
Qed.

Lemma validate_None_inv s p r :
  validate_process_and_resource s p r = None ->
  (exists proc, dict_get (processes s) p = Some proc) /\
  (exists res, dict_get (resources s) r = Some res).
Proof.
  unfold validate_process_and_resource, dict_mem.
  destruct (dict_get (processes s) p); simpl; [|done].
  destruct (dict_get (resources s) r); simpl; [|done].
  eauto.
Qed.

Lemma allocated_of_set_requested s p proc rq p' r' rs lg :
  dict_get (processes s) p = Some proc ->
  allocated_of (mkState rs (dict_set (processes s) p (set_requested proc rq)) lg)
    p' r' = allocated_of s p' r'.
Proof.
  intros Hp. unfold allocated_of. simpl.
  destruct (String.eqb_spec p p') as [<-|Hne].
  - by rewrite dict_get_set_eq, Hp.
  - by rewrite dict_get_set_ne.
Qed.

(** C7: a request above the remaining need is refused without raising and
    without touching available, allocated or requested units, and leaves one
    refusal record in the event log; a request within the need returns true,
    adds the units to the pending amount and moves no unit. *)
Theorem request_refused_or_recorded s p r units proc res :
  dict_get (processes s) p = Some proc ->
  dict_get (resources s) r = Some res ->
  0 < units ->
  (need_of s p r < units ->
   exists s', request s p r units = Return false s' /\
     resources s' = resources s /\ processes s' = processes s /\
     available_of s' r = available_of s r /\
     allocated_of s' p r = allocated_of s p r /\
     requested_of s' p r = requested_of s p r /\
     exists ev, event_log s' = (event_log s ++ [ev])%list /\
       ev_type ev = "request_rejected" /\
       dict_get (ev_fields ev) "reason" = Some (FStr "exceeds_need")) /\
  (units <= need_of s p r ->
   exists s', request s p r units = Return true s' /\
     requested_of s' p r = requested_of s p r + units /\
     resources s' = resources s /\
     available_of s' r = available_of s r /\
     (forall p' r', allocated_of s' p' r' = allocated_of s p' r')).
Proof.
  intros Hp Hr Hpos.
  assert (Hneed : need_of s p r = need proc r).
  { unfold need_of, max_claims_of, allocated_of, need. by rewrite Hp. }
  unfold request. rewrite (validate_ok _ _ _ _ _ Hp Hr), Hp.
  destruct (Z.leb_spec units 0) as [?|_]; [lia|].
  rewrite <- Hneed. split; intros Hcmp.
  - destruct (Z.ltb_spec (need_of s p r) units) as [_|?]; [|lia].
    eexists. split; [reflexivity|]. simpl.
    repeat split; try reflexivity. eexists. repeat split; reflexivity.
  - destruct (Z.ltb_spec (need_of s p r) units) as [?|_]; [lia|].
    eexists. split; [reflexivity|]. repeat split.
    + unfold requested_of. simpl. rewrite dict_get_set_eq, Hp. simpl.
      by rewrite dict_get_or_set_eq.
    + intros p' r'. unfold log_event. simpl.
      by apply allocated_of_set_requested.
Qed.

Lemma request_refused_or_recorded_witness :
  (exists s', request exceeds_need_state "P1" "R1" 3 = Return false s' /\
     resources s' = resources exceeds_need_state /\
     processes s' = processes exceeds_need_state) /\
  (exists s', request exceeds_need_state "P1" "R1" 2 = Return true s' /\
     requested_of s' "P1" "R1" = 2).
Proof.
  split.
  - destruct (proj1 (request_refused_or_recorded exceeds_need_state "P1" "R1" 3
                       (mkProcess "P1" [("R1", 5)] [("R1", 3)] [] 0)
                       (mkResource "R1" 10 7) eq_refl eq_refl eq_refl))
      as (s' & Hreq & Hres & Hprocs & _).
    + vm_compute. reflexivity.
    + exists s'. repeat split; assumption.
  - destruct (proj2 (request_refused_or_recorded exceeds_need_state "P1" "R1" 2
                       (mkProcess "P1" [("R1", 5)] [("R1", 3)] [] 0)
                       (mkResource "R1" 10 7) eq_refl eq_refl eq_refl))
      as (s' & Hreq & Hrq & _).
    + vm_compute. discriminate.
    + exists s'. split; [assumption|]. rewrite Hrq. reflexivity.
Defined.

(** ** banker.py: termination of the safety loop *)

Lemma unfinished_set_true f pid :
  dict_get f pid = Some false ->
  S (unfinished (dict_set f pid true)) = unfinished f.
Proof.
  unfold unfinished. induction f as [|[k b] f IH]; simpl; [done|].
  destruct (String.eqb_spec k pid) as [->|Hne].
  - intros [= ->]. reflexivity.
  - intros H. simpl. destruct b; simpl; [by apply IH|].
    f_equal. by apply IH.
Qed.

Lemma unfinished_init (procs : dict Process) :
  unfinished ((fun kv => (kv.1, false)) <$> procs) = length procs.
Proof.
  unfold unfinished. induction procs as [|[k p] l IH]; simpl; [done|].
  f_equal. exact IH.
Qed.

Lemma keys_init {A B} (g : A -> B) (d : dict A) :
  keys ((fun kv => (kv.1, g kv.2)) <$> d) = keys d.
Proof.
  unfold keys. induction d as [|[k a] d IH]; simpl; [done|].
  f_equal. exact IH.
Qed.

Lemma sweep_cons rids item l v :
  sweep rids (item :: l) v = sweep rids l (visit rids v item).
Proof. reflexivity. Qed.


(** One loop body either changes nothing or finishes one more process. *)
Lemma visit_cases rids v pid proc :
  pid ∈ keys (finish v) ->
  visit rids v (pid, proc) = v \/
  (dict_get (finish v) pid = Some false /\
   can_finish rids proc (work v) = true /\
   visit rids v (pid, proc) = mark_finished rids v pid proc).
Proof.
  intros [b Hb]%elem_keys_dict_get. unfold visit, dict_get_or. rewrite Hb.
  destruct b; [by left|].
  destruct (can_finish rids proc (work v)); [right; done | by left].
Qed.

Lemma sweep_measure rids (l : dict Process) v :
  (forall kv, kv ∈ l -> kv.1 ∈ keys (finish v)) ->
  let v' := sweep rids l v in
  keys (finish v') = keys (finish v) /\
  ((v' = v) \/
   (progress v' = true /\ (unfinished (finish v') < unfinished (finish v))%nat)).
Proof.
  revert v. induction l as [|[pid proc] l IH]; intros v Hin.
  - split; [done | by left].
  - rewrite sweep_cons.
    assert (Hpid : pid ∈ keys (finish v)) by (apply (Hin (pid, proc)); by left).
    destruct (visit_cases rids v pid proc Hpid) as [->|(Hf & Hc & ->)].
    + apply IH. intros kv Hkv. apply Hin. by right.
    + set (v1 := mark_finished rids v pid proc).
      assert (Hk : keys (finish v1) = keys (finish v)).
      { simpl. by apply keys_set_present. }
      assert (Hm : S (unfinished (finish v1)) = unfinished (finish v)).
      { simpl. by apply unfinished_set_true. }
      destruct (IH v1) as [Hk' Hcase].
      { intros kv Hkv. rewrite Hk. apply Hin. by right. }
      split; [congruence|]. right.
      destruct Hcase as [->|[Hp Hlt]]; [split; [done | lia] | split; [done | lia]].
Qed.

(** A pass started with [progress = False] either finishes at least one
    more process, or leaves everything as it was and ends the loop. *)
Lemma pass_progress rids (procs : dict Process) v :
  keys (finish v) = keys procs ->
  let v' := sweep rids procs (clear_progress v) in
  keys (finish v') = keys procs /\
  ((progress v' = false /\ v' = clear_progress v) \/
   (progress v' = true /\ (unfinished (finish v') < unfinished (finish v))%nat)).
Proof.
  intros Hk. destruct (sweep_measure rids procs (clear_progress v)) as [Hk' Hc].
  { intros kv Hkv. simpl. rewrite Hk. unfold keys.
    by apply list_elem_of_fmap_2. }
  simpl in *. split; [congruence|].
  destruct Hc as [->|?]; [left; done | by right].
Qed.

Lemma banker_loop_terminates rids (procs : dict Process) fuel v :
  keys (finish v) = keys procs ->
  (unfinished (finish v) < fuel)%nat ->
  exists vf n, banker_loop fuel rids procs v = Some (vf, n) /\
    (1 <= n <= S (unfinished (finish v)))%nat /\ progress vf = false /\
    keys (finish vf) = keys procs.
Proof.
  revert v. induction fuel as [|fuel IH]; intros v Hk Hlt; [lia|].
  simpl. destruct (pass_progress rids procs v Hk) as [Hk' Hc].
  destruct Hc as [[Hp Heq]|[Hp Hm]].
  - rewrite Hp. eexists _, _. split; [reflexivity|].
    split; [lia|]. split; [exact Hp | exact Hk'].
  - rewrite Hp.
    destruct (IH _ Hk') as (vf & n & -> & Hn & Hpf & Hkf); [lia|].
    eexists _, _. split; [reflexivity|]. split; [lia | done].
Qed.

Lemma banker_loop_more_fuel rids procs fuel fuel' v r :
  banker_loop fuel rids procs v = Some r ->
  (fuel <= fuel')%nat ->
  banker_loop fuel' rids procs v = Some r.
Proof.
  revert fuel' v r. induction fuel as [|fuel IH]; intros fuel' v r; [done|].
  destruct fuel' as [|fuel']; [lia|]. simpl. intros H Hle.
  destruct (progress (sweep rids procs (clear_progress v))); [|done].
  destruct (banker_loop fuel rids procs _) as [[vf n]|] eqn:E; [|done].
  rewrite (IH fuel' _ _ E); [done | lia].
Qed.

(** C10: the safety loop of [find_safe_sequence] ends for every state after
    at most (number of processes) + 1 passes: each pass finishes at least
    one more process or leaves [progress] false; more fuel never changes the
    result. *)
Theorem find_safe_sequence_terminates s :
  (exists v n, banker_run s = Some (v, n) /\
     (1 <= n <= length (processes s) + 1)%nat /\ progress v = false /\
     forall fuel, (banker_fuel s <= fuel)%nat ->
       banker_loop fuel (keys (resources s)) (processes s) (banker_init s)
       = Some (v, n)) /\
  (forall v, keys (finish v) = keys (processes s) ->
     let v' := sweep (keys (resources s)) (processes s) (clear_progress v) in
     (progress v' = false /\ v' = clear_progress v) \/
     (progress v' = true /\
      (unfinished (finish v') < unfinished (finish v))%nat)).
Proof.
  split.
  - unfold banker_run, banker_fuel.
    destruct (banker_loop_terminates (keys (resources s)) (processes s)
                (S (length (processes s))) (banker_init s))
      as (vf & n & Hrun & Hn & Hp & _).
    + exact (keys_init (fun _ => false) (processes s)).
    + simpl. rewrite unfinished_init. lia.
    + exists vf, n. split; [done|]. split.
      * simpl in Hn. rewrite unfinished_init in Hn. lia.
      * split; [done|]. intros fuel Hle.
        by apply (banker_loop_more_fuel _ _ _ _ _ _ Hrun).
  - intros v Hk. by apply pass_progress.
Qed.

(** ** banker.py: which process is appended next *)






(** ** state.py: what every reachable state satisfies *)

Lemma dict_del_absent {V} (d : dict V) k : k ∉ keys d -> dict_del d k = d.
Proof.
  unfold keys. induction d as [|[k0 v0] d IH]; simpl; [done|].
  rewrite not_elem_of_cons. intros [Hne Hd].
  destruct (String.eqb_spec k0 k); [congruence|]. f_equal. by apply IH.
Qed.

Lemma sum_alloc_set_present ps pid proc proc' r :
  dict_get ps pid = Some proc ->
  sum_alloc (dict_set ps pid proc') r
  = sum_alloc ps r - dict_get_or (allocated proc) r 0
    + dict_get_or (allocated proc') r 0.
Proof.
  induction ps as [|[k q] ps IH]; simpl; [done|].
  destruct (String.eqb_spec k pid) as [->|Hne].
  - intros [= ->]. simpl. lia.
  - intros H. simpl. rewrite (IH H). lia.
Qed.

Lemma sum_alloc_set_absent ps pid proc' r :
  dict_get ps pid = None ->
  sum_alloc (dict_set ps pid proc') r
  = sum_alloc ps r + dict_get_or (allocated proc') r 0.
Proof.
  induction ps as [|[k q] ps IH]; simpl; [intros _; lia|].
  destruct (String.eqb_spec k pid) as [->|Hne]; [done|].
  intros H. simpl. rewrite (IH H). lia.
Qed.

Lemma sum_alloc_del ps pid proc r :
  NoDup (keys ps) ->
  dict_get ps pid = Some proc ->
  sum_alloc (dict_del ps pid) r
  = sum_alloc ps r - dict_get_or (allocated proc) r 0.
Proof.
  unfold keys. induction ps as [|[k q] ps IH]; simpl; [done|].
  rewrite NoDup_cons. intros [Hnotin Hnd].
  destruct (String.eqb_spec k pid) as [->|Hne].
  - intros [= ->]. rewrite dict_del_absent by done. lia.
  - intros H. simpl. rewrite (IH Hnd H). lia.
Qed.

Lemma sum_alloc_none ps r :
  (forall pid proc, (pid, proc) ∈ ps -> dict_get (allocated proc) r = None) ->
  sum_alloc ps r = 0.
Proof.
  induction ps as [|[k q] ps IH]; simpl; [done|]. intros H.
  rewrite IH by (intros pid proc Hin; apply (H pid); by right).
  unfold dict_get_or. rewrite (H k q) by (by left). done.
Qed.

Lemma proc_inv_mono rs rs' proc :
  (forall r, r ∈ keys rs -> r ∈ keys rs') ->
  proc_inv rs proc -> proc_inv rs' proc.
Proof.
  intros Hsub [H1 H2 H3 H4]. constructor; [done|done| |].
  - intros r u Hr. destruct (H3 r u Hr) as (? & ? & ?). auto.
  - intros r u Hr. destruct (H4 r u Hr) as (? & ?). auto.
Qed.

Lemma state_inv_log s ty kw : state_inv s -> state_inv (log_event s ty kw).
Proof. intros [H1 H2 H3 H4]. by constructor. Qed.

Lemma state_inv_empty : state_inv empty_state.
Proof.
  constructor; simpl; try apply NoDup_nil_2; intros; discriminate.
Qed.

Lemma add_resource_inv s r t :
  state_inv s -> state_inv (state_of (add_resource s r t)).
Proof.
  intros Hinv. unfold add_resource.
  destruct (dict_mem (resources s) r) eqn:Hmem; [done|].
  destruct (Z.ltb_spec t 0) as [?|Ht]; [done|].
  simpl. apply state_inv_log. destruct Hinv as [H1 H2 H3 H4].
  apply dict_mem_false in Hmem.
  constructor; simpl.
  - by apply NoDup_keys_set.
  - done.
  - intros pid proc Hp. eapply proc_inv_mono; [|by eapply H3].
    intros x Hx. apply elem_keys_set. by right.
  - intros rid res. destruct (String.eqb_spec r rid) as [<-|Hne].
    + rewrite dict_get_set_eq. intros [= <-]. simpl. split; [done|].
      unfold sum_allocated. simpl. rewrite sum_alloc_none; [lia|].
      intros pid proc Hin.
      destruct (dict_get (allocated proc) r) as [u|] eqn:E; [|done].
      exfalso. apply Hmem.
      apply elem_dict_get in Hin; [|done].
      by destruct (pi_alloc _ _ (H3 _ _ Hin) _ _ E) as (_ & _ & ?).
    + rewrite dict_get_set_ne by done. apply H4.
Qed.

Lemma add_process_inv s p c prio :
  state_inv s -> state_inv (state_of (add_process s p c prio)).
Proof.
  intros Hinv. unfold add_process.
  destruct (dict_mem (processes s) p) eqn:Hmem; [done|].
  destruct (check_max_claims s c); [done|].
  simpl. apply state_inv_log. destruct Hinv as [H1 H2 H3 H4].
  assert (Hnone : dict_get (processes s) p = None).
  { apply dict_get_None. by apply dict_mem_false. }
  constructor; simpl.
  - done.
  - by apply NoDup_keys_set.
  - intros pid proc. destruct (String.eqb_spec p pid) as [<-|Hne].
    + rewrite dict_get_set_eq. intros [= <-].
      constructor; simpl; try apply NoDup_nil_2; intros; discriminate.
    + rewrite dict_get_set_ne by done. apply H3.
  - intros rid res Hr. unfold sum_allocated. simpl.
    rewrite sum_alloc_set_absent by done. simpl.
    destruct (H4 rid res Hr). unfold sum_allocated in *.
    change (dict_get_or [] rid 0) with 0. lia.
Qed.

Lemma dict_get_or_nonneg_alloc rs proc r :
  proc_inv rs proc -> 0 <= dict_get_or (allocated proc) r 0.
Proof.
  intros H. unfold dict_get_or.
  destruct (dict_get (allocated proc) r) as [u|] eqn:E; [|done].
  destruct (pi_alloc _ _ H _ _ E). lia.
Qed.

Lemma dict_get_or_pos_inv {V} (d : dict V) k (dflt v : V) :
  dict_get_or d k dflt = v -> v <> dflt -> dict_get d k = Some v.
Proof.
  unfold dict_get_or. destruct (dict_get d k); [by intros ->|congruence].
Qed.

(** Replacing one process and one resource record by records that move
    units between exactly these two keeps the invariant. *)
Lemma state_inv_update s pid proc proc' rid res res' lg :
  state_inv s ->
  dict_get (processes s) pid = Some proc ->
  dict_get (resources s) rid = Some res ->
  proc_inv (resources s) proc' ->
  total_units res' = total_units res ->
  0 <= available_units res' ->
  available_units res' + dict_get_or (allocated proc') rid 0
    = available_units res + dict_get_or (allocated proc) rid 0 ->
  (forall r', r' <> rid ->
     dict_get_or (allocated proc') r' 0 = dict_get_or (allocated proc) r' 0) ->
  state_inv (mkState (dict_set (resources s) rid res')
               (dict_set (processes s) pid proc') lg).
Proof.
  intros [H1 H2 H3 H4] Hp Hr Hpi Htot Hav Hmove Hother.
  assert (Hsub : forall x, x ∈ keys (resources s) ->
                   x ∈ keys (dict_set (resources s) rid res')).
  { intros x Hx. apply elem_keys_set. by right. }
  constructor; simpl.
  - by apply NoDup_keys_set.
  - by apply NoDup_keys_set.
  - intros pid' q. destruct (String.eqb_spec pid pid') as [<-|Hne].
    + rewrite dict_get_set_eq. intros [= <-]. by eapply proc_inv_mono.
    + rewrite dict_get_set_ne by done. intros Hq.
      eapply proc_inv_mono; [exact Hsub | by eapply H3].
  - intros rid' r0. unfold sum_allocated. simpl.
    rewrite (sum_alloc_set_present _ _ _ _ _ Hp).
    destruct (String.eqb_spec rid rid') as [<-|Hne].
    + rewrite dict_get_set_eq. intros [= <-]. split; [done|].
      destruct (H4 rid res Hr) as [_ Hc]. unfold sum_allocated in Hc. lia.
    + rewrite dict_get_set_ne by done. intros Hr0.
      destruct (H4 rid' r0 Hr0) as [? Hc]. unfold sum_allocated in Hc.
      rewrite (Hother rid') by done. split; [done | lia].
Qed.

(** Replacing one process by a record with the same allocation. *)
Lemma state_inv_update_proc s pid proc proc' lg :
  state_inv s ->
  dict_get (processes s) pid = Some proc ->
  proc_inv (resources s) proc' ->
  allocated proc' = allocated proc ->
  state_inv (mkState (resources s) (dict_set (processes s) pid proc') lg).
Proof.
  intros [H1 H2 H3 H4] Hp Hpi Hal.
  constructor; simpl.
  - done.
  - by apply NoDup_keys_set.
  - intros pid' q. destruct (String.eqb_spec pid pid') as [<-|Hne].
    + rewrite dict_get_set_eq. by intros [= <-].
    + rewrite dict_get_set_ne by done. apply H3.
  - intros rid r0 Hr0. unfold sum_allocated. simpl.
    rewrite (sum_alloc_set_present _ _ _ _ _ Hp), Hal.
    destruct (H4 rid r0 Hr0) as [? Hc]. unfold sum_allocated in Hc.
    split; [done | lia].
Qed.

Lemma request_inv s p r u :
  state_inv s -> state_inv (state_of (request s p r u)).
Proof.
  intros Hinv. unfold request.
  destruct (validate_process_and_resource s p r) eqn:Hv; [done|].
  destruct (validate_None_inv _ _ _ Hv) as [[proc Hp] [res Hr]].
  rewrite Hp. destruct (Z.leb_spec u 0) as [?|Hu]; [done|].
  destruct (Z.ltb_spec (need proc r) u) as [?|Hn]; simpl.
  - by apply state_inv_log.
  - apply state_inv_log. eapply state_inv_update_proc; [done|exact Hp| |done].
    pose proof (si_procs _ Hinv _ _ Hp) as [P1 P2 P3 P4].
    constructor; simpl; [done|by apply NoDup_keys_set|done|].
    intros r' u'. destruct (String.eqb_spec r r') as [<-|Hne].
    + rewrite dict_get_set_eq. intros [= <-]. split.
      * unfold dict_get_or.
        destruct (dict_get (requested proc) r) as [u0|] eqn:E; [|lia].
        destruct (P4 _ _ E). lia.
      * by eapply dict_get_Some_key.
    + rewrite dict_get_set_ne by done. apply P4.
Qed.

Lemma clear_request_fields p r u :
  max_claims (clear_request p r u) = max_claims p /\
  allocated (clear_request p r u) = allocated p.
Proof.
  unfold clear_request. destruct (dict_mem (requested p) r); [|done].
  by destruct (_ =? 0).
Qed.

Lemma clear_request_inv (rs : dict Resource) p r u :
  r ∈ keys rs ->
  NoDup (keys (requested p)) ->
  (forall r' u', dict_get (requested p) r' = Some u' -> 0 < u' /\ r' ∈ keys rs) ->
  NoDup (keys (requested (clear_request p r u))) /\
  (forall r' u', dict_get (requested (clear_request p r u)) r' = Some u' ->
     0 < u' /\ r' ∈ keys rs).
Proof.
  intros Hr Hnd Hreq. unfold clear_request.
  destruct (dict_mem (requested p) r); [|done].
  destruct (Z.eqb_spec (Z.max 0 (dict_get_or (requested p) r 0 - u)) 0)
    as [Hz|Hz]; simpl.
  - split; [by apply NoDup_keys_del, NoDup_keys_set|].
    intros r' u'. destruct (String.eqb_spec r r') as [<-|Hne].
    + by rewrite dict_get_del_eq.
    + rewrite dict_get_del_ne, dict_get_set_ne by done. apply Hreq.
  - split; [by apply NoDup_keys_set|].
    intros r' u'. destruct (String.eqb_spec r r') as [<-|Hne].
    + rewrite dict_get_set_eq. intros [= <-]. split; [lia | done].
    + rewrite dict_get_set_ne by done. apply Hreq.
Qed.

Lemma allocate_inv s p r u :
  state_inv s -> state_inv (state_of (allocate s p r u)).
Proof.
  intros Hinv. unfold allocate.
  destruct (validate_process_and_resource s p r) eqn:Hv; [done|].
  destruct (validate_None_inv _ _ _ Hv) as [[proc Hp] [res Hr]].
  rewrite Hp, Hr. destruct (Z.ltb_spec u 0) as [?|Hu]; [done|].
  destruct (Z.eqb_spec u 0) as [?|Hu0]; [by apply state_inv_log|].
  destruct (Z.ltb_spec (available_units res) u) as [?|Hav];
    [by apply state_inv_log|].
  destruct (Z.ltb_spec (dict_get_or (max_claims proc) r 0)
              (dict_get_or (allocated proc) r 0 + u)) as [?|Hmax];
    [by apply state_inv_log|].
  simpl. apply state_inv_log.
  pose proof (si_procs _ Hinv _ _ Hp) as Hpi.
  pose proof (dict_get_or_nonneg_alloc _ _ r Hpi) as Hcur.
  pose proof (dict_get_Some_key _ _ _ Hr) as Hrkey.
  destruct Hpi as [P1 P2 P3 P4].
  set (proc1 := set_allocated proc _).
  destruct (clear_request_fields proc1 r u) as [Hmc Hal].
  destruct (clear_request_inv (resources s) proc1 r u Hrkey P2 P4) as [Q2 Q4].
  eapply state_inv_update; [done|exact Hp|exact Hr| |done|simpl; lia| |].
  - constructor; [| done | | done].
    + rewrite Hal. simpl. by apply NoDup_keys_set.
    + rewrite Hal, Hmc. simpl. intros r' u'.
      destruct (String.eqb_spec r r') as [<-|Hne].
      * rewrite dict_get_set_eq. intros [= <-]. repeat split; [lia|lia|done].
      * rewrite dict_get_set_ne by done. apply P3.
  - rewrite Hal. simpl. rewrite dict_get_or_set_eq. lia.
  - intros r' Hne. rewrite Hal. simpl. by rewrite dict_get_or_set_ne.
Qed.

Lemma release_inv s p r u :
  state_inv s -> state_inv (state_of (release s p r u)).
Proof.
  intros Hinv. unfold release.
  destruct (validate_process_and_resource s p r) eqn:Hv; [done|].
  destruct (validate_None_inv _ _ _ Hv) as [[proc Hp] [res Hr]].
  rewrite Hp, Hr. destruct (Z.leb_spec u 0) as [?|Hu]; [done|].
  destruct (Z.ltb_spec (dict_get_or (allocated proc) r 0) u) as [?|Hcur];
    [by apply state_inv_log|].
  simpl. apply state_inv_log.
  pose proof (si_procs _ Hinv _ _ Hp) as [P1 P2 P3 P4].
  pose proof (dict_get_Some_key _ _ _ Hr) as Hrkey.
  destruct (si_res _ Hinv _ _ Hr) as [Hav0 _].
  assert (Hget : dict_get (allocated proc) r
                 = Some (dict_get_or (allocated proc) r 0)).
  { apply (dict_get_or_pos_inv _ _ 0); [done | lia]. }
  destruct (P3 _ _ Hget) as (_ & Hle & _).
  eapply state_inv_update; [done|exact Hp|exact Hr| |done|simpl; lia| |].
  - constructor; simpl; [| done | | done].
    + destruct (_ =? 0); [apply NoDup_keys_del|]; by apply NoDup_keys_set.
    + intros r' u'.
      destruct (Z.eqb_spec (dict_get_or (allocated proc) r 0 - u) 0) as [Hz|Hz];
        (destruct (String.eqb_spec r r') as [<-|Hne];
         [| rewrite ?dict_get_del_ne, dict_get_set_ne by done; apply P3]).
      * by rewrite dict_get_del_eq.
      * rewrite dict_get_set_eq. intros [= <-]. repeat split; [lia|lia|done].
  - simpl.
    destruct (Z.eqb_spec (dict_get_or (allocated proc) r 0 - u) 0) as [Hz|Hz].
    + rewrite dict_get_or_del_eq. lia.
    + rewrite dict_get_or_set_eq. lia.
  - intros r' Hne. simpl. destruct (_ =? 0).
    + by rewrite dict_get_or_del_ne, dict_get_or_set_ne.
    + by rewrite dict_get_or_set_ne.
Qed.

(** In a state that satisfies the invariant the loop of [remove_process]
    never raises and leaves the process without any allocation. *)
Lemma release_all_returns items : forall s p proc,
  state_inv s ->
  dict_get (processes s) p = Some proc ->
  allocated proc = items ->
  exists s' proc',
    release_all s p items = Return tt s' /\ state_inv s' /\
    dict_get (processes s') p = Some proc' /\ allocated proc' = [].
Proof.
  induction items as [|[rid u] rest IH]; intros s p proc Hinv Hp Hal.
  - exists s, proc. by simpl.
  - pose proof (si_procs _ Hinv _ _ Hp) as [P1 _ P3 _].
    assert (Hget : dict_get (allocated proc) rid = Some u).
    { rewrite Hal. simpl. by rewrite String.eqb_refl. }
    destruct (P3 _ _ Hget) as (Hu & _ & Hkey).
    destruct (elem_keys_dict_get _ _ Hkey) as [res Hr].
    assert (Hnotin : rid ∉ keys rest).
    { rewrite Hal in P1. unfold keys in *. simpl in P1.
      apply NoDup_cons in P1. tauto. }
    pose proof (release_inv s p rid u Hinv) as Hinv1.
    simpl. unfold release in *.
    rewrite (validate_ok _ _ _ _ _ Hp Hr), Hp, Hr in *.
    destruct (Z.leb_spec u 0) as [?|_]; [lia|].
    unfold dict_get_or in *. rewrite Hget in *.
    destruct (Z.ltb_spec u u) as [?|_]; [lia|].
    rewrite Z.sub_diag in *. simpl in Hinv1. simpl.
    eapply IH; [exact Hinv1 | simpl; apply dict_get_set_eq |].
    simpl. rewrite Hal. simpl. rewrite String.eqb_refl. simpl.
    rewrite String.eqb_refl. by apply dict_del_absent.
Qed.

Lemma remove_process_inv s p :
  state_inv s -> state_inv (state_of (remove_process s p)).
Proof.
  intros Hinv. unfold remove_process.
  destruct (dict_get (processes s) p) as [proc|] eqn:Hp; [|done].
  destruct (release_all_returns _ s p proc Hinv Hp eq_refl)
    as (s' & proc' & -> & [H1 H2 H3 H4] & Hp' & Hempty).
  simpl. apply state_inv_log. constructor; simpl.
  - done.
  - by apply NoDup_keys_del.
  - intros pid q. destruct (String.eqb_spec p pid) as [<-|Hne].
    + by rewrite dict_get_del_eq.
    + rewrite dict_get_del_ne by done. apply H3.
  - intros rid res Hr. unfold sum_allocated. simpl.
    rewrite (sum_alloc_del _ _ _ _ H2 Hp'), Hempty.
    destruct (H4 rid res Hr) as [? Hc]. unfold sum_allocated in Hc.
    change (dict_get_or [] rid 0) with 0. split; [done | lia].
Qed.

Lemma apply_op_inv s o : state_inv s -> state_inv (apply_op s o).
Proof.
  destruct o; simpl.
  - apply add_resource_inv.
  - apply add_process_inv.
  - apply request_inv.
  - apply allocate_inv.
  - apply release_inv.
  - apply remove_process_inv.
Qed.

Lemma reachable_state_inv s : reachable s -> state_inv s.
Proof.
  induction 1 as [|s o _ IH]; [apply state_inv_empty | by apply apply_op_inv].
Qed.

Lemma reachable_run_ops ops : forall s, reachable s -> reachable (run_ops s ops).
Proof.
  unfold run_ops. induction ops as [|o ops IH]; intros s Hs; simpl; [done|].
  apply IH. by constructor.
Qed.

(** C3: conservation.  In every reachable state each resource satisfies
    available + units held over all processes = total, and every mutating
    operation, whether it returns true, returns false or raises, leaves a
    state in which the equality holds. *)
Theorem conservation s :
  reachable s ->
  (forall rid res, dict_get (resources s) rid = Some res ->
     available_units res + sum_allocated s rid = total_units res) /\
  (forall o rid res, dict_get (resources (apply_op s o)) rid = Some res ->
     available_units res + sum_allocated (apply_op s o) rid = total_units res) /\
  (forall rid, available_of s rid + sum_allocated s rid = total_of s rid).
Proof.
  intros Hs. pose proof (reachable_state_inv _ Hs) as Hinv. split; [|split].
  - intros rid res Hr. by destruct (si_res _ Hinv _ _ Hr).
  - intros o rid res Hr.
    by destruct (si_res _ (apply_op_inv _ o Hinv) _ _ Hr).
  - intros rid. unfold available_of, total_of.
    destruct (dict_get (resources s) rid) as [res|] eqn:Hr.
    + by destruct (si_res _ Hinv _ _ Hr).
    + unfold sum_allocated. rewrite sum_alloc_none; [done|].
      intros pid proc Hin.
      destruct (dict_get (allocated proc) rid) as [u|] eqn:E; [|done].
      apply elem_dict_get in Hin; [|by destruct Hinv].
      destruct (pi_alloc _ _ (si_procs _ Hinv _ _ Hin) _ _ E) as (_ & _ & Hk).
      apply elem_keys_dict_get in Hk as [? ?]. congruence.
Qed.

Lemma conservation_witness :
  available_of exceeds_need_state "R1" + sum_allocated exceeds_need_state "R1"
  = total_of exceeds_need_state "R1".
Proof.
  refine (proj2 (proj2 (conservation exceeds_need_state _)) "R1").
  apply reachable_run_ops, reachable_empty.
Defined.

(** ** state.py: what bounds a request *)

(** C1 (amended): in every reachable state a process holds, of each resource
    it holds, a positive number of units within its maximum claim, and no
    pending amount is negative; every request that succeeds satisfies
    units + allocated <= max_claims when it is made and adds its units to the
    pending amount.  The check does not count the units already pending. *)
Theorem request_bounded_per_call s :
  reachable s ->
  (forall p r, 0 < allocated_of s p r ->
     allocated_of s p r <= max_claims_of s p r) /\
  (forall p r, 0 <= requested_of s p r /\ 0 <= allocated_of s p r) /\
  (forall p r u s', request s p r u = Return true s' ->
     u + allocated_of s p r <= max_claims_of s p r /\
     requested_of s' p r = requested_of s p r + u /\
     allocated_of s' p r = allocated_of s p r /\
     max_claims_of s' p r = max_claims_of s p r).
Proof.
  intros Hs. pose proof (reachable_state_inv _ Hs) as Hinv.
  split; [|split].
  - intros p r. unfold allocated_of, max_claims_of.
    destruct (dict_get (processes s) p) as [proc|] eqn:Hp; [|lia].
    intros Hpos.
    assert (Hget : dict_get (allocated proc) r
                   = Some (dict_get_or (allocated proc) r 0)).
    { apply (dict_get_or_pos_inv _ _ 0); [done | lia]. }
    destruct (pi_alloc _ _ (si_procs _ Hinv _ _ Hp) _ _ Hget). tauto.
  - intros p r. unfold requested_of, allocated_of.
    destruct (dict_get (processes s) p) as [proc|] eqn:Hp; [|lia].
    pose proof (si_procs _ Hinv _ _ Hp) as Hpi. split.
    + unfold dict_get_or.
      destruct (dict_get (requested proc) r) as [u|] eqn:E; [|done].
      destruct (pi_req _ _ Hpi _ _ E). lia.
    + by eapply dict_get_or_nonneg_alloc.
  - intros p r u s'. unfold request.
    destruct (validate_process_and_resource s p r) eqn:Hv; [done|].
    destruct (validate_None_inv _ _ _ Hv) as [[proc Hp] _].
    rewrite Hp. destruct (Z.leb_spec u 0) as [?|Hu]; [done|].
    destruct (Z.ltb_spec (need proc r) u) as [?|Hn]; [done|].
    intros [= <-]. unfold allocated_of, max_claims_of, requested_of. simpl.
    rewrite dict_get_set_eq, Hp. simpl. rewrite dict_get_or_set_eq.
    unfold need in Hn. repeat split; lia.
Qed.

Lemma request_bounded_per_call_witness :
  allocated_of exceeds_need_state "P1" "R1"
    <= max_claims_of exceeds_need_state "P1" "R1" /\
  2 + allocated_of exceeds_need_state "P1" "R1"
    <= max_claims_of exceeds_need_state "P1" "R1".
Proof.
  assert (Hr : reachable exceeds_need_state).
  { apply reachable_run_ops, reachable_empty. }
  split.
  - apply (proj1 (request_bounded_per_call exceeds_need_state Hr)).
    reflexivity.
  - refine (proj1 (proj2 (proj2 (request_bounded_per_call exceeds_need_state Hr))
                     "P1" "R1" 2
                     (state_of (request exceeds_need_state "P1" "R1" 2)) _)).
    vm_compute. reflexivity.
Defined.

Lemma double_request_counterexample :
  ~ (reachable double_request_state ->
     requested_of double_request_state "P1" "R1"
       + allocated_of double_request_state "P1" "R1"
     <= max_claims_of double_request_state "P1" "R1").
Proof.
  intros H. assert (Hr : reachable double_request_state).
  { apply reachable_run_ops, reachable_empty. }
  specialize (H Hr). vm_compute in H. by apply H.
Qed.

(** ** rag.py: the edges of the wait-for graph *)

Lemma same_edge_true e f : same_edge e f = true <-> e = f.
Proof.
  destruct e as [a b], f as [c d]. unfold same_edge. simpl.
  rewrite andb_true_iff.
  destruct (String.eqb_spec a c), (String.eqb_spec b d); naive_solver.
Qed.

Lemma set_edge_has es e a f :
  existsb (fun x : (string * string) * string => same_edge x.1 f)
    (set_edge es e a)
  = (existsb (fun x : (string * string) * string => same_edge x.1 f) es
     || same_edge e f)%bool.
Proof.
  induction es as [|[e0 a0] es IH]; simpl.
  - by rewrite orb_false_r.
  - destruct (same_edge e0 e) eqn:E; simpl.
    + apply same_edge_true in E as ->.
      destruct (same_edge e f); simpl; [done|]. by rewrite orb_false_r.
    + rewrite IH. by rewrite orb_assoc.
Qed.

Lemma edges_add_node g n : edges (add_node g n) = edges g.
Proof. unfold add_node. by destruct (has_node g n). Qed.

Lemma has_edge_add_edge g u v a x y :
  has_edge (add_edge g u v a) x y = true <->
  has_edge g x y = true \/ (x = u /\ y = v).
Proof.
  unfold has_edge, add_edge. simpl.
  rewrite set_edge_has, !edges_add_node, orb_true_iff, same_edge_true.
  naive_solver.
Qed.

Lemma has_edge_add_holders (l : dict Process) pid rid x y : forall g,
  has_edge (add_holders l pid rid g) x y = true <->
  has_edge g x y = true \/
  (x = pid /\ exists other, (y, other) ∈ l /\ y <> pid /\
     0 < dict_get_or (allocated other) rid 0).
Proof.
  unfold add_holders. induction l as [|[q qp] l IH]; intros g; simpl.
  - split; [by left|]. intros [?|(_ & o & []%elem_of_nil & _)]. done.
  - rewrite IH. clear IH. simpl.
    destruct (String.eqb_spec q pid) as [->|Hne].
    + split; intros [?|(-> & o & Hin & Hy & Hpos)]; try by left.
      * right. split; [done|]. exists o. split; [by right | done].
      * right. split; [done|]. exists o.
        apply elem_of_cons in Hin as [[= -> ->]|Hin]; done.
    + destruct (Z.ltb_spec 0 (dict_get_or (allocated qp) rid 0)) as [Hpos|Hz].
      * rewrite has_edge_add_edge. split.
        -- intros [[?|[-> ->]]|(-> & o & Hin & ? & ?)]; [by left| |].
           ++ right. split; [done|]. exists qp. split; [by left | done].
           ++ right. split; [done|]. exists o. split; [by right | done].
        -- intros [?|(-> & o & Hin & ? & ?)]; [by left; left|].
           apply elem_of_cons in Hin as [[= -> ->]|Hin].
           ++ left. by right.
           ++ right. split; [done|]. by exists o.
      * split; intros [?|(-> & o & Hin & ? & ?)]; try by left.
        -- right. split; [done|]. exists o. split; [by right | done].
        -- apply elem_of_cons in Hin as [[= -> ->]|Hin]; [lia|].
           right. split; [done|]. by exists o.
Qed.

Lemma has_edge_add_waits (procs : dict Process) pid (reqs : dict Z) x y :
  forall g,
  has_edge
    (fold_left
       (fun g rq => if rq.2 =? 0 then g else add_holders procs pid rq.1 g)
       reqs g) x y = true <->
  has_edge g x y = true \/
  (x = pid /\ exists r u other, (r, u) ∈ reqs /\ u <> 0 /\
     (y, other) ∈ procs /\ y <> pid /\
     0 < dict_get_or (allocated other) r 0).
Proof.
  induction reqs as [|[r0 u0] reqs IH]; intros g; simpl.
  - split; [by left|]. intros [?|(_ & r & u & o & []%elem_of_nil & _)]. done.
  - rewrite IH. clear IH.
    destruct (Z.eqb_spec u0 0) as [->|Hu].
    + split; intros [?|(-> & r & u & o & Hin & Hne & Hrest)]; try by left.
      * right. split; [done|]. exists r, u, o. split; [by right | done].
      * apply elem_of_cons in Hin as [[= -> ->]|Hin]; [done|].
        right. split; [done|]. by exists r, u, o.
    + rewrite has_edge_add_holders. split.
      * intros [[?|(-> & o & ? & ? & ?)]|(-> & r & u & o & Hin & ? & ?)].
        -- by left.
        -- right. split; [done|]. exists r0, u0, o. split; [by left | done].
        -- right. split; [done|]. exists r, u, o. split; [by right | done].
      * intros [?|(-> & r & u & o & Hin & ? & ? & ? & ?)]; [by left; left|].
        apply elem_of_cons in Hin as [[= -> ->]|Hin].
        -- left. right. split; [done|]. by exists o.
        -- right. split; [done|]. by exists r, u, o.
Qed.

Lemma has_edge_build_loop (procs l : dict Process) x y : forall g,
  has_edge (fold_left (fun g item => add_waits procs item g) l g) x y = true <->
  has_edge g x y = true \/
  (exists proc r u other, (x, proc) ∈ l /\ (r, u) ∈ requested proc /\ u <> 0 /\
     (y, other) ∈ procs /\ y <> x /\ 0 < dict_get_or (allocated other) r 0).
Proof.
  induction l as [|[p pp] l IH]; intros g; simpl.
  - split; [by left|]. intros [?|(? & ? & ? & ? & []%elem_of_nil & _)]. done.
  - rewrite IH. clear IH. unfold add_waits. simpl.
    rewrite has_edge_add_waits. split.
    + intros [[?|(-> & r & u & o & ? & ? & ? & ? & ?)]
             |(proc & r & u & o & Hin & ?)].
      * by left.
      * right. exists pp, r, u, o. split; [by left | done].
      * right. exists proc, r, u, o. split; [by right | done].
    + intros [?|(proc & r & u & o & Hin & ? & ? & ? & ? & ?)]; [by left; left|].
      apply elem_of_cons in Hin as [[= -> ->]|Hin].
      * left. right. split; [done|]. by exists r, u, o.
      * right. by exists proc, r, u, o.
Qed.

Lemma edges_fold_add_node l : forall g,
  edges (fold_left add_node l g) = edges g.
Proof.
  induction l as [|n l IH]; intros g; simpl; [done|].
  by rewrite IH, edges_add_node.
Qed.

Lemma has_edge_wfg s p q :
  has_edge (build_wait_for_graph s) p q = true <-> waits s p q.
Proof.
  unfold build_wait_for_graph. rewrite has_edge_build_loop.
  unfold has_edge at 1. rewrite edges_fold_add_node. simpl. unfold waits.
  split.
  - intros [?|(proc & r & u & o & ? & ? & ? & ? & ? & ?)]; [done|].
    exists proc, o, r, u. naive_solver.
  - intros (proc & o & r & u & ? & ? & ? & ? & ? & ?). right.
    exists proc, r, u, o. naive_solver.
Qed.

Lemma wfg_no_self_edge s p : has_edge (build_wait_for_graph s) p p = false.
Proof.
  destruct (has_edge (build_wait_for_graph s) p p) eqn:E; [|done].
  apply has_edge_wfg in E as (? & ? & ? & ? & ? & ? & Hne & _). done.
Qed.

(** C8: for every state, no process has an edge to itself, and the wait-for
    graph has an edge p -> q exactly when p and q are distinct processes
    and some entry of p's [requested] dictionary for a resource r is not 0
    while q holds at least one unit of r.  With the unique keys of Python
    dictionaries this reads requested(p, r) <> 0, and in a state kept by the
    operations, where pending amounts are positive, requested(p, r) > 0. *)
Theorem wfg_edges_characterised :
  (forall s p, has_edge (build_wait_for_graph s) p p = false) /\
  (forall s p q,
     has_edge (build_wait_for_graph s) p q = true <->
     p <> q /\
     exists proc other r u,
       (p, proc) ∈ processes s /\ (q, other) ∈ processes s /\
       (r, u) ∈ requested proc /\ u <> 0 /\
       0 < dict_get_or (allocated other) r 0) /\
  (forall s, unique_keys s -> forall p q,
     has_edge (build_wait_for_graph s) p q = true <->
     p ∈ keys (processes s) /\ q ∈ keys (processes s) /\ p <> q /\
     exists r, requested_of s p r <> 0 /\ 0 < allocated_of s q r) /\
  (forall s, state_inv s -> forall p q,
     has_edge (build_wait_for_graph s) p q = true <->
     p ∈ keys (processes s) /\ q ∈ keys (processes s) /\ p <> q /\
     exists r, 0 < requested_of s p r /\ 0 < allocated_of s q r).
Proof.
  split; [apply wfg_no_self_edge|]. split; [|split].
  - intros s p q. rewrite has_edge_wfg. unfold waits. split.
    + intros (proc & o & r & u & Hp & Hq & Hne & Hr & Hu & Hal).
      split; [done|]. by exists proc, o, r, u.
    + intros (Hne & proc & o & r & u & Hp & Hq & Hr & Hu & Hal).
      by exists proc, o, r, u.
  - intros s [Hnd Hreq] p q. rewrite has_edge_wfg. unfold waits. split.
    + intros (proc & o & r & u & Hp & Hq & Hne & Hr & Hu & Hal).
      pose proof (Hreq p proc Hp) as Hndr.
      apply (elem_dict_get _ _ _ Hnd) in Hp, Hq.
      apply (elem_dict_get _ _ _ Hndr) in Hr.
      split; [by eapply dict_get_Some_key|].
      split; [by eapply dict_get_Some_key|]. split; [done|].
      exists r. unfold requested_of, allocated_of, dict_get_or.
      by rewrite Hp, Hq, Hr.
    + intros (Hp & Hq & Hne & r & Hr & Hal).
      unfold requested_of, allocated_of in *.
      apply elem_keys_dict_get in Hp as [proc Hp].
      apply elem_keys_dict_get in Hq as [o Hq].
      rewrite Hp in Hr. rewrite Hq in Hal.
      exists proc, o, r, (dict_get_or (requested proc) r 0).
      repeat split;
        [by apply dict_get_elem|by apply dict_get_elem|done| |done|done].
      apply dict_get_elem. by apply (dict_get_or_pos_inv _ _ 0).
  - intros s Hinv p q. rewrite has_edge_wfg. unfold waits. split.
    + intros (proc & o & r & u & Hp & Hq & Hne & Hr & Hu & Hal).
      pose proof (dict_get_Some_key (processes s) p proc) as Kp.
      apply elem_dict_get in Hp; [|by destruct Hinv].
      apply elem_dict_get in Hq; [|by destruct Hinv].
      pose proof (si_procs _ Hinv _ _ Hp) as Hpi.
      apply elem_dict_get in Hr; [|by destruct Hpi].
      destruct (pi_req _ _ Hpi _ _ Hr) as [Hpos _].
      split; [by eapply dict_get_Some_key|].
      split; [by eapply dict_get_Some_key|]. split; [done|].
      exists r. unfold requested_of, allocated_of, dict_get_or.
      by rewrite Hp, Hq, Hr.
    + intros (Hp & Hq & Hne & r & Hr & Hal).
      unfold requested_of, allocated_of in *.
      apply elem_keys_dict_get in Hp as [proc Hp].
      apply elem_keys_dict_get in Hq as [o Hq]. rewrite Hp in Hr. rewrite Hq in Hal.
      exists proc, o, r, (dict_get_or (requested proc) r 0).
      repeat split; [by apply dict_get_elem|by apply dict_get_elem|done| |lia|done].
      apply dict_get_elem. apply (dict_get_or_pos_inv _ _ 0); [done|lia].
Qed.

(** The state with the pending entry R1: -1 has the edge P1 -> P2 although
    no requested amount of P1 is positive. *)
Lemma negative_request_counterexample :
  ~ (has_edge (build_wait_for_graph negative_request_state) "P1" "P2" = true
     <->
     "P1" <> "P2" /\
     exists r, 0 < requested_of negative_request_state "P1" r /\
               0 < allocated_of negative_request_state "P2" r).
Proof.
  intros [H _]. destruct (H eq_refl) as (_ & r & Hr & _).
  change (requested_of negative_request_state "P1" r)
    with (match (if String.eqb "R1" r then Some (-1) else None) with
          | Some v => v
          | None => 0
          end) in Hr.
  destruct (String.eqb "R1" r); lia.
Qed.

(** ** rag.py: cycles *)

Lemma reach_sound k g : forall u v,
  reach k g u v = true -> tc (edge_rel g) u v.
Proof.
  induction k as [|k IH]; intros u v; simpl; [done|].
  rewrite orb_true_iff, existsb_exists.
  intros [H|(m & _ & [H1 H2]%andb_true_iff)].
  - by apply tc_once.
  - eapply tc_l; [exact H1 | by apply IH].
Qed.

Lemma has_cycle_sound g : has_cycle g = true -> exists a, on_cycle g a.
Proof.
  unfold has_cycle. rewrite existsb_exists. intros (a & _ & H).
  exists a. by eapply reach_sound.
Qed.

Lemma on_cycle_successor g a :
  on_cycle g a -> exists b, edge_rel g a b /\ on_cycle g b.
Proof.
  unfold on_cycle. intros H. inversion H as [? ? He|? b ? He Ht]; subst.
  - exists a. split; [done | by apply tc_once].
  - exists b. split; [done|]. eapply tc_r; [exact Ht | exact He].
Qed.

(** ** Safe states with single-unit resources have no wait-for cycle *)

Lemma sum_alloc_nonneg (ps : dict Process) rid :
  (forall k p, (k, p) ∈ ps -> 0 <= dict_get_or (allocated p) rid 0) ->
  0 <= sum_alloc ps rid.
Proof.
  induction ps as [|[k p] ps IH]; intros Hnn; simpl; [done|].
  pose proof (Hnn k p ltac:(by left)).
  assert (0 <= sum_alloc ps rid); [|lia].
  apply IH. intros k0 p0 H0. apply (Hnn k0). by right.
Qed.

Lemma sum_alloc_ge_one (ps : dict Process) rid q qp :
  (forall k p, (k, p) ∈ ps -> 0 <= dict_get_or (allocated p) rid 0) ->
  (q, qp) ∈ ps ->
  dict_get_or (allocated qp) rid 0 <= sum_alloc ps rid.
Proof.
  induction ps as [|[k p] ps IH]; intros Hnn Hin; simpl.
  - by apply elem_of_nil in Hin.
  - assert (Hnn' : forall k0 p0, (k0, p0) ∈ ps ->
                     0 <= dict_get_or (allocated p0) rid 0).
    { intros k0 p0 H0. apply (Hnn k0). by right. }
    pose proof (sum_alloc_nonneg ps rid Hnn').
    pose proof (Hnn k p ltac:(by left)).
    apply elem_of_cons in Hin as [[= <- <-]|Hin]; [lia|].
    pose proof (IH Hnn' Hin). lia.
Qed.

Lemma sum_alloc_ge_two (ps : dict Process) rid q qp x xp :
  (forall k p, (k, p) ∈ ps -> 0 <= dict_get_or (allocated p) rid 0) ->
  (q, qp) ∈ ps -> (x, xp) ∈ ps -> q <> x ->
  dict_get_or (allocated qp) rid 0 + dict_get_or (allocated xp) rid 0
  <= sum_alloc ps rid.
Proof.
  induction ps as [|[k p] ps IH]; intros Hnn Hq Hx Hne; simpl.
  - by apply elem_of_nil in Hq.
  - assert (Hnn' : forall k0 p0, (k0, p0) ∈ ps ->
                     0 <= dict_get_or (allocated p0) rid 0).
    { intros k0 p0 H0. apply (Hnn k0). by right. }
    pose proof (Hnn k p ltac:(by left)).
    apply elem_of_cons in Hq as [[= <- <-]|Hq];
      apply elem_of_cons in Hx as [[= <- <-]|Hx].
    + done.
    + pose proof (sum_alloc_ge_one ps rid x xp Hnn' Hx). lia.
    + pose proof (sum_alloc_ge_one ps rid q qp Hnn' Hq). lia.
    + pose proof (IH Hnn' Hq Hx Hne). lia.
Qed.

Lemma give_back_other rids proc rid : forall w,
  rid ∉ rids ->
  dict_get_or (give_back rids proc w) rid 0 = dict_get_or w rid 0.
Proof.
  unfold give_back. induction rids as [|r rids IH]; intros w Hnotin; [done|].
  apply not_elem_of_cons in Hnotin as [Hne Hnotin]. simpl.
  rewrite IH by done. by rewrite dict_get_or_set_ne.
Qed.

Lemma give_back_get rids proc rid : forall w,
  NoDup rids -> rid ∈ rids ->
  dict_get_or (give_back rids proc w) rid 0
  = dict_get_or w rid 0 + dict_get_or (allocated proc) rid 0.
Proof.
  induction rids as [|r rids IH]; intros w Hnd Hin.
  - by apply elem_of_nil in Hin.
  - apply NoDup_cons in Hnd as [Hnotin Hnd].
    change (give_back (r :: rids) proc w)
      with (give_back rids proc
              (dict_set w r (dict_get_or w r 0 + dict_get_or (allocated proc) r 0))).
    destruct (String.eqb_spec r rid) as [->|Hne].
    + rewrite give_back_other by done. by rewrite dict_get_or_set_eq.
    + apply elem_of_cons in Hin as [?|Hin]; [congruence|].
      rewrite IH by done. by rewrite dict_get_or_set_ne.
Qed.

Lemma dict_get_init {A B} (g : A -> B) (d : dict A) k :
  dict_get ((fun kv => (kv.1, g kv.2)) <$> d) k = g <$> dict_get d k.
Proof.
  induction d as [|[k0 a] d IH]; simpl; [done|].
  destruct (String.eqb_spec k0 k); [done | exact IH].
Qed.

Section SafeNoCycle.
Variable s : SystemState.
Hypothesis Hinv : state_inv s.
Hypothesis Hvalid : request_valid s = true.
Hypothesis Hsingle : single_unit s = true.

Lemma alloc_nonneg_all rid k p :
  (k, p) ∈ processes s -> 0 <= dict_get_or (allocated p) rid 0.
Proof.
  intros Hin. apply elem_dict_get in Hin; [|by destruct Hinv].
  eapply dict_get_or_nonneg_alloc. by eapply si_procs.
Qed.

Lemma holder_exclusive rid q qp :
  (q, qp) ∈ processes s ->
  0 < dict_get_or (allocated qp) rid 0 ->
  rid ∈ keys (resources s) /\
  dict_get_or ((fun kv => (kv.1, available_units kv.2)) <$> resources s) rid 0
    <= 0 /\
  (forall x xp, (x, xp) ∈ processes s -> x <> q ->
     dict_get_or (allocated xp) rid 0 = 0).
Proof.
  intros Hin Hpos. pose proof Hin as Hq.
  apply elem_dict_get in Hq; [|by destruct Hinv].
  assert (Hget : dict_get (allocated qp) rid
                 = Some (dict_get_or (allocated qp) rid 0)).
  { apply (dict_get_or_pos_inv _ _ 0); [done | lia]. }
  destruct (pi_alloc _ _ (si_procs _ Hinv _ _ Hq) _ _ Hget) as (_ & _ & Hkey).
  destruct (elem_keys_dict_get _ _ Hkey) as [res Hr].
  destruct (si_res _ Hinv _ _ Hr) as [Hav Hcons].
  assert (Htot : total_units res <= 1).
  { unfold single_unit in Hsingle. rewrite forallb_forall in Hsingle.
    apply dict_get_elem, list_elem_of_In in Hr.
    specialize (Hsingle _ Hr). simpl in Hsingle. lia. }
  unfold sum_allocated in Hcons.
  pose proof (sum_alloc_ge_one (processes s) rid q qp
                (alloc_nonneg_all rid) Hin) as Hone.
  split; [done|]. split.
  - unfold dict_get_or. rewrite dict_get_init, Hr. simpl. lia.
  - intros x xp Hx Hne.
    pose proof (sum_alloc_ge_two (processes s) rid q qp x xp
                  (alloc_nonneg_all rid) Hin Hx ltac:(congruence)).
    pose proof (alloc_nonneg_all rid x xp Hx). lia.
Qed.

Lemma cycle_node_blocked v x xp :
  blocked_inv s v ->
  (x, xp) ∈ processes s ->
  on_cycle (build_wait_for_graph s) x ->
  can_finish (keys (resources s)) xp (work v) = false.
Proof.
  intros (Hk & HJ & HK) Hx Hcyc.
  destruct (on_cycle_successor _ _ Hcyc) as (b & Hedge & Hb).
  apply has_edge_wfg in Hedge
    as (proc & o & r & u & Hp & Ho & Hne & Hr & Hu & Hal).
  assert (proc = xp) as ->.
  { apply elem_dict_get in Hp; [|by destruct Hinv].
    apply elem_dict_get in Hx; [|by destruct Hinv]. congruence. }
  destruct (holder_exclusive r b o Ho Hal) as (Hkey & _ & Hexcl).
  pose proof (HK r b o Ho (HJ b Hb) Hal) as Hwork.
  pose proof (Hexcl x xp Hx Hne) as Hzero.
  pose proof Hx as Hxget. apply elem_dict_get in Hxget; [|by destruct Hinv].
  pose proof (si_procs _ Hinv _ _ Hxget) as Hpi.
  pose proof Hr as Hrget. apply elem_dict_get in Hrget; [|by destruct Hpi].
  destruct (pi_req _ _ Hpi _ _ Hrget) as [Hupos _].
  assert (Hmax : u + dict_get_or (allocated xp) r 0
                 <= dict_get_or (max_claims xp) r 0).
  { unfold request_valid in Hvalid. rewrite forallb_forall in Hvalid.
    apply list_elem_of_In in Hx. specialize (Hvalid _ Hx). simpl in Hvalid.
    rewrite forallb_forall in Hvalid.
    apply list_elem_of_In in Hr. specialize (Hvalid _ Hr). simpl in Hvalid.
    lia. }
  destruct (can_finish (keys (resources s)) xp (work v)) eqn:E; [|done].
  unfold can_finish in E. rewrite forallb_forall in E.
  apply list_elem_of_In in Hkey. specialize (E _ Hkey).
  unfold need in E.
  destruct (Z.ltb_spec (dict_get_or (work v) r 0)
              (dict_get_or (max_claims xp) r 0
               - dict_get_or (allocated xp) r 0)); [done | lia].
Qed.

Lemma visit_blocked_inv v x xp :
  blocked_inv s v ->
  (x, xp) ∈ processes s ->
  blocked_inv s (visit (keys (resources s)) v (x, xp)).
Proof.
  intros Hb Hx. pose proof Hb as (Hk & HJ & HK).
  assert (Hxk : x ∈ keys (finish v)).
  { rewrite Hk. unfold keys. by apply (list_elem_of_fmap_2 fst _ (x, xp)). }
  destruct (visit_cases (keys (resources s)) v x xp Hxk)
    as [->|(Hf & Hc & ->)]; [done|].
  assert (Hnot : ~ on_cycle (build_wait_for_graph s) x).
  { intros Hcyc. rewrite (cycle_node_blocked v x xp Hb Hx Hcyc) in Hc. done. }
  split; [|split]; simpl.
  - rewrite <- Hk. by apply keys_set_present.
  - intros a Ha. rewrite dict_get_or_set_ne; [by apply HJ|].
    intros ->. done.
  - intros rid q qp Hq Hfq Hal.
    destruct (String.eqb_spec x q) as [->|Hne].
    { by rewrite dict_get_or_set_eq in Hfq. }
    rewrite dict_get_or_set_ne in Hfq by done.
    destruct (holder_exclusive rid q qp Hq Hal) as (Hkey & _ & Hexcl).
    rewrite give_back_get; [|by destruct Hinv|done].
    rewrite (Hexcl x xp Hx Hne). pose proof (HK rid q qp Hq Hfq Hal). lia.
Qed.

Lemma sweep_blocked_inv (l : dict Process) : forall v,
  (forall kv, kv ∈ l -> kv ∈ processes s) ->
  blocked_inv s v ->
  blocked_inv s (sweep (keys (resources s)) l v).
Proof.
  induction l as [|[x xp] l IH]; intros v Hsub Hb; [done|].
  rewrite sweep_cons. apply IH.
  - intros kv Hkv. apply Hsub. by right.
  - apply visit_blocked_inv; [done|]. apply Hsub. by left.
Qed.

Lemma loop_blocked_inv fuel : forall v vf n,
  blocked_inv s v ->
  banker_loop fuel (keys (resources s)) (processes s) v = Some (vf, n) ->
  blocked_inv s vf.
Proof.
  induction fuel as [|fuel IH]; intros v vf n Hb; simpl; [done|].
  assert (Hb' : blocked_inv s
                  (sweep (keys (resources s)) (processes s) (clear_progress v))).
  { apply sweep_blocked_inv; [done|]. exact Hb. }
  destruct (progress _).
  - destruct (banker_loop fuel _ _ _) as [[vf' n']|] eqn:E; [|done].
    intros [= <- <-]. by eapply IH.
  - by intros [= <- <-].
Qed.

Lemma init_blocked_inv : blocked_inv s (banker_init s).
Proof.
  split; [|split]; simpl.
  - exact (keys_init (fun _ => false) (processes s)).
  - intros a _. unfold dict_get_or.
    rewrite (dict_get_init (fun _ : Process => false)).
    by destruct (dict_get (processes s) a).
  - intros rid q qp Hq _ Hal.
    by destruct (holder_exclusive rid q qp Hq Hal) as (_ & ? & _).
Qed.

Lemma safe_no_cycle a :
  fst (find_safe_sequence s) = true ->
  ~ on_cycle (build_wait_for_graph s) a.
Proof.
  intros Hsafe Hcyc.
  destruct (on_cycle_successor _ _ Hcyc) as (b & Hedge & _).
  apply has_edge_wfg in Hedge as (proc & _ & _ & _ & Hp & _).
  unfold find_safe_sequence in Hsafe.
  destruct (processes s) as [|kv0 rest] eqn:Hprocs.
  { by apply elem_of_nil in Hp. }
  rewrite <- Hprocs in *. clear Hprocs kv0 rest.
  destruct (banker_run s) as [[v n]|] eqn:Hrun; [|done].
  simpl in Hsafe.
  destruct (loop_blocked_inv _ _ _ _ init_blocked_inv Hrun) as (Hk & HJ & _).
  specialize (HJ a Hcyc).
  assert (Ha : a ∈ keys (finish v)).
  { rewrite Hk. unfold keys. by apply (list_elem_of_fmap_2 fst _ (a, proc)). }
  apply elem_keys_dict_get in Ha as [f Hf].
  unfold dict_get_or in HJ. rewrite Hf in HJ. subst f.
  rewrite forallb_forall in Hsafe.
  apply dict_get_elem in Hf.
  assert (Hin : In false (values (finish v))).
  { apply list_elem_of_In. unfold values.
    by apply (list_elem_of_fmap_2 snd _ (a, false)). }
  by specialize (Hsafe _ Hin).
Qed.
End SafeNoCycle.

(** C2 (amended): in a state that satisfies the data-model invariants and
    whose resources all have a single unit, a safe verdict of
    [find_safe_sequence] implies that [analyze_deadlock] reports no deadlock,
    that is, the wait-for graph has no cycle. *)
Theorem safe_single_unit_no_deadlock s :
  data_model_inv s ->
  single_unit s = true ->
  fst (find_safe_sequence s) = true ->
  has_deadlock (analyze_deadlock s) = false /\
  (forall a, ~ on_cycle (build_wait_for_graph s) a).
Proof.
  intros (Hinv & _ & Hvalid) Hsingle Hsafe.
  assert (Hno : forall a, ~ on_cycle (build_wait_for_graph s) a).
  { intros a. by apply safe_no_cycle. }
  split; [|exact Hno]. simpl. unfold detect_wait_for_cycles_nonempty.
  destruct (has_cycle (build_wait_for_graph s)) eqn:E; [|done].
  apply has_cycle_sound in E as [a Ha]. by destruct (Hno a).
Qed.

(** ** The cycle test is exact *)

Lemma has_node_true g n : has_node g n = true <-> n ∈ nodes g.
Proof.
  unfold has_node. rewrite existsb_exists. split.
  - intros (x & Hin & Heq). apply String.eqb_eq in Heq as ->.
    by apply list_elem_of_In.
  - intros Hin. exists n. split; [by apply list_elem_of_In|].
    apply String.eqb_refl.
Qed.

Lemma has_node_add_node g n x :
  has_node (add_node g n) x = true <-> has_node g x = true \/ x = n.
Proof.
  unfold add_node. destruct (has_node g n) eqn:E.
  - split; [by left|]. intros [?| ->]; done.
  - rewrite !has_node_true. simpl.
    rewrite elem_of_app, list_elem_of_singleton. done.
Qed.

Lemma has_node_add_edge g u v a x :
  has_node (add_edge g u v a) x = true <->
  has_node g x = true \/ x = u \/ x = v.
Proof.
  unfold add_edge.
  change (has_node {| nodes := nodes (add_node (add_node g u) v);
                      edges := _ |} x)
    with (has_node (add_node (add_node g u) v) x).
  rewrite !has_node_add_node. tauto.
Qed.

Lemma graph_wf_add_node g n : graph_wf g -> graph_wf (add_node g n).
Proof.
  intros Hwf u v. unfold has_edge. rewrite edges_add_node.
  intros H. destruct (Hwf u v H). rewrite !has_node_add_node. tauto.
Qed.

Lemma graph_wf_add_edge g u v a : graph_wf g -> graph_wf (add_edge g u v a).
Proof.
  intros Hwf x y. rewrite has_edge_add_edge, !has_node_add_edge.
  intros [H|[-> ->]]; [destruct (Hwf x y H)|]; tauto.
Qed.

Lemma fold_left_preserves {A B} (P : A -> Prop) (f : A -> B -> A) l :
  (forall a b, P a -> P (f a b)) -> forall a, P a -> P (fold_left f l a).
Proof.
  intros Hf. induction l as [|b l IH]; intros a Ha; simpl; [done|].
  by apply IH, Hf.
Qed.

Lemma graph_wf_build s : graph_wf (build_wait_for_graph s).
Proof.
  unfold build_wait_for_graph.
  apply fold_left_preserves.
  - intros g item Hwf. unfold add_waits.
    apply fold_left_preserves; [|done].
    intros g1 rq Hwf1. destruct (rq.2 =? 0); [done|].
    unfold add_holders. apply fold_left_preserves; [|done].
    intros g2 o Hwf2. destruct (String.eqb o.1 item.1); [done|].
    destruct (0 <? _); [by apply graph_wf_add_edge | done].
  - apply fold_left_preserves; [|by intros u v].
    intros g n. apply graph_wf_add_node.
Qed.

Lemma tc_walk g u v :
  tc (edge_rel g) u v -> exists l, walk g u l v.
Proof.
  induction 1 as [u v He|u m v He _ [l Hl]].
  - by exists [].
  - by exists (m :: l).
Qed.

Lemma walk_suffix g l1 : forall u m l2 v,
  walk g u (l1 ++ m :: l2) v -> walk g m l2 v.
Proof.
  induction l1 as [|x l1 IH]; intros u m l2 v; simpl.
  - tauto.
  - intros [_ H]. by eapply IH.
Qed.

Lemma walk_nodes g l : forall u v,
  graph_wf g -> walk g u l v ->
  u ∈ nodes g /\ (forall x, x ∈ l -> x ∈ nodes g).
Proof.
  induction l as [|m l IH]; intros u v Hwf; simpl.
  - intros He. destruct (Hwf u v He) as [Hu _].
    split; [by apply has_node_true|]. by intros x ?%elem_of_nil.
  - intros [He Hw]. destruct (Hwf u m He) as [Hu _].
    destruct (IH m v Hwf Hw) as [Hm Hl].
    split; [by apply has_node_true|].
    intros x [->|Hx]%elem_of_cons; auto.
Qed.

(** Every walk contains one that repeats neither its source nor any
    intermediate node. *)
Lemma walk_simple g l : forall u v,
  walk g u l v ->
  exists l', walk g u l' v /\ NoDup (u :: l') /\
    (forall x, x ∈ l' -> x ∈ l).
Proof.
  induction l as [|m l IH]; intros u v; simpl.
  - intros He. exists []. split; [done|]. split; [|done].
    apply NoDup_singleton.
  - intros [He Hw]. destruct (IH m v Hw) as (l1 & Hw1 & Hnd & Hsub).
    destruct (decide (u ∈ m :: l1)) as [Hin|Hnotin].
    + apply elem_of_cons in Hin as [->|Hin].
      * exists l1. split; [done|]. split; [done|].
        intros x Hx. right. by apply Hsub.
      * apply list_elem_of_split in Hin as (l2 & l3 & ->).
        exists l3. split; [by eapply walk_suffix|]. split.
        -- apply NoDup_cons in Hnd as [_ Hnd].
           apply NoDup_app in Hnd as (_ & _ & Hnd). done.
        -- intros x Hx. right. apply Hsub.
           apply elem_of_app. right. by right.
    + exists (m :: l1). split; [done|]. split.
      * by apply NoDup_cons.
      * intros x [->|Hx]%elem_of_cons; [by left|]. right. by apply Hsub.
Qed.

Lemma walk_reach g l : forall k u v,
  walk g u l v ->
  (forall x, x ∈ l -> x ∈ nodes g) ->
  (length l < k)%nat ->
  reach k g u v = true.
Proof.
  induction l as [|m l IH]; intros k u v Hw Hn Hk;
    (destruct k as [|k]; [simpl in Hk; lia|]); simpl in *.
  - unfold edge_rel in Hw. by rewrite Hw.
  - destruct Hw as [He Hw]. apply orb_true_iff. right.
    apply existsb_exists. exists m. split.
    + apply list_elem_of_In, Hn. by left.
    + apply andb_true_iff. split; [exact He|].
      apply IH; [done| |lia]. intros x Hx. apply Hn. by right.
Qed.

Lemma NoDup_length_le (l k : list string) :
  NoDup l -> (forall x, x ∈ l -> x ∈ k) -> (length l <= length k)%nat.
Proof.
  intros Hnd Hsub. apply NoDup_ListNoDup in Hnd.
  apply (List.NoDup_incl_length Hnd).
  intros x Hx. apply list_elem_of_In, Hsub. by apply list_elem_of_In.
Qed.

Lemma has_cycle_complete g a :
  graph_wf g -> on_cycle g a -> has_cycle g = true.
Proof.
  intros Hwf Hcyc. apply tc_walk in Hcyc as [l Hw].
  apply walk_simple in Hw as (l' & Hw & Hnd & _).
  destruct (walk_nodes g l' a a Hwf Hw) as [Ha Hl].
  unfold has_cycle. apply existsb_exists. exists a.
  split; [by apply list_elem_of_In|].
  apply (walk_reach g l'); [done|done|].
  assert (length (a :: l') <= length (nodes g))%nat; [|simpl in *; lia].
  apply NoDup_length_le; [done|].
  intros x [->|Hx]%elem_of_cons; auto.
Qed.

(** [analyze_deadlock] reports a deadlock exactly when some process lies on
    a cycle of the wait-for graph. *)
Lemma has_deadlock_iff_cycle s :
  has_deadlock (analyze_deadlock s) = true <->
  exists a, on_cycle (build_wait_for_graph s) a.
Proof.
  simpl. unfold detect_wait_for_cycles_nonempty. split.
  - apply has_cycle_sound.
  - intros [a Ha]. eapply has_cycle_complete; [apply graph_wf_build | done].
Qed.

Lemma safe_single_unit_no_deadlock_witness :
  has_deadlock (analyze_deadlock single_unit_safe_state) = false.
Proof.
  refine (proj1 (safe_single_unit_no_deadlock single_unit_safe_state _ _ _)).
  - split; [|split; reflexivity].
    apply reachable_state_inv, reachable_run_ops, reachable_empty.
  - reflexivity.
  - reflexivity.
Defined.

Lemma safe_yet_deadlocked_counterexample :
  ~ (data_model_inv two_unit_cycle_state ->
     fst (find_safe_sequence two_unit_cycle_state) = true ->
     has_deadlock (analyze_deadlock two_unit_cycle_state) = false).
Proof.
  intros H.
  assert (Hd : data_model_inv two_unit_cycle_state).
  { split; [|split; reflexivity].
    apply reachable_state_inv, reachable_run_ops, reachable_empty. }
  specialize (H Hd eq_refl). vm_compute in H. discriminate H.
Qed.

Lemma wfg_edges_characterised_witness :
  has_edge (build_wait_for_graph circular_wait_state) "P1" "P2" = true /\
  has_edge (build_wait_for_graph negative_request_state) "P1" "P2" = true /\
  has_edge (build_wait_for_graph circular_wait_state) "P1" "P1" = false.
Proof.
  split; [|split].
  - apply (proj2 (proj2 (proj2 wfg_edges_characterised)) circular_wait_state).
    + apply reachable_state_inv, reachable_run_ops, reachable_empty.
    + split; [by left|]. split; [right; by left|]. split; [done|].
      exists "R2". split; reflexivity.
  - apply (proj1 (proj2 (proj2 wfg_edges_characterised))
             negative_request_state).
    + split.
      * repeat constructor; set_solver.
      * intros p proc Hin. simpl in Hin.
        apply elem_of_cons in Hin as [Hin|Hin];
          [injection Hin as -> ->; apply NoDup_singleton|].
        apply elem_of_cons in Hin as [Hin|Hin];
          [injection Hin as -> ->; apply NoDup_nil_2|].
        by apply elem_of_nil in Hin.
    + split; [by left|]. split; [right; by left|]. split; [done|].
      exists "R1". split; [done | reflexivity].
  - apply (proj1 wfg_edges_characterised).
Defined.

(** ** The object graph: snapshots alias the live state *)

(** C4: the snapshot stored by [_take_snapshot] does not keep its contents.
    It showed P1 holding 3 units of R1 with nothing pending; after a later
    [allocate], [release], [request] or [remove_process] on the live state
    the same stored snapshot shows the new allocation or request, while its
    [need] entry and its resource table, which are copies, still show the
    old need 2 and 7 available units. *)
Theorem stored_snapshot_changes_after_mutation :
  let shows al rq :=
    Some ([("R1", (10, 7))],
          [("P1", Heap.mkProcessView [("R1", 5)] al rq [("R1", 2)] 0)]) in
  Heap.stored_snapshot_view_before = shows [("R1", 3)] [] /\
  Heap.stored_snapshot_view_after
    (fun st => Heap.allocate st "P1" "R1" 1) = shows [("R1", 4)] [] /\
  Heap.stored_snapshot_view_after
    (fun st => Heap.release st "P1" "R1" 1) = shows [("R1", 2)] [] /\
  Heap.stored_snapshot_view_after
    (fun st => Heap.request st "P1" "R1" 2) = shows [("R1", 3)] [("R1", 2)] /\
  Heap.stored_snapshot_view_after
    (fun st => Heap.remove_process st "P1") = shows [] [] /\
  Heap.stored_snapshot_view_after (fun st => Heap.allocate st "P1" "R1" 1)
    <> Heap.stored_snapshot_view_before.
Proof.
  cbv zeta.
  assert (Hb : Heap.stored_snapshot_view_before
               = Some ([("R1", (10, 7))],
                       [("P1", Heap.mkProcessView [("R1", 5)] [("R1", 3)] []
                                 [("R1", 2)] 0)])) by (vm_compute; reflexivity).
  assert (Ha : Heap.stored_snapshot_view_after
                 (fun st => Heap.allocate st "P1" "R1" 1)
               = Some ([("R1", (10, 7))],
                       [("P1", Heap.mkProcessView [("R1", 5)] [("R1", 4)] []
                                 [("R1", 2)] 0)])) by (vm_compute; reflexivity).
  split; [exact Hb|]. split; [exact Ha|].
  split; [vm_compute; reflexivity|]. split; [vm_compute; reflexivity|].
  split; [vm_compute; reflexivity|]. rewrite Ha, Hb. discriminate.
Qed.

(** ** The object graph: a computation on a deep copy leaves the original *)

Section Frame.
Variable n : nat.
Variable h0 : Heap.store.

Lemma hoare_ret {A} (a : A) (Q : A -> Prop) :
  Q a -> Heap.hoare n h0 (Heap.ret a) Q.
Proof. intros HQ h Hh. split; [done|]. by intros a' h' [= <- <-]. Qed.

Lemma hoare_raise {A} e (Q : A -> Prop) : Heap.hoare n h0 (Heap.raise e) Q.
Proof. intros h Hh. split; [done|]. intros a' h'. discriminate. Qed.

Lemma hoare_ill_typed {A} (Q : A -> Prop) : Heap.hoare n h0 Heap.ill_typed Q.
Proof. intros h Hh. split; [done|]. intros a' h'. discriminate. Qed.

Lemma hoare_bind {A B} (m : Heap.M A) (k : A -> Heap.M B) Q R :
  Heap.hoare n h0 m Q ->
  (forall a, Q a -> Heap.hoare n h0 (k a) R) ->
  Heap.hoare n h0 (Heap.bind m k) R.
Proof.
  intros Hm Hk h Hh. unfold Heap.bind. destruct (Hm h Hh) as [Hf HQ].
  destruct (m h) as [a h1|e h1] eqn:E; simpl in *.
  - apply (Hk a (HQ a h1 eq_refl) h1 Hf).
  - split; [done|]. intros a' h'. discriminate.
Qed.

Lemma hoare_weaken {A} (m : Heap.M A) (Q Q' : A -> Prop) :
  Heap.hoare n h0 m Q -> (forall a, Q a -> Q' a) -> Heap.hoare n h0 m Q'.
Proof.
  intros Hm HQ h Hh. destruct (Hm h Hh) as [Hf Hq]. split; [done|].
  intros a h' E. by eapply HQ, Hq.
Qed.

Lemma hoare_load l :
  (n <= l)%nat -> Heap.hoare n h0 (Heap.load l) (Heap.refs_above n).
Proof.
  intros Hl h Hh. pose proof Hh as [Hb Ha]. unfold Heap.load.
  destruct (_ !! _) as [o|] eqn:E; simpl; (split; [done|]).
  - intros a h' [= <- <-]. by eapply Ha.
  - intros a h'. discriminate.
Qed.

Lemma hoare_write l o :
  (n <= l)%nat -> Heap.refs_above n o ->
  Heap.hoare n h0 (Heap.write l o) (fun _ => True).
Proof.
  intros Hl Ho h Hh. pose proof Hh as [Hb Ha]. unfold Heap.write.
  destruct (_ !! _) as [o1|] eqn:E; simpl; (split; [|done]); [|done].
  split.
  - intros l' Hl'. rewrite list_lookup_insert_ne by lia. by apply Hb.
  - intros l' o' Hl'. destruct (decide (l = l')) as [<-|Hne].
    + rewrite list_lookup_insert_eq by (by eapply lookup_lt_Some).
      by intros [= <-].
    + rewrite list_lookup_insert_ne by done. by apply Ha.
Qed.

Lemma hoare_load_ints l :
  (n <= l)%nat -> Heap.hoare n h0 (Heap.load_ints l) (fun _ => True).
Proof.
  intros Hl. eapply hoare_bind; [by apply hoare_load|].
  intros [] Ho; first [by apply hoare_ret | apply hoare_ill_typed].
Qed.

Lemma hoare_load_resource l :
  (n <= l)%nat -> Heap.hoare n h0 (Heap.load_resource l) (fun _ => True).
Proof.
  intros Hl. eapply hoare_bind; [by apply hoare_load|].
  intros [] Ho; first [by apply hoare_ret | apply hoare_ill_typed].
Qed.

Lemma hoare_load_log l :
  (n <= l)%nat -> Heap.hoare n h0 (Heap.load_log l) (fun _ => True).
Proof.
  intros Hl. eapply hoare_bind; [by apply hoare_load|].
  intros [] Ho; first [by apply hoare_ret | apply hoare_ill_typed].
Qed.

Lemma hoare_load_process l :
  (n <= l)%nat ->
  Heap.hoare n h0 (Heap.load_process l)
    (fun p => Heap.refs_above n (Heap.OProcess p)).
Proof.
  intros Hl. eapply hoare_bind; [by apply hoare_load|].
  intros [] Ho; first [by apply hoare_ret | apply hoare_ill_typed].
Qed.

Lemma hoare_load_dict l :
  (n <= l)%nat ->
  Heap.hoare n h0 (Heap.load_dict l)
    (fun d => Heap.refs_above n (Heap.ODict d)).
Proof.
  intros Hl. eapply hoare_bind; [by apply hoare_load|].
  intros [] Ho; first [by apply hoare_ret | apply hoare_ill_typed].
Qed.

Lemma hoare_load_state l :
  (n <= l)%nat ->
  Heap.hoare n h0 (Heap.load_state l)
    (fun st => Heap.refs_above n (Heap.OState st)).
Proof.
  intros Hl. eapply hoare_bind; [by apply hoare_load|].
  intros [] Ho; first [by apply hoare_ret | apply hoare_ill_typed].
Qed.

Lemma dict_get_above (d : dict Heap.loc) k l :
  Heap.refs_above n (Heap.ODict d) -> dict_get d k = Some l -> (n <= l)%nat.
Proof.
  simpl. rewrite Forall_forall. intros H Hk.
  apply dict_get_elem in Hk. by apply (H (k, l)).
Qed.

Lemma hoare_log_event self ty kw :
  (n <= self)%nat ->
  Heap.hoare n h0 (Heap.log_event self ty kw) (fun _ => True).
Proof.
  intros Hs. unfold Heap.log_event.
  eapply hoare_bind; [by apply hoare_load_state|]. intros st (_ & _ & Hlg).
  eapply hoare_bind; [by apply hoare_load_log|]. intros lg _.
  by apply hoare_write.
Qed.

Lemma hoare_validate self p r :
  (n <= self)%nat ->
  Heap.hoare n h0 (Heap.validate_process_and_resource self p r)
    (fun _ => True).
Proof.
  intros Hs. unfold Heap.validate_process_and_resource.
  eapply hoare_bind; [by apply hoare_load_state|]. intros st (Hr & Hp & _).
  eapply hoare_bind; [by apply hoare_load_dict|]. intros ps _.
  destruct (negb _); [apply hoare_raise|].
  eapply hoare_bind; [by apply hoare_load_dict|]. intros rs _.
  destruct (negb _); [apply hoare_raise | by apply hoare_ret].
Qed.

Lemma hoare_get_process self p :
  (n <= self)%nat ->
  Heap.hoare n h0 (Heap.get_process self p) (fun l => (n <= l)%nat).
Proof.
  intros Hs. unfold Heap.get_process.
  eapply hoare_bind; [by apply hoare_load_state|]. intros st (Hr & Hp & _).
  eapply hoare_bind; [by apply hoare_load_dict|]. intros ps Hps.
  destruct (dict_get ps p) as [l|] eqn:E; [|apply hoare_raise].
  apply hoare_ret. by eapply dict_get_above.
Qed.

Lemma hoare_get_resource self r :
  (n <= self)%nat ->
  Heap.hoare n h0 (Heap.get_resource self r) (fun l => (n <= l)%nat).
Proof.
  intros Hs. unfold Heap.get_resource.
  eapply hoare_bind; [by apply hoare_load_state|]. intros st (Hr & Hp & _).
  eapply hoare_bind; [by apply hoare_load_dict|]. intros rs Hrs.
  destruct (dict_get rs r) as [l|] eqn:E; [|apply hoare_raise].
  apply hoare_ret. by eapply dict_get_above.
Qed.

Lemma hoare_need p r :
  Heap.refs_above n (Heap.OProcess p) ->
  Heap.hoare n h0 (Heap.need p r) (fun _ => True).
Proof.
  intros (Hmc & Hal & _). unfold Heap.need.
  eapply hoare_bind; [by apply hoare_load_ints|]. intros mc _.
  eapply hoare_bind; [by apply hoare_load_ints|]. intros al _.
  by apply hoare_ret.
Qed.

Lemma hoare_get_available self r :
  (n <= self)%nat ->
  Heap.hoare n h0 (Heap.get_available self r) (fun _ => True).
Proof.
  intros Hs. unfold Heap.get_available.
  eapply hoare_bind; [by apply hoare_load_state|]. intros st (Hr & Hp & _).
  eapply hoare_bind; [by apply hoare_load_dict|]. intros rs Hrs.
  destruct (dict_get rs r) as [l|] eqn:E; [|apply hoare_raise].
  eapply hoare_bind; [eapply hoare_load_resource, dict_get_above; done|].
  intros res _. by apply hoare_ret.
Qed.

Lemma hoare_clear_request p r u :
  Heap.refs_above n (Heap.OProcess p) ->
  Heap.hoare n h0 (Heap.clear_request p r u) (fun _ => True).
Proof.
  intros (_ & _ & Hrq). unfold Heap.clear_request.
  eapply hoare_bind; [by apply hoare_load_ints|]. intros rq _.
  destruct (dict_mem rq r); [|by apply hoare_ret].
  eapply hoare_bind; [by apply hoare_write|]. intros _ _.
  eapply hoare_bind; [by apply hoare_load_ints|]. intros rq1 _.
  destruct (_ =? 0); [by apply hoare_write | by apply hoare_ret].
Qed.

Lemma hoare_allocate self p r u :
  (n <= self)%nat ->
  Heap.hoare n h0 (Heap.allocate self p r u) (fun _ => True).
Proof.
  intros Hs. unfold Heap.allocate.
  eapply hoare_bind; [by apply hoare_validate|]. intros _ _.
  eapply hoare_bind; [by apply hoare_get_process|]. intros pl Hpl.
  eapply hoare_bind; [by apply hoare_load_process|]. intros proc Hproc.
  eapply hoare_bind; [by apply hoare_get_resource|]. intros rl Hrl.
  eapply hoare_bind; [by apply hoare_load_resource|]. intros res _.
  destruct (u <? 0); [apply hoare_raise|].
  destruct (u =? 0).
  { eapply hoare_bind; [by apply hoare_log_event|]. intros _ _.
    by apply hoare_ret. }
  destruct (available_units res <? u).
  { eapply hoare_bind; [by apply hoare_log_event|]. intros _ _.
    by apply hoare_ret. }
  pose proof Hproc as (Hmc & Hal & Hrq).
  eapply hoare_bind; [by apply hoare_load_ints|]. intros al _.
  eapply hoare_bind; [by apply hoare_load_ints|]. intros mc _.
  destruct (_ <? _).
  { eapply hoare_bind; [by apply hoare_log_event|]. intros _ _.
    by apply hoare_ret. }
  eapply hoare_bind; [by apply hoare_load_ints|]. intros al1 _.
  eapply hoare_bind; [by apply hoare_write|]. intros _ _.
  eapply hoare_bind; [by apply hoare_load_resource|]. intros r1 _.
  eapply hoare_bind; [by apply hoare_write|]. intros _ _.
  eapply hoare_bind; [by apply hoare_clear_request|]. intros _ _.
  eapply hoare_bind; [by apply hoare_log_event|]. intros _ _.
  by apply hoare_ret.
Qed.

Lemma hoare_check_request self proc items :
  (n <= self)%nat ->
  Heap.refs_above n (Heap.OProcess proc) ->
  Heap.hoare n h0 (Heap.check_request self proc items) (fun _ => True).
Proof.
  intros Hs Hproc. induction items as [|[r u] items IH]; simpl.
  - by apply hoare_ret.
  - eapply hoare_bind; [by apply hoare_need|]. intros nd _.
    destruct (nd <? u); [by apply hoare_ret|].
    eapply hoare_bind; [by apply hoare_get_available|]. intros av _.
    destruct (av <? u); [by apply hoare_ret | exact IH].
Qed.

Lemma hoare_tentative_allocate self p items :
  (n <= self)%nat ->
  Heap.hoare n h0 (Heap.tentative_allocate self p items) (fun _ => True).
Proof.
  intros Hs. induction items as [|[r u] items IH]; simpl.
  - by apply hoare_ret.
  - eapply hoare_bind; [by apply hoare_allocate|]. intros ok _.
    destruct ok; [exact IH | by apply hoare_ret].
Qed.

Lemma hoare_find_safe_sequence self :
  Heap.hoare n h0 (Heap.find_safe_sequence self) (fun _ => True).
Proof.
  intros h Hh. unfold Heap.find_safe_sequence.
  destruct (Heap.read_state h self); simpl; split; done.
Qed.
End Frame.

Lemma refs_above_shift n o : Heap.refs_above n (Heap.shift n o).
Proof.
  destruct o as [d|r|p|d|lg|st]; simpl; try done; try lia.
  apply Forall_fmap, Forall_forall. intros kv _. simpl. lia.
Qed.

Lemma framed_clone (h0 : Heap.store) :
  Heap.framed (length h0) h0 (h0 ++ (Heap.shift (length h0) <$> h0)).
Proof.
  split.
  - intros l Hl. by rewrite lookup_app_l.
  - intros l o Hl. rewrite lookup_app_r by done.
    rewrite list_lookup_fmap. destruct (h0 !! _); simpl; [|done].
    intros [= <-]. apply refs_above_shift.
Qed.

Lemma framed_after_clone (h0 : Heap.store) {A} (k : Heap.loc -> Heap.M A)
    state :
  (forall ts, (length h0 <= ts)%nat ->
     Heap.hoare (length h0) h0 (k ts) (fun _ => True)) ->
  Heap.framed (length h0) h0
    (Heap.store_of (Heap.bind (Heap.clone state) k h0)).
Proof.
  intros Hk. unfold Heap.bind, Heap.clone.
  apply (Hk (length h0 + state)%nat); [lia | apply framed_clone].
Qed.

Lemma is_safe_state_framed (h0 : Heap.store) state process req :
  Heap.framed (length h0) h0
    (Heap.store_of (Heap.is_safe_state state process req h0)).
Proof.
  unfold Heap.is_safe_state. apply framed_after_clone. intros ts Hts.
  destruct process as [pid|]; [|apply hoare_find_safe_sequence].
  destruct req as [items|]; [|apply hoare_find_safe_sequence].
  destruct (_ || _)%bool; [apply hoare_find_safe_sequence|].
  eapply hoare_bind; [by apply hoare_get_process|]. intros pl Hpl.
  eapply hoare_bind; [by apply hoare_load_process|]. intros proc Hproc.
  eapply hoare_bind; [by apply hoare_check_request|]. intros ok _.
  destruct (negb ok); [by apply hoare_ret|].
  eapply hoare_bind; [by apply hoare_tentative_allocate|]. intros ok2 _.
  destruct (negb ok2); [by apply hoare_ret | apply hoare_find_safe_sequence].
Qed.

Section ReadExtends.
Variables h h' : Heap.store.
Hypothesis Hext : forall l o, h !! l = Some o -> h' !! l = Some o.

Lemma read_ints_extends l d :
  Heap.read_ints h l = Some d -> Heap.read_ints h' l = Some d.
Proof.
  unfold Heap.read_ints. destruct (h !! l) as [o|] eqn:E; [|done].
  by rewrite (Hext _ _ E).
Qed.

Lemma read_resource_extends l r :
  Heap.read_resource h l = Some r -> Heap.read_resource h' l = Some r.
Proof.
  unfold Heap.read_resource. destruct (h !! l) as [o|] eqn:E; [|done].
  by rewrite (Hext _ _ E).
Qed.

Lemma read_process_extends l p :
  Heap.read_process h l = Some p -> Heap.read_process h' l = Some p.
Proof.
  unfold Heap.read_process. destruct (h !! l) as [o|] eqn:E; [|done].
  rewrite (Hext _ _ E). destruct o as [| |pr| | |]; try done.
  destruct (Heap.read_ints h (Heap.pr_max_claims pr)) as [mc|] eqn:E1; [|done].
  destruct (Heap.read_ints h (Heap.pr_allocated pr)) as [al|] eqn:E2; [|done].
  destruct (Heap.read_ints h (Heap.pr_requested pr)) as [rq|] eqn:E3; [|done].
  by rewrite (read_ints_extends _ _ E1), (read_ints_extends _ _ E2),
    (read_ints_extends _ _ E3).
Qed.

Lemma read_field_extends f v :
  Heap.read_field h f = Some v -> Heap.read_field h' f = Some v.
Proof.
  destruct f as [s|z|l]; simpl; try done.
  destruct (Heap.read_ints h l) as [d|] eqn:E; [|done].
  by rewrite (read_ints_extends _ _ E).
Qed.

Lemma read_all_extends {A B} (f f' : A -> option B) (d : dict A) x :
  (forall a b, f a = Some b -> f' a = Some b) ->
  Heap.read_all f d = Some x -> Heap.read_all f' d = Some x.
Proof.
  intros Hf. revert x. induction d as [|[k a] d IH]; intros x; simpl; [done|].
  destruct (f a) as [b|] eqn:E; [|done].
  destruct (Heap.read_all f d) as [d'|] eqn:E'; [|done].
  by rewrite (Hf _ _ E), (IH _ eq_refl).
Qed.

Lemma read_log_extends lg x :
  Heap.read_log h lg = Some x -> Heap.read_log h' lg = Some x.
Proof.
  revert x. induction lg as [|e lg IH]; intros x; simpl; [done|].
  destruct (Heap.read_all (Heap.read_field h) (Heap.hev_fields e))
    as [fs|] eqn:E; [|done].
  destruct (Heap.read_log h lg) as [evs|] eqn:E'; [|done].
  rewrite (read_all_extends _ (Heap.read_field h') _ _ read_field_extends E).
  by rewrite (IH _ eq_refl).
Qed.

Lemma read_state_extends self s :
  Heap.read_state h self = Some s -> Heap.read_state h' self = Some s.
Proof.
  unfold Heap.read_state. destruct (h !! self) as [o|] eqn:E; [|done].
  rewrite (Hext _ _ E). destruct o as [| | | | |st]; try done.
  destruct (h !! Heap.sr_resources st) as [o1|] eqn:E1; [|done].
  rewrite (Hext _ _ E1). destruct o1 as [| | |rs| |]; try done.
  destruct (h !! Heap.sr_processes st) as [o2|] eqn:E2; [|done].
  rewrite (Hext _ _ E2). destruct o2 as [| | |ps| |]; try done.
  destruct (h !! Heap.sr_event_log st) as [o3|] eqn:E3; [|done].
  rewrite (Hext _ _ E3). destruct o3 as [| | | |lg|]; try done.
  destruct (Heap.read_all (Heap.read_resource h) rs) as [rs'|] eqn:R1; [|done].
  destruct (Heap.read_all (Heap.read_process h) ps) as [ps'|] eqn:R2; [|done].
  destruct (Heap.read_log h lg) as [lg'|] eqn:R3; [|done].
  rewrite (read_all_extends _ (Heap.read_resource h') _ _
             read_resource_extends R1).
  rewrite (read_all_extends _ (Heap.read_process h') _ _
             read_process_extends R2).
  by rewrite (read_log_extends _ _ R3).
Qed.
End ReadExtends.

(** C6: [is_safe_state] leaves the caller's state as it was.  Whatever the
    process id and the request, and whether the call returns a safe or an
    unsafe verdict or raises, no object of the original store is changed;
    so the state read back after the call (every resource's available
    units, every process's allocated, requested and max_claims maps, and
    the event log) equals the state read before it. *)
Theorem is_safe_state_leaves_state (h : Heap.store) state process req s :
  Heap.read_state h state = Some s ->
  let h' := Heap.store_of (Heap.is_safe_state state process req h) in
  Heap.read_state h' state = Some s /\
  (forall l o, h !! l = Some o -> h' !! l = Some o).
Proof.
  intros Hs h'.
  assert (Hext : forall l o, h !! l = Some o -> h' !! l = Some o).
  { intros l o Hl. destruct (is_safe_state_framed h state process req) as [Hb _].
    unfold h'. rewrite Hb; [done|]. by eapply lookup_lt_Some. }
  split; [|exact Hext]. by eapply read_state_extends.
Qed.

(** The heap model and the value model build the same state. *)
Lemma setup_reads_as_value_state :
  Heap.read_state Heap.setup_store Heap.setup_state = Some exceeds_need_state.
Proof. vm_compute. reflexivity. Qed.

Lemma is_safe_state_leaves_state_witness :
  Heap.read_state
    (Heap.store_of
       (Heap.is_safe_state Heap.setup_state (Some "P1") (Some [("R1", 1)])
          Heap.setup_store))
    Heap.setup_state
  = Some exceeds_need_state.
Proof.
  apply (is_safe_state_leaves_state Heap.setup_store Heap.setup_state
           (Some "P1") (Some [("R1", 1)]) exceeds_need_state).
  apply setup_reads_as_value_state.
Defined.

(** ** policies.py: resource ordering *)

Lemma in_order_index order r :
  in_order order r = true <-> exists i, index order r = Some i.
Proof.
  unfold in_order. induction order as [|x order IH]; simpl.
  - split; [done | by intros [i ?]].
  - rewrite String.eqb_sym. destruct (String.eqb_spec x r) as [->|Hne]; simpl.
    + split; [by exists O | done].
    + rewrite IH. destruct (index order r); split; intros [i ?]; eauto; done.
Qed.

Lemma first_violation_None order h ks :
  first_violation order h ks = None <->
  forallb (fun r' => match index order r' with
                     | Some k => (h <=? k)%nat
                     | None => true
                     end) ks = true.
Proof.
  induction ks as [|r ks IH]; simpl; [done|].
  destruct (in_order order r) eqn:E; simpl.
  - apply in_order_index in E as [i Hi]. rewrite Hi.
    destruct (Nat.ltb_spec i h), (Nat.leb_spec h i); try lia; simpl; done.
  - assert (index order r = None) as ->.
    { destruct (index order r) eqn:Hi; [|done].
      assert (in_order order r = true) by (apply in_order_index; eauto).
      congruence. }
    done.
Qed.

Lemma forallb_same {A} (f g : A -> bool) l :
  (forall x, f x = g x) -> forallb f l = forallb g l.
Proof.
  intros H. induction l as [|x l IH]; simpl; [done|]. by rewrite H, IH.
Qed.

Lemma omap_index_filter order l :
  omap (index order) (List.filter (in_order order) l) = omap (index order) l.
Proof.
  induction l as [|r l IH]; [done|]. cbn [List.filter].
  destruct (in_order order r) eqn:E.
  - cbn. destruct (index order r); cbn; [f_equal|]; exact IH.
  - assert (Hn : index order r = None).
    { destruct (index order r) eqn:Hi; [|done].
      assert (in_order order r = true) by (apply in_order_index; eauto).
      congruence. }
    rewrite IH. cbn. by rewrite Hn.
Qed.

(** Whenever [should_allow] returns, its verdict is the spec's rule applied
    to the ordering the policy holds after the call. *)
Lemma should_allow_agrees_when_it_returns self s pid req self' allow reason
    process :
  dict_get (processes s) pid = Some process ->
  should_allow self s pid req = (self', Ok (allow, reason)) ->
  allow = ordering_allows (resource_order self') process req.
Proof.
  intros Hp. unfold should_allow, ordering_allows, highest_held_rank.
  rewrite Hp, omap_index_filter.
  set (self1 := match resource_order self with [] => _ | _ => self end).
  set (held := List.filter _ _).
  destruct held as [|r0 held'] eqn:Hheld.
  - intros [= <- <- _]. simpl. symmetry.
    apply forallb_forall. intros r' _. by destruct (index _ r').
  - destruct (py_max _) as [h|] eqn:Hmax; [|done].
    set (F := fun r' => match index (resource_order self1) r' with
                        | Some k => (h <=? k)%nat
                        | None => true
                        end).
    destruct (first_violation _ h (keys req)) as [v|] eqn:Hv;
      intros [= <- <- _];
      rewrite (forallb_same _ F)
        by (intros r'; unfold F; rewrite Hmax; by destruct (index _ r')).
    + destruct (forallb F (keys req)) eqn:Hall; [|done].
      apply first_violation_None in Hall. congruence.
    + symmetry. by apply first_violation_None.
Qed.

(** C9: with the ordering [R1] and P1 holding only R2, which has no rank,
    [should_allow] raises [ValueError] ([max] of an empty sequence), whereas
    the rule it implements has h = minus infinity there and allows the
    request. *)
Theorem should_allow_raises_when_only_unranked_held :
  should_allow (mkOrdering ["R1"]) holds_r2_state "P1" [("R1", 1)]
  = (mkOrdering ["R1"], Err ValueError) /\
  (exists process,
     dict_get (processes holds_r2_state) "P1" = Some process /\
     highest_held_rank ["R1"] process = None /\
     ordering_allows ["R1"] process [("R1", 1)] = true).
Proof.
  split; [vm_compute; reflexivity|].
  eexists. split; [vm_compute; reflexivity|]. split; vm_compute; reflexivity.
Qed.

(** ** The end-to-end scenarios of the specification *)

Example scenario_circular_wait :
  has_deadlock (analyze_deadlock circular_wait_state) = true /\
  has_edge (build_wait_for_graph circular_wait_state) "P1" "P2" = true /\
  has_edge (build_wait_for_graph circular_wait_state) "P2" "P1" = true /\
  find_safe_sequence circular_wait_state = (false, None).
Proof. repeat split; vm_compute; reflexivity. Qed.

Example scenario_banker_safe :
  find_safe_sequence banker_three_state = (true, Some ["P2"; "P3"; "P1"]).
Proof. vm_compute. reflexivity. Qed.

Example scenario_unsafe_grant :
  is_safe_state unsafe_grant_state (Some "P1") (Some [("R1", 1)])
  = Ok (false, None) /\
  is_safe_state unsafe_grant_state None None = Ok (false, None).
Proof. split; vm_compute; reflexivity. Qed.

Example scenario_resource_ordering :
  should_allow (mkOrdering ["R1"; "R2"]) holds_r2_state "P1" [("R1", 1)]
  = (mkOrdering ["R1"; "R2"],
     Ok (false,
         "Violates resource ordering: requesting R1 while holding higher-order resources")) /\
  should_allow (mkOrdering []) holds_r2_state "P1" [("R2", 1)]
  = (mkOrdering ["R1"; "R2"], Ok (true, "Follows resource ordering")).
Proof. split; vm_compute; reflexivity. Qed.

(** On the store the verdict of [is_safe_state] is the one computed on
    values. *)
Example scenario_heap_verdict :
  match Heap.is_safe_state Heap.setup_state (Some "P1") (Some [("R1", 1)])
          Heap.setup_store with
  | Heap.Done verdict _ =>
      Ok verdict = is_safe_state exceeds_need_state (Some "P1")
                     (Some [("R1", 1)])
  | Heap.Fail _ _ => False
  end.
Proof. vm_compute. reflexivity. Qed.

(* ===================================================================== *)
(** * Further properties of the engine *)
(* ===================================================================== *)

(** ** state.py: how allocate and release move units *)

Lemma requested_of_clear_request proc r u r' :
  0 < u ->
  dict_get_or (requested (clear_request proc r u)) r' 0
  = if String.eqb r r' then Z.max 0 (dict_get_or (requested proc) r 0 - u)
    else dict_get_or (requested proc) r' 0.
Proof.
  intros Hu. unfold clear_request, dict_mem.
  destruct (dict_get (requested proc) r) as [v|] eqn:E.
  - assert (Hv : dict_get_or (requested proc) r 0 = v)
      by (unfold dict_get_or; by rewrite E).
    rewrite Hv.
    destruct (Z.eqb_spec (Z.max 0 (v - u)) 0) as [Hz|Hz]; simpl;
      destruct (String.eqb_spec r r') as [<-|Hne].
    + by rewrite dict_get_or_del_eq.
    + by rewrite dict_get_or_del_ne, dict_get_or_set_ne.
    + by rewrite dict_get_or_set_eq.
    + by rewrite dict_get_or_set_ne.
  - destruct (String.eqb_spec r r') as [<-|Hne]; [|done].
    unfold dict_get_or. rewrite E. lia.
Qed.

Lemma allocate_effect s p r u s' :
  allocate s p r u = Return true s' ->
  0 < u ->
  u <= available_of s r /\
  allocated_of s p r + u <= max_claims_of s p r /\
  available_of s' r = available_of s r - u /\
  allocated_of s' p r = allocated_of s p r + u /\
  requested_of s' p r = Z.max 0 (requested_of s p r - u) /\
  (forall r', r' <> r -> available_of s' r' = available_of s r') /\
  (forall r', total_of s' r' = total_of s r') /\
  (forall p' r', (p', r') <> (p, r) ->
     allocated_of s' p' r' = allocated_of s p' r' /\
     requested_of s' p' r' = requested_of s p' r') /\
  (forall p' r', max_claims_of s' p' r' = max_claims_of s p' r').
Proof.
  unfold allocate.
  destruct (validate_process_and_resource s p r) eqn:Hv; [done|].
  destruct (validate_None_inv _ _ _ Hv) as [[proc Hp] [res Hr]].
  rewrite Hp, Hr. destruct (Z.ltb_spec u 0) as [?|_]; [done|].
  destruct (Z.eqb_spec u 0) as [->|_]; [intros _ ?; lia|].
  destruct (Z.ltb_spec (available_units res) u) as [?|Hav]; [done|].
  destruct (Z.ltb_spec (dict_get_or (max_claims proc) r 0)
              (dict_get_or (allocated proc) r 0 + u)) as [?|Hmax]; [done|].
  intros [= <-] Hu.
  set (proc1 := set_allocated proc _).
  destruct (clear_request_fields proc1 r u) as [Hmc Hal].
  unfold available_of, allocated_of, requested_of, max_claims_of, total_of.
  unfold log_event. cbn [resources processes event_log].
  rewrite Hp, Hr, !dict_get_set_eq, Hal.
  rewrite (requested_of_clear_request proc1 r u r Hu), String.eqb_refl.
  cbn [set_available available_units total_units proc1 set_allocated allocated
       requested max_claims].
  rewrite dict_get_or_set_eq.
  repeat split; try done.
  - intros r' Hne. by rewrite dict_get_set_ne.
  - intros r'. destruct (String.eqb_spec r r') as [<-|Hne].
    + by rewrite dict_get_set_eq, Hr.
    + by rewrite dict_get_set_ne.
  - destruct (String.eqb_spec p p') as [<-|Hne].
    + rewrite dict_get_set_eq, Hp, Hal. simpl.
      apply dict_get_or_set_ne. congruence.
    + by rewrite dict_get_set_ne.
  - destruct (String.eqb_spec p p') as [<-|Hne].
    + rewrite dict_get_set_eq, Hp.
      rewrite (requested_of_clear_request proc1 r u r' Hu).
      destruct (String.eqb_spec r r'); [congruence | done].
    + by rewrite dict_get_set_ne.
  - intros p' r'. destruct (String.eqb_spec p p') as [<-|Hne].
    + by rewrite dict_get_set_eq, Hp, Hmc.
    + by rewrite dict_get_set_ne.
Qed.

(** An [allocate] that returns true with units > 0 moves exactly [units]
    from the resource to the process and lowers the pending request by as
    much, not below 0; nothing else changes.  It was within the available
    units and within the claim. *)
Theorem allocate_moves_units s p r u s' :
  allocate s p r u = Return true s' ->
  0 < u ->
  u <= available_of s r /\
  allocated_of s p r + u <= max_claims_of s p r /\
  available_of s' r = available_of s r - u /\
  allocated_of s' p r = allocated_of s p r + u /\
  requested_of s' p r = Z.max 0 (requested_of s p r - u) /\
  (forall r', r' <> r -> available_of s' r' = available_of s r') /\
  (forall r', total_of s' r' = total_of s r') /\
  (forall p' r', (p', r') <> (p, r) ->
     allocated_of s' p' r' = allocated_of s p' r' /\
     requested_of s' p' r' = requested_of s p' r') /\
  (forall p' r', max_claims_of s' p' r' = max_claims_of s p' r').
Proof. exact (allocate_effect s p r u s'). Qed.

(** An [allocate] that does not return true (it returns false or raises)
    leaves resources and processes as they were; it returns false exactly
    when the units exceed the available units or the remaining claim. *)
Theorem allocate_refusal s p r u proc res :
  dict_get (processes s) p = Some proc ->
  dict_get (resources s) r = Some res ->
  (u < 0 -> allocate s p r u = Raise ValueError s) /\
  (0 < u -> (available_of s r < u \/ max_claims_of s p r < allocated_of s p r + u) ->
   exists s', allocate s p r u = Return false s' /\
     resources s' = resources s /\ processes s' = processes s /\
     exists ev, event_log s' = event_log s ++ [ev] /\
       ev_type ev = "allocation_failed") /\
  (0 < u -> u <= available_of s r ->
   allocated_of s p r + u <= max_claims_of s p r ->
   exists s', allocate s p r u = Return true s') /\
  (exists s', allocate s p r 0 = Return true s' /\
     resources s' = resources s /\ processes s' = processes s).
Proof.
  intros Hp Hr. unfold allocate, available_of, max_claims_of, allocated_of.
  rewrite (validate_ok _ _ _ _ _ Hp Hr), Hp, Hr.
  split; [|split; [|split]].
  - intros Hu. by destruct (Z.ltb_spec u 0) as [_|?]; [|lia].
  - intros Hu Hcase.
    destruct (Z.ltb_spec u 0) as [?|_]; [lia|].
    destruct (Z.eqb_spec u 0) as [?|_]; [lia|].
    destruct (Z.ltb_spec (available_units res) u) as [?|Hav].
    { eexists. split; [done|]. simpl. repeat split. by eexists. }
    destruct (Z.ltb_spec (dict_get_or (max_claims proc) r 0)
                (dict_get_or (allocated proc) r 0 + u)) as [?|Hmax]; [|lia].
    eexists. split; [done|]. simpl. repeat split. by eexists.
  - intros Hu Hav Hmax.
    destruct (Z.ltb_spec u 0) as [?|_]; [lia|].
    destruct (Z.eqb_spec u 0) as [?|_]; [lia|].
    destruct (Z.ltb_spec (available_units res) u) as [?|_]; [lia|].
    destruct (Z.ltb_spec (dict_get_or (max_claims proc) r 0)
                (dict_get_or (allocated proc) r 0 + u)) as [?|_]; [lia|].
    by eexists.
  - simpl. by eexists.
Qed.

Lemma release_effect s p r u proc res :
  dict_get (processes s) p = Some proc ->
  dict_get (resources s) r = Some res ->
  (u <= 0 -> release s p r u = Raise ValueError s) /\
  (0 < u -> allocated_of s p r < u ->
   exists s', release s p r u = Return false s' /\
     resources s' = resources s /\ processes s' = processes s) /\
  (0 < u -> u <= allocated_of s p r ->
   exists s', release s p r u = Return true s' /\
     available_of s' r = available_of s r + u /\
     allocated_of s' p r = allocated_of s p r - u /\
     (forall r', r' <> r -> available_of s' r' = available_of s r') /\
     (forall r', total_of s' r' = total_of s r') /\
     (forall p' r', (p', r') <> (p, r) ->
        allocated_of s' p' r' = allocated_of s p' r') /\
     (forall p' r', requested_of s' p' r' = requested_of s p' r' /\
        max_claims_of s' p' r' = max_claims_of s p' r')).
Proof.
  intros Hp Hr. unfold release, allocated_of.
  rewrite (validate_ok _ _ _ _ _ Hp Hr), Hp, Hr.
  split; [|split].
  - intros Hu. by destruct (Z.leb_spec u 0) as [_|?]; [|lia].
  - intros Hu Hlt. destruct (Z.leb_spec u 0) as [?|_]; [lia|].
    destruct (Z.ltb_spec (dict_get_or (allocated proc) r 0) u) as [_|?]; [|lia].
    by eexists.
  - intros Hu Hle. destruct (Z.leb_spec u 0) as [?|_]; [lia|].
    destruct (Z.ltb_spec (dict_get_or (allocated proc) r 0) u) as [?|_]; [lia|].
    eexists. split; [done|].
    unfold available_of, allocated_of, requested_of, max_claims_of, total_of.
    unfold log_event. cbn [resources processes event_log].
    rewrite ?Hp, ?Hr, !dict_get_set_eq.
    cbn [set_available available_units total_units set_allocated allocated
         requested max_claims].
    assert (Hnew : forall r',
      dict_get_or
        (if dict_get_or (allocated proc) r 0 - u =? 0
         then dict_del (dict_set (allocated proc) r
                          (dict_get_or (allocated proc) r 0 - u)) r
         else dict_set (allocated proc) r
                (dict_get_or (allocated proc) r 0 - u)) r' 0
      = if String.eqb r r' then dict_get_or (allocated proc) r 0 - u
        else dict_get_or (allocated proc) r' 0).
    { intros r'.
      destruct (Z.eqb_spec (dict_get_or (allocated proc) r 0 - u) 0) as [Hz|Hz];
        destruct (String.eqb_spec r r') as [<-|Hne].
      - rewrite dict_get_or_del_eq. lia.
      - by rewrite dict_get_or_del_ne, dict_get_or_set_ne.
      - by rewrite dict_get_or_set_eq.
      - by rewrite dict_get_or_set_ne. }
    rewrite (Hnew r), String.eqb_refl.
    repeat split; try done.
    + intros r' Hne. by rewrite dict_get_set_ne.
    + intros r'. destruct (String.eqb_spec r r') as [<-|Hne].
      * by rewrite dict_get_set_eq, Hr.
      * by rewrite dict_get_set_ne.
    + intros p' r' Hne. destruct (String.eqb_spec p p') as [<-|Hnp].
      * rewrite dict_get_set_eq, Hp. cbn [allocated set_allocated].
        rewrite (Hnew r').
        destruct (String.eqb_spec r r'); [congruence | done].
      * by rewrite dict_get_set_ne.
    + destruct (String.eqb_spec p p') as [<-|Hnp].
      * by rewrite dict_get_set_eq, Hp.
      * by rewrite dict_get_set_ne.
    + destruct (String.eqb_spec p p') as [<-|Hnp].
      * by rewrite dict_get_set_eq, Hp.
      * by rewrite dict_get_set_ne.
Qed.

(** A [release] that returns true gives exactly [units] back to the
    resource; it happens exactly when 0 < units <= allocated, and a release
    above the allocation returns false and changes nothing. *)
Theorem release_moves_units s p r u proc res :
  dict_get (processes s) p = Some proc ->
  dict_get (resources s) r = Some res ->
  (u <= 0 -> release s p r u = Raise ValueError s) /\
  (0 < u -> allocated_of s p r < u ->
   exists s', release s p r u = Return false s' /\
     resources s' = resources s /\ processes s' = processes s) /\
  (0 < u -> u <= allocated_of s p r ->
   exists s', release s p r u = Return true s' /\
     available_of s' r = available_of s r + u /\
     allocated_of s' p r = allocated_of s p r - u /\
     (forall r', r' <> r -> available_of s' r' = available_of s r') /\
     (forall r', total_of s' r' = total_of s r') /\
     (forall p' r', (p', r') <> (p, r) ->
        allocated_of s' p' r' = allocated_of s p' r') /\
     (forall p' r', requested_of s' p' r' = requested_of s p' r' /\
        max_claims_of s' p' r' = max_claims_of s p' r')).
Proof. exact (release_effect s p r u proc res). Qed.

Lemma release_moves_units_witness :
  exists s', release exceeds_need_state "P1" "R1" 2 = Return true s' /\
    available_of s' "R1" = available_of exceeds_need_state "R1" + 2.
Proof.
  destruct (proj2 (proj2 (release_moves_units exceeds_need_state "P1" "R1" 2
                            (mkProcess "P1" [("R1", 5)] [("R1", 3)] [] 0)
                            (mkResource "R1" 10 7) eq_refl eq_refl))
              eq_refl) as (s' & H1 & H2 & _).
  - vm_compute. discriminate.
  - by exists s'.
Defined.

Lemma allocate_refusal_witness :
  exists s', allocate exceeds_need_state "P1" "R1" 3 = Return false s' /\
    resources s' = resources exceeds_need_state.
Proof.
  destruct (proj1 (proj2 (allocate_refusal exceeds_need_state "P1" "R1" 3
                            (mkProcess "P1" [("R1", 5)] [("R1", 3)] [] 0)
                            (mkResource "R1" 10 7) eq_refl eq_refl))
              eq_refl) as (s' & H1 & H2 & _).
  - right. vm_compute. reflexivity.
  - by exists s'.
Defined.

Lemma allocate_moves_units_witness :
  available_of (state_of (allocate exceeds_need_state "P1" "R1" 2)) "R1"
  = available_of exceeds_need_state "R1" - 2.
Proof.
  refine (proj1 (proj2 (proj2
    (allocate_moves_units exceeds_need_state "P1" "R1" 2
       (state_of (allocate exceeds_need_state "P1" "R1" 2)) _ _)))).
  - vm_compute. reflexivity.
  - reflexivity.
Defined.


(** ** state.py: allocate then release *)

Lemma allocate_true_lookups s p r u s1 :
  allocate s p r u = Return true s1 ->
  exists proc1 res1, dict_get (processes s1) p = Some proc1 /\
    dict_get (resources s1) r = Some res1.
Proof.
  unfold allocate.
  destruct (validate_process_and_resource s p r) eqn:Hv; [done|].
  destruct (validate_None_inv _ _ _ Hv) as [[proc Hp] [res Hr]].
  rewrite Hp, Hr. destruct (u <? 0); [done|].
  destruct (u =? 0); [intros [= <-]; simpl; eauto|].
  destruct (_ <? u); [done|]. destruct (_ <? _); [done|].
  intros [= <-]. unfold log_event. cbn [resources processes].
  rewrite !dict_get_set_eq. eauto.
Qed.

(** Releasing what was just allocated succeeds and restores every available
    amount and every allocation; only the pending request stays lowered. *)
Theorem allocate_then_release s p r u s1 :
  allocate s p r u = Return true s1 ->
  0 < u ->
  0 <= allocated_of s p r ->
  exists s2, release s1 p r u = Return true s2 /\
    (forall r', available_of s2 r' = available_of s r') /\
    (forall r', total_of s2 r' = total_of s r') /\
    (forall p' r', allocated_of s2 p' r' = allocated_of s p' r') /\
    (forall p' r', max_claims_of s2 p' r' = max_claims_of s p' r') /\
    (forall p' r', (p', r') <> (p, r) ->
       requested_of s2 p' r' = requested_of s p' r') /\
    requested_of s2 p r = Z.max 0 (requested_of s p r - u).
Proof.
  intros Ha Hu Hnn.
  destruct (allocate_effect _ _ _ _ _ Ha Hu)
    as (_ & _ & Hav & Hal & Hrq & Havo & Htot & Hoth & Hmc).
  destruct (allocate_true_lookups _ _ _ _ _ Ha) as (proc1 & res1 & Hp1 & Hr1).
  destruct (proj2 (proj2 (release_effect s1 p r u proc1 res1 Hp1 Hr1)) Hu)
    as (s2 & Hrel & Hav2 & Hal2 & Havo2 & Htot2 & Hoth2 & Hrm2); [lia|].
  exists s2. split; [done|]. repeat split.
  - intros r'. destruct (String.eqb_spec r r') as [<-|Hne].
    + rewrite Hav2, Hav. lia.
    + rewrite Havo2, Havo by done. done.
  - intros r'. by rewrite Htot2, Htot.
  - intros p' r'. destruct (decide ((p', r') = (p, r))) as [[= -> ->]|Hne].
    + rewrite Hal2, Hal. lia.
    + rewrite Hoth2 by done. by apply Hoth.
  - intros p' r'. rewrite (proj2 (Hrm2 p' r')). apply Hmc.
  - intros p' r' Hne. rewrite (proj1 (Hrm2 p' r')). by apply Hoth.
  - rewrite (proj1 (Hrm2 p r)). exact Hrq.
Qed.

Lemma allocate_then_release_witness :
  exists s2,
    release (state_of (allocate exceeds_need_state "P1" "R1" 2)) "P1" "R1" 2
    = Return true s2 /\
    available_of s2 "R1" = available_of exceeds_need_state "R1".
Proof.
  destruct (allocate_then_release exceeds_need_state "P1" "R1" 2
              (state_of (allocate exceeds_need_state "P1" "R1" 2)))
    as (s2 & H1 & H2 & _).
  - vm_compute. reflexivity.
  - reflexivity.
  - vm_compute. discriminate.
  - exists s2. split; [exact H1 | apply H2].
Defined.

(** ** state.py: remove_process gives everything back *)

Lemma release_all_effects items p : forall s proc,
  state_inv s ->
  dict_get (processes s) p = Some proc ->
  allocated proc = items ->
  exists s' proc',
    release_all s p items = Return tt s' /\ state_inv s' /\
    dict_get (processes s') p = Some proc' /\ allocated proc' = [] /\
    requested proc' = requested proc /\ max_claims proc' = max_claims proc /\
    (forall q, q <> p -> dict_get (processes s') q = dict_get (processes s) q) /\
    (forall r, available_of s' r = available_of s r + dict_get_or items r 0) /\
    (forall r, total_of s' r = total_of s r) /\
    keys (resources s') = keys (resources s) /\
    keys (processes s') = keys (processes s) /\
    length (event_log s') = (length (event_log s) + length items)%nat.
Proof.
  induction items as [|[rid u] rest IH]; intros s proc Hinv Hp Hal.
  - exists s, proc. simpl. do 7 (split; [done|]). split.
    { intros r. change (dict_get_or [] r 0) with 0. lia. }
    do 3 (split; [done|]). lia.
  - pose proof (si_procs _ Hinv _ _ Hp) as [P1 _ P3 _].
    assert (Hget : dict_get (allocated proc) rid = Some u).
    { rewrite Hal. simpl. by rewrite String.eqb_refl. }
    destruct (P3 _ _ Hget) as (Hu & _ & Hkey).
    destruct (elem_keys_dict_get _ _ Hkey) as [res Hr].
    assert (Hnotin : rid ∉ keys rest).
    { rewrite Hal in P1. unfold keys in *. simpl in P1.
      apply NoDup_cons in P1. tauto. }
    pose proof (release_inv s p rid u Hinv) as Hinv1.
    assert (Hcur : allocated_of s p rid = u).
    { unfold allocated_of, dict_get_or. by rewrite Hp, Hget. }
    destruct (proj2 (proj2 (release_effect s p rid u proc res Hp Hr)) Hu)
      as (s1 & Hrel & Hav & Hal1 & Havo & Htot & Hoth & Hrm); [lia|].
    rewrite Hrel in Hinv1. simpl in Hinv1.
    (* the process record after the release *)
    assert (Hs1 : exists proc1, dict_get (processes s1) p = Some proc1 /\
              allocated proc1 = rest /\ requested proc1 = requested proc /\
              max_claims proc1 = max_claims proc /\
              (forall q, q <> p ->
                 dict_get (processes s1) q = dict_get (processes s) q) /\
              keys (resources s1) = keys (resources s) /\
              keys (processes s1) = keys (processes s) /\
              length (event_log s1) = S (length (event_log s))).
    { revert Hrel. unfold release.
      rewrite (validate_ok _ _ _ _ _ Hp Hr), Hp, Hr.
      destruct (Z.leb_spec u 0) as [?|_]; [lia|].
      unfold dict_get_or. rewrite Hget.
      destruct (Z.ltb_spec u u) as [?|_]; [lia|].
      rewrite Z.sub_diag. intros [= <-].
      unfold log_event. cbn [resources processes event_log].
      eexists. split; [apply dict_get_set_eq|].
      cbn [allocated requested max_claims set_allocated].
      split.
      { rewrite Hal. simpl. rewrite String.eqb_refl. simpl.
        rewrite String.eqb_refl. by apply dict_del_absent. }
      split; [done|]. split; [done|]. split.
      { intros q Hq. by rewrite dict_get_set_ne. }
      split; [apply keys_set_present; by eapply dict_get_Some_key|].
      split; [apply keys_set_present; by eapply dict_get_Some_key|].
      rewrite length_app. simpl. lia. }
    destruct Hs1 as (proc1 & Hp1 & Hrest & Hrq1 & Hmc1 & Hq1 & Hk1 & Hkp1 & Hl1).
    destruct (IH s1 proc1 Hinv1 Hp1 Hrest)
      as (s' & proc' & Hall & Hinv' & Hp' & He & Hrq' & Hmc' & Hq' & Hav'
          & Htot' & Hk' & Hkp' & Hl').
    exists s', proc'. simpl. rewrite Hrel.
    split; [exact Hall|]. split; [done|]. split; [done|]. split; [done|].
    split; [congruence|]. split; [congruence|]. split.
    { intros q Hq. rewrite Hq' by done. by apply Hq1. }
    split.
    { intros r. rewrite Hav'.
      destruct (String.eqb_spec rid r) as [<-|Hne].
      - rewrite Hav. unfold dict_get_or at 1.
        assert (dict_get rest rid = None) as -> by (by apply dict_get_None).
        unfold dict_get_or. simpl. rewrite String.eqb_refl. lia.
      - rewrite Havo by done. unfold dict_get_or. simpl.
        destruct (String.eqb_spec rid r); [done|]. done. }
    split; [intros r; by rewrite Htot', Htot|].
    split; [congruence|]. split; [congruence|]. simpl. lia.
Qed.

Lemma remove_process_effect s p proc :
  state_inv s ->
  dict_get (processes s) p = Some proc ->
  exists s', remove_process s p = Return tt s' /\
    dict_get (processes s') p = None /\
    (forall q, q <> p -> dict_get (processes s') q = dict_get (processes s) q) /\
    (forall r, available_of s' r = available_of s r + allocated_of s p r) /\
    (forall r, total_of s' r = total_of s r) /\
    keys (resources s') = keys (resources s) /\
    length (event_log s')
      = S (length (event_log s) + length (allocated proc)) /\
    state_inv s'.
Proof.
  intros Hinv Hp.
  destruct (release_all_effects (allocated proc) p s proc Hinv Hp eq_refl)
    as (s1 & proc1 & Hall & Hinv1 & Hp1 & He & _ & _ & Hq & Hav & Htot & Hk
        & _ & Hl).
  pose proof (remove_process_inv s p Hinv) as Hinv'.
  unfold remove_process in *. rewrite Hp, Hall in *.
  eexists. split; [reflexivity|]. simpl in Hinv'.
  unfold log_event, available_of, total_of. cbn [resources processes event_log].
  split; [apply dict_get_del_eq|]. split.
  { intros q Hne. rewrite dict_get_del_ne by done. by apply Hq. }
  split.
  { intros r. specialize (Hav r). unfold available_of in Hav. rewrite Hav.
    unfold allocated_of. by rewrite Hp. }
  split; [intros r; apply Htot|]. split; [done|].
  split; [rewrite length_app; simpl; lia | exact Hinv'].
Qed.

(** In a state kept by the operations [remove_process] of an existing
    process never raises: the process is gone afterwards, every unit it held
    is available again, the other processes are untouched, and the event log
    grows by one release record per resource held plus one removal record. *)
Theorem remove_process_gives_back s p proc :
  state_inv s ->
  dict_get (processes s) p = Some proc ->
  exists s', remove_process s p = Return tt s' /\
    dict_get (processes s') p = None /\
    (forall q, q <> p -> dict_get (processes s') q = dict_get (processes s) q) /\
    (forall r, available_of s' r = available_of s r + allocated_of s p r) /\
    (forall r, total_of s' r = total_of s r) /\
    keys (resources s') = keys (resources s) /\
    length (event_log s')
      = S (length (event_log s) + length (allocated proc)) /\
    state_inv s'.
Proof. exact (remove_process_effect s p proc). Qed.

Lemma remove_process_gives_back_witness :
  exists s', remove_process exceeds_need_state "P1" = Return tt s' /\
    available_of s' "R1" = 10.
Proof.
  destruct (remove_process_gives_back exceeds_need_state "P1"
              (mkProcess "P1" [("R1", 5)] [("R1", 3)] [] 0))
    as (s' & H1 & _ & _ & H2 & _).
  - apply reachable_state_inv, reachable_run_ops, reachable_empty.
  - reflexivity.
  - exists s'. split; [exact H1|]. rewrite H2. reflexivity.
Defined.

(** ** state.py: every method is made of a few elementary changes *)

Lemma state_eta s : mkState (resources s) (processes s) (event_log s) = s.
Proof. by destruct s. Qed.

Lemma changes_trans s1 s2 s3 : changes s1 s2 -> changes s2 s3 -> changes s1 s3.
Proof.
  intros H12 H23. induction H23.
  - done.
  - by apply changes_log.
  - by eapply changes_process.
  - by eapply changes_resource.
  - by apply changes_delete.
  - by apply changes_new_resource.
  - by apply changes_new_process.
Qed.

Lemma changes_proc_only s p proc proc' :
  dict_get (processes s) p = Some proc ->
  max_claims proc' = max_claims proc ->
  p_id proc' = p_id proc ->
  priority proc' = priority proc ->
  changes s (mkState (resources s) (dict_set (processes s) p proc')
               (event_log s)).
Proof. intros. eapply changes_process; [apply changes_none|done..]. Qed.

Lemma changes_proc_res s p proc proc' r res res' :
  dict_get (processes s) p = Some proc ->
  max_claims proc' = max_claims proc ->
  p_id proc' = p_id proc ->
  priority proc' = priority proc ->
  dict_get (resources s) r = Some res ->
  total_units res' = total_units res ->
  r_id res' = r_id res ->
  changes s (mkState (dict_set (resources s) r res')
               (dict_set (processes s) p proc') (event_log s)).
Proof.
  intros Hp H1 H2 H3 Hr H4 H5.
  apply (changes_resource s
           (mkState (resources s) (dict_set (processes s) p proc')
              (event_log s)) r res res'); [|done..].
  by eapply changes_proc_only.
Qed.

Lemma clear_request_static p r u :
  p_id (clear_request p r u) = p_id p /\
  priority (clear_request p r u) = priority p.
Proof.
  unfold clear_request. destruct (dict_mem (requested p) r); [|done].
  by destruct (_ =? 0).
Qed.

Lemma add_resource_changes s r t : changes s (state_of (add_resource s r t)).
Proof.
  unfold add_resource. destruct (dict_mem (resources s) r) eqn:E;
    [apply changes_none|].
  destruct (Z.ltb_spec t 0); [apply changes_none|]. simpl.
  apply changes_log. apply changes_new_resource; [apply changes_none| |done].
  apply dict_get_None. by apply dict_mem_false.
Qed.

Lemma add_process_changes s p c prio :
  changes s (state_of (add_process s p c prio)).
Proof.
  unfold add_process. destruct (dict_mem (processes s) p) eqn:E;
    [apply changes_none|].
  destruct (check_max_claims s c) eqn:Hc; [apply changes_none|]. simpl.
  apply changes_log. apply changes_new_process; [apply changes_none| |done].
  apply dict_get_None. by apply dict_mem_false.
Qed.

Lemma request_changes s p r u : changes s (state_of (request s p r u)).
Proof.
  unfold request.
  destruct (validate_process_and_resource s p r) eqn:Hv; [apply changes_none|].
  destruct (validate_None_inv _ _ _ Hv) as [[proc Hp] _]. rewrite Hp.
  destruct (u <=? 0); [apply changes_none|].
  destruct (_ <? u); simpl; apply changes_log; [apply changes_none|].
  by eapply changes_proc_only.
Qed.

Lemma allocate_changes s p r u : changes s (state_of (allocate s p r u)).
Proof.
  unfold allocate.
  destruct (validate_process_and_resource s p r) eqn:Hv; [apply changes_none|].
  destruct (validate_None_inv _ _ _ Hv) as [[proc Hp] [res Hr]].
  rewrite Hp, Hr. destruct (u <? 0); [apply changes_none|].
  destruct (u =? 0); [apply changes_log, changes_none|].
  destruct (_ <? u); [apply changes_log, changes_none|].
  destruct (_ <? _); [apply changes_log, changes_none|].
  simpl. apply changes_log.
  set (proc1 := set_allocated proc _).
  destruct (clear_request_fields proc1 r u) as [Hmc _].
  destruct (clear_request_static proc1 r u) as [Hid Hprio].
  by eapply changes_proc_res.
Qed.

Lemma release_changes s p r u : changes s (state_of (release s p r u)).
Proof.
  unfold release.
  destruct (validate_process_and_resource s p r) eqn:Hv; [apply changes_none|].
  destruct (validate_None_inv _ _ _ Hv) as [[proc Hp] [res Hr]].
  rewrite Hp, Hr. destruct (u <=? 0); [apply changes_none|].
  destruct (_ <? u); [apply changes_log, changes_none|].
  simpl. apply changes_log. by eapply changes_proc_res.
Qed.

Lemma release_all_changes items p : forall s,
  changes s (state_of (release_all s p items)).
Proof.
  induction items as [|[r u] items IH]; intros s; simpl; [apply changes_none|].
  pose proof (release_changes s p r u) as H.
  destruct (release s p r u) as [b s1|e s1]; simpl in *; [|done].
  eapply changes_trans; [exact H | apply IH].
Qed.

Lemma remove_process_changes s p : changes s (state_of (remove_process s p)).
Proof.
  unfold remove_process.
  destruct (dict_get (processes s) p) as [proc|]; [|apply changes_none].
  pose proof (release_all_changes (allocated proc) p s) as H.
  destruct (release_all s p (allocated proc)) as [[] s1|e s1]; simpl in *;
    [|done].
  apply changes_log. by apply changes_delete.
Qed.

Lemma apply_op_changes s o : changes s (apply_op s o).
Proof.
  destruct o; simpl.
  - apply add_resource_changes.
  - apply add_process_changes.
  - apply request_changes.
  - apply allocate_changes.
  - apply release_changes.
  - apply remove_process_changes.
Qed.

(** ** state.py: the event log *)

Lemma log_ok_snoc lg ty kw :
  log_ok lg -> log_ok (lg ++ [mkLogEvent ty (length lg) kw]).
Proof.
  intros H i ev. destruct (decide (i < length lg)%nat) as [Hlt|Hge].
  - rewrite lookup_app_l by done. apply H.
  - rewrite lookup_app_r by lia.
    destruct (i - length lg)%nat as [|k] eqn:E; simpl; [|done].
    intros [= <-]. simpl. lia.
Qed.

Lemma changes_log_grows s s' :
  changes s s' ->
  (exists l, event_log s' = event_log s ++ l) /\
  (log_ok (event_log s) -> log_ok (event_log s')).
Proof.
  induction 1 as [|s1 ty kw _ [[l Hl] Hok]|s1 p proc proc' _ IH
                  |s1 r res res' _ IH|s1 p _ IH|s1 r t _ IH
                  |s1 p c prio _ IH]; simpl; try exact IH.
  - split; [exists []; by rewrite app_nil_r | done].
  - split.
    + exists (l ++ [mkLogEvent ty (length (event_log s1)) kw]).
      by rewrite Hl, app_assoc.
    + intros H0. by apply log_ok_snoc, Hok.
Qed.

(** The event log is append-only and its timestamps are the positions of
    the records: in every reachable state the i-th record has timestamp i,
    and every operation, whatever its outcome, keeps the old records as a
    prefix of the new log. *)
Theorem event_log_append_only s :
  reachable s ->
  log_ok (event_log s) /\
  (forall o, exists l, event_log (apply_op s o) = event_log s ++ l) /\
  (forall i j ei ej,
     event_log s !! i = Some ei -> event_log s !! j = Some ej ->
     (i < j)%nat -> (ev_timestamp ei < ev_timestamp ej)%nat).
Proof.
  intros Hs.
  assert (Hok : log_ok (event_log s)).
  { induction Hs as [|s o _ IH]; [by intros i ev|].
    apply (changes_log_grows s (apply_op s o)); [apply apply_op_changes | done]. }
  split; [done|]. split.
  - intros o. apply changes_log_grows, apply_op_changes.
  - intros i j ei ej Hi Hj Hlt. rewrite (Hok _ _ Hi), (Hok _ _ Hj). done.
Qed.

Lemma event_log_append_only_witness :
  log_ok (event_log exceeds_need_state).
Proof.
  refine (proj1 (event_log_append_only exceeds_need_state _)).
  apply reachable_run_ops, reachable_empty.
Defined.

(** ** state.py: bounds that hold in every reachable state *)

Lemma check_max_claims_None s items :
  check_max_claims s items = None <->
  (forall r u, (r, u) ∈ items ->
     exists res, dict_get (resources s) r = Some res /\ u <= total_units res).
Proof.
  induction items as [|[r0 u0] items IH]; simpl.
  - split; [|done]. intros _ r u H. by apply elem_of_nil in H.
  - destruct (dict_get (resources s) r0) as [res|] eqn:E.
    + destruct (Z.ltb_spec (total_units res) u0) as [Hlt|Hle].
      * split; [done|]. intros H.
        destruct (H r0 u0) as (res' & Hr & Hu); [by left|].
        rewrite E in Hr. injection Hr as <-. lia.
      * rewrite IH. split.
        -- intros H r u [[= -> ->]|Hin]%elem_of_cons; [eauto | by apply H].
        -- intros H r u Hin. apply H. by right.
    + split; [done|]. intros H.
      destruct (H r0 u0) as (res' & Hr & _); [by left|]. congruence.
Qed.

Lemma changes_bounds s s' : changes s s' -> bounds_inv s -> bounds_inv s'.
Proof.
  intros Hc Hb. induction Hc as [|s1 ty kw _ IH|s1 p proc proc' _ IH Hp Hmc Hid _
                                 |s1 r res res' _ IH Hr Htot Hid|s1 p _ IH
                                 |s1 r t _ IH Hr Ht|s1 p c prio _ IH Hp Hchk].
  - done.
  - destruct IH as [B1 B2 B3]. by constructor.
  - destruct IH as [B1 B2 B3]. constructor; simpl; [| done |].
    + intros p0 q r u. destruct (String.eqb_spec p p0) as [<-|Hne].
      * rewrite dict_get_set_eq. intros [= <-]. rewrite Hmc.
        by apply (B1 p proc).
      * rewrite dict_get_set_ne by done. apply B1.
    + intros p0 q. destruct (String.eqb_spec p p0) as [<-|Hne].
      * rewrite dict_get_set_eq. intros [= <-]. rewrite Hid. by apply B3.
      * rewrite dict_get_set_ne by done. apply B3.
  - destruct IH as [B1 B2 B3]. constructor; simpl; [| | done].
    + intros p0 q r0 u Hq Hin. destruct (B1 _ _ _ _ Hq Hin) as (res0 & Hr0 & Hu).
      destruct (String.eqb_spec r r0) as [<-|Hne].
      * rewrite dict_get_set_eq. exists res'. split; [done|]. congruence.
      * rewrite dict_get_set_ne by done. eauto.
    + intros r0 res0. destruct (String.eqb_spec r r0) as [<-|Hne].
      * rewrite dict_get_set_eq. intros [= <-]. rewrite Htot, Hid. by apply B2.
      * rewrite dict_get_set_ne by done. apply B2.
  - destruct IH as [B1 B2 B3]. constructor; simpl; [| done |].
    + intros p0 q r u. destruct (String.eqb_spec p p0) as [<-|Hne].
      * by rewrite dict_get_del_eq.
      * rewrite dict_get_del_ne by done. apply B1.
    + intros p0 q. destruct (String.eqb_spec p p0) as [<-|Hne].
      * by rewrite dict_get_del_eq.
      * rewrite dict_get_del_ne by done. apply B3.
  - destruct IH as [B1 B2 B3]. constructor; simpl; [| | done].
    + intros p0 q r0 u Hq Hin. destruct (B1 _ _ _ _ Hq Hin) as (res0 & Hr0 & Hu).
      destruct (String.eqb_spec r r0) as [<-|Hne]; [congruence|].
      rewrite dict_get_set_ne by done. eauto.
    + intros r0 res0. destruct (String.eqb_spec r r0) as [<-|Hne].
      * rewrite dict_get_set_eq. by intros [= <-].
      * rewrite dict_get_set_ne by done. apply B2.
  - destruct IH as [B1 B2 B3]. constructor; simpl; [| done |].
    + intros p0 q r u. destruct (String.eqb_spec p p0) as [<-|Hne].
      * rewrite dict_get_set_eq. intros [= <-]. simpl.
        by apply check_max_claims_None.
      * rewrite dict_get_set_ne by done. apply B1.
    + intros p0 q. destruct (String.eqb_spec p p0) as [<-|Hne].
      * rewrite dict_get_set_eq. by intros [= <-].
      * rewrite dict_get_set_ne by done. apply B3.
Qed.

Lemma changes_totals s s' :
  changes s s' ->
  forall r res, dict_get (resources s) r = Some res ->
    exists res', dict_get (resources s') r = Some res' /\
      total_units res' = total_units res.
Proof.
  induction 1 as [|s1 ty kw _ IH|s1 p proc proc' _ IH
                  |s1 r0 res0 res0' _ IH Hr0 Htot _|s1 p _ IH
                  |s1 r0 t _ IH Hr0 _|s1 p c prio _ IH];
    intros r res Hr; simpl; try (by apply IH); [by eauto| |].
  - destruct (IH _ _ Hr) as (res1 & Hr1 & Ht).
    destruct (String.eqb_spec r0 r) as [<-|Hne].
    + rewrite dict_get_set_eq. exists res0'. split; [done|]. congruence.
    + rewrite dict_get_set_ne by done. eauto.
  - destruct (IH _ _ Hr) as (res1 & Hr1 & Ht).
    destruct (String.eqb_spec r0 r) as [<-|Hne]; [congruence|].
    rewrite dict_get_set_ne by done. eauto.
Qed.

Lemma reachable_bounds_inv s : reachable s -> bounds_inv s.
Proof.
  induction 1 as [|s o _ IH].
  - constructor; simpl; intros; discriminate.
  - eapply changes_bounds; [apply apply_op_changes | done].
Qed.

Lemma state_inv_alloc_nonneg s rid k p :
  state_inv s -> (k, p) ∈ processes s ->
  0 <= dict_get_or (allocated p) rid 0.
Proof.
  intros Hinv Hin. apply elem_dict_get in Hin; [|by destruct Hinv].
  eapply dict_get_or_nonneg_alloc. by eapply si_procs.
Qed.

(** In every reachable state the available units of a resource lie between
    0 and its total, no process holds more of a resource than its total or
    than its own claim, every claim names an existing resource and is at
    most its total, and no operation removes a resource or changes a
    total. *)
Theorem reachable_bounds s :
  reachable s ->
  (forall r, 0 <= available_of s r <= total_of s r) /\
  (forall p r, 0 <= allocated_of s p r <= total_of s r) /\
  (forall p r, 0 < allocated_of s p r ->
     allocated_of s p r <= max_claims_of s p r <= total_of s r) /\
  (forall p proc r u, dict_get (processes s) p = Some proc ->
     (r, u) ∈ max_claims proc -> r ∈ keys (resources s) /\ u <= total_of s r) /\
  (forall o r, r ∈ keys (resources s) ->
     r ∈ keys (resources (apply_op s o)) /\
     total_of (apply_op s o) r = total_of s r).
Proof.
  intros Hs. pose proof (reachable_state_inv _ Hs) as Hinv.
  pose proof (reachable_bounds_inv _ Hs) as [B1 B2 B3].
  assert (Hsum : forall r, 0 <= sum_allocated s r).
  { intros r. apply sum_alloc_nonneg. intros k q Hq.
    by eapply state_inv_alloc_nonneg. }
  assert (Hav : forall r, 0 <= available_of s r <= total_of s r).
  { intros r. unfold available_of, total_of.
    destruct (dict_get (resources s) r) as [res|] eqn:Hr; [|lia].
    destruct (si_res _ Hinv _ _ Hr) as [H0 Hc]. specialize (Hsum r). lia. }
  assert (Hal : forall p r, 0 <= allocated_of s p r <= total_of s r).
  { intros p r. unfold allocated_of.
    destruct (dict_get (processes s) p) as [proc|] eqn:Hp.
    - pose proof (dict_get_or_nonneg_alloc _ _ r (si_procs _ Hinv _ _ Hp)) as H0.
      split; [done|].
      pose proof (sum_alloc_ge_one (processes s) r p proc
                    (fun k q Hq => state_inv_alloc_nonneg s r k q Hinv Hq)
                    (dict_get_elem _ _ _ Hp)) as Hone.
      unfold total_of.
      destruct (dict_get (resources s) r) as [res|] eqn:Hr.
      + destruct (si_res _ Hinv _ _ Hr) as [Ha Hc].
        unfold sum_allocated in Hc. lia.
      + destruct (dict_get (allocated proc) r) as [v|] eqn:E.
        * destruct (pi_alloc _ _ (si_procs _ Hinv _ _ Hp) _ _ E) as (_ & _ & Hk).
          apply elem_keys_dict_get in Hk as [? ?]. congruence.
        * unfold dict_get_or. rewrite E. lia.
    - specialize (Hav r). lia. }
  split; [done|]. split; [done|]. split; [|split].
  - intros p r Hpos. unfold allocated_of, max_claims_of, total_of in *.
    destruct (dict_get (processes s) p) as [proc|] eqn:Hp; [|lia].
    assert (Hget : dict_get (allocated proc) r
                   = Some (dict_get_or (allocated proc) r 0)).
    { apply (dict_get_or_pos_inv _ _ 0); [done | lia]. }
    destruct (pi_alloc _ _ (si_procs _ Hinv _ _ Hp) _ _ Hget) as (_ & Hle & _).
    split; [done|].
    assert (Hmc : dict_get (max_claims proc) r
                  = Some (dict_get_or (max_claims proc) r 0)).
    { apply (dict_get_or_pos_inv _ _ 0); [done | lia]. }
    apply dict_get_elem in Hmc.
    destruct (B1 _ _ _ _ Hp Hmc) as (res & Hr & Hu). by rewrite Hr.
  - intros p proc r u Hp Hin.
    destruct (B1 _ _ _ _ Hp Hin) as (res & Hr & Hu).
    split; [by eapply dict_get_Some_key|]. unfold total_of. by rewrite Hr.
  - intros o r Hr. apply elem_keys_dict_get in Hr as [res Hr].
    destruct (changes_totals _ _ (apply_op_changes s o) _ _ Hr)
      as (res' & Hr' & Ht).
    split; [by eapply dict_get_Some_key|].
    unfold total_of. by rewrite Hr, Hr'.
Qed.

Lemma reachable_bounds_witness :
  0 <= available_of exceeds_need_state "R1" <= total_of exceeds_need_state "R1".
Proof.
  refine (proj1 (reachable_bounds exceeds_need_state _) "R1").
  apply reachable_run_ops, reachable_empty.
Defined.

(** ** banker.py: the verdict of find_safe_sequence is exact *)

Lemma fold_give_back s l : forall w,
  fold_left
    (fun w pid =>
       match dict_get (processes s) pid with
       | Some proc => give_back (keys (resources s)) proc w
       | None => w
       end) l w
  = match l with
    | [] => w
    | p :: rest =>
        fold_left
          (fun w pid =>
             match dict_get (processes s) pid with
             | Some proc => give_back (keys (resources s)) proc w
             | None => w
             end) rest
          (match dict_get (processes s) p with
           | Some proc => give_back (keys (resources s)) proc w
           | None => w
           end)
    end.
Proof. by destruct l. Qed.

Lemma work_after_snoc s l p proc :
  dict_get (processes s) p = Some proc ->
  work_after s (l ++ [p])
  = give_back (keys (resources s)) proc (work_after s l).
Proof.
  intros Hp. unfold work_after. rewrite fold_left_app. simpl. by rewrite Hp.
Qed.

Lemma runs_to_completion_snoc rids procs l p : forall w,
  runs_to_completion rids procs w (l ++ [p])
  = (runs_to_completion rids procs w l &&
     match dict_get procs p with
     | Some proc =>
         can_finish rids proc
           (fold_left
              (fun w pid =>
                 match dict_get procs pid with
                 | Some proc => give_back rids proc w
                 | None => w
                 end) l w)
     | None => false
     end)%bool.
Proof.
  induction l as [|q l IH]; intros w; simpl.
  - destruct (dict_get procs p); [|done]. by rewrite andb_true_r.
  - destruct (dict_get procs q) as [qp|]; [|done].
    rewrite IH. by rewrite andb_assoc.
Qed.

Lemma banker_inv_init s : banker_inv s (banker_init s).
Proof.
  split; [exact (keys_init (fun _ => false) (processes s))|].
  split; [done|]. split; [apply NoDup_nil_2|]. split; [|done].
  intros p. simpl. unfold dict_get_or.
  rewrite (dict_get_init (fun _ : Process => false)).
  split; [by destruct (dict_get (processes s) p) | by intros ?%elem_of_nil].
Qed.

Lemma banker_inv_visit s v p proc :
  NoDup (keys (processes s)) ->
  (p, proc) ∈ processes s ->
  banker_inv s v ->
  banker_inv s (visit (keys (resources s)) v (p, proc)).
Proof.
  intros Hnd Hin Hinv. pose proof Hinv as (Hk & Hw & Hnds & Hfin & Hrun).
  assert (Hp : dict_get (processes s) p = Some proc) by (by apply elem_dict_get).
  assert (Hpk : p ∈ keys (finish v)).
  { rewrite Hk. by eapply dict_get_Some_key. }
  destruct (visit_cases (keys (resources s)) v p proc Hpk)
    as [->|(Hf & Hc & ->)]; [done|].
  assert (Hnot : p ∉ safe_sequence v).
  { intros H. apply Hfin in H. unfold dict_get_or in H. by rewrite Hf in H. }
  split; [|split; [|split; [|split]]]; simpl.
  - rewrite <- Hk. by apply keys_set_present.
  - rewrite (work_after_snoc _ _ _ _ Hp). by rewrite Hw.
  - apply NoDup_app. split; [done|]. split; [|apply NoDup_singleton].
    intros x Hx ->%list_elem_of_singleton. done.
  - intros q. rewrite elem_of_app, list_elem_of_singleton.
    destruct (String.eqb_spec p q) as [<-|Hne].
    + rewrite dict_get_or_set_eq. naive_solver.
    + rewrite dict_get_or_set_ne by done. rewrite Hfin. naive_solver.
  - change (runs_to_completion (keys (resources s)) (processes s)
              (work (banker_init s)) (safe_sequence v ++ [p]) = true).
    rewrite runs_to_completion_snoc, Hrun, Hp.
    change (can_finish (keys (resources s)) proc
              (work_after s (safe_sequence v)) = true).
    by rewrite <- Hw.
Qed.

Lemma banker_inv_sweep s (l : dict Process) : forall v,
  NoDup (keys (processes s)) ->
  (forall kv, kv ∈ l -> kv ∈ processes s) ->
  banker_inv s v ->
  banker_inv s (sweep (keys (resources s)) l v).
Proof.
  induction l as [|[p proc] l IH]; intros v Hnd Hsub Hinv; [done|].
  rewrite sweep_cons. apply IH; [done| |].
  - intros kv Hkv. apply Hsub. by right.
  - apply banker_inv_visit; [done| |done]. apply Hsub. by left.
Qed.

Lemma banker_inv_loop s fuel : forall v vf n,
  NoDup (keys (processes s)) ->
  banker_inv s v ->
  banker_loop fuel (keys (resources s)) (processes s) v = Some (vf, n) ->
  banker_inv s vf.
Proof.
  induction fuel as [|fuel IH]; intros v vf n Hnd Hinv; simpl; [done|].
  assert (Hinv' : banker_inv s
                    (sweep (keys (resources s)) (processes s)
                       (clear_progress v))).
  { apply banker_inv_sweep; [done|done|exact Hinv]. }
  destruct (progress _).
  - destruct (banker_loop fuel _ _ _) as [[vf' n']|] eqn:E; [|done].
    intros [= <- <-]. by eapply IH.
  - by intros [= <- <-].
Qed.

Lemma finish_all_true s v :
  banker_inv s v ->
  forallb (fun b => b) (values (finish v)) = true ->
  forall p, p ∈ keys (processes s) -> p ∈ safe_sequence v.
Proof.
  intros (Hk & _ & _ & Hfin & _) Hall p Hp. apply Hfin.
  rewrite <- Hk in Hp. apply elem_keys_dict_get in Hp as [b Hb].
  unfold dict_get_or. rewrite Hb.
  rewrite forallb_forall in Hall. apply Hall.
  apply list_elem_of_In. unfold values.
  apply dict_get_elem in Hb. by apply (list_elem_of_fmap_2 snd _ (p, b)).
Qed.

Lemma runs_to_completion_known rids procs seq : forall w,
  runs_to_completion rids procs w seq = true ->
  forall p, p ∈ seq -> p ∈ keys procs.
Proof.
  induction seq as [|q seq IH]; intros w; simpl.
  - intros _ p H. by apply elem_of_nil in H.
  - destruct (dict_get procs q) as [qp|] eqn:E; [|done].
    intros [_ Hr]%andb_true_iff p [->|Hp]%elem_of_cons.
    + by eapply dict_get_Some_key.
    + by eapply IH.
Qed.

Lemma banker_verdict_sound s :
  NoDup (keys (processes s)) ->
  (forall seq, find_safe_sequence s = (true, Some seq) -> safe_order s seq) /\
  (fst (find_safe_sequence s) = true <->
   exists seq, snd (find_safe_sequence s) = Some seq) /\
  (fst (find_safe_sequence s) = false <-> snd (find_safe_sequence s) = None).
Proof.
  intros Hnd. unfold find_safe_sequence.
  destruct (processes s) as [|kv0 rest] eqn:Hprocs.
  { split; [|split; [split; eauto|split; done]].
    intros seq [= <-]. unfold safe_order. rewrite Hprocs. by split. }
  rewrite <- Hprocs in *. clear kv0 rest Hprocs.
  destruct (banker_run s) as [[v n]|] eqn:Hrun.
  - pose proof (banker_inv_loop s _ _ _ _ Hnd (banker_inv_init s) Hrun) as Hinv.
    destruct (forallb (fun b => b) (values (finish v))) eqn:Hall.
    + split; [|split; [split; eauto|split; done]].
      intros seq [= <-]. pose proof Hinv as (_ & _ & Hnds & _ & Hr).
      split; [|done]. apply NoDup_Permutation; [done|done|].
      intros p. split.
      * by eapply runs_to_completion_known.
      * by eapply finish_all_true.
    + split; [done|]. split; [split; [done|by intros [? ?]]|done].
  - split; [done|]. split; [split; [done|by intros [? ?]]|done].
Qed.

(** Soundness of the safety check: when [find_safe_sequence] reports a safe
    state, the sequence it returns lists every process exactly once and can
    be run to completion in that order; it returns a sequence exactly when
    it reports a safe state. *)
Theorem find_safe_sequence_sound s :
  NoDup (keys (processes s)) ->
  (forall seq, find_safe_sequence s = (true, Some seq) -> safe_order s seq) /\
  (fst (find_safe_sequence s) = true <->
   exists seq, snd (find_safe_sequence s) = Some seq) /\
  (fst (find_safe_sequence s) = false <-> snd (find_safe_sequence s) = None).
Proof. exact (banker_verdict_sound s). Qed.

Lemma find_safe_sequence_sound_witness :
  safe_order banker_three_state ["P2"; "P3"; "P1"].
Proof.
  apply (proj1 (find_safe_sequence_sound banker_three_state
                  ltac:(vm_compute; repeat constructor; set_solver))).
  vm_compute. reflexivity.
Defined.

Lemma progress_sticky rids (l : dict Process) : forall v,
  progress v = true -> progress (sweep rids l v) = true.
Proof.
  induction l as [|[p proc] l IH]; intros v Hp; [done|].
  rewrite sweep_cons. apply IH. unfold visit.
  destruct (dict_get_or (finish v) p false); [done|].
  by destruct (can_finish rids proc (work v)).
Qed.

(** A pass that ends with [progress = False] met no process it could
    finish. *)
Lemma sweep_no_progress rids (l : dict Process) : forall v,
  progress (sweep rids l v) = false ->
  sweep rids l v = v /\
  forall p proc, (p, proc) ∈ l ->
    dict_get_or (finish v) p false = false ->
    can_finish rids proc (work v) = false.
Proof.
  induction l as [|[q qp] l IH]; intros v Hp.
  - split; [done|]. by intros p proc ?%elem_of_nil.
  - rewrite sweep_cons in *.
    assert (Hv : visit rids v (q, qp) = v /\
                 (dict_get_or (finish v) q false = false ->
                  can_finish rids qp (work v) = false)).
    { unfold visit in *.
      destruct (dict_get_or (finish v) q false); [done|].
      destruct (can_finish rids qp (work v)); [|done].
      rewrite progress_sticky in Hp; done. }
    destruct Hv as [Hv Hq]. rewrite Hv in *.
    destruct (IH v Hp) as [-> Hrest]. split; [done|].
    intros p proc [[= -> ->]|Hin]%elem_of_cons; [done | by apply Hrest].
Qed.

Lemma banker_loop_stuck s fuel : forall v vf n,
  banker_loop fuel (keys (resources s)) (processes s) v = Some (vf, n) ->
  stuck s vf.
Proof.
  induction fuel as [|fuel IH]; intros v vf n; simpl; [done|].
  destruct (progress _) eqn:Hp.
  - destruct (banker_loop fuel _ _ _) as [[vf' n']|] eqn:E; [|done].
    intros [= <- <-]. by eapply IH.
  - intros [= <- <-].
    destruct (sweep_no_progress _ _ _ Hp) as [-> Hstuck].
    intros p proc Hin Hf. by apply (Hstuck p proc).
Qed.

Lemma fold_work_get s rid l : forall w,
  NoDup (keys (resources s)) -> rid ∈ keys (resources s) ->
  dict_get_or
    (fold_left
       (fun w pid =>
          match dict_get (processes s) pid with
          | Some proc => give_back (keys (resources s)) proc w
          | None => w
          end) l w) rid 0
  = dict_get_or w rid 0 + held_by s l rid.
Proof.
  induction l as [|p l IH]; intros w Hnd Hin; simpl; [lia|].
  rewrite IH by done. unfold allocated_of.
  destruct (dict_get (processes s) p) as [proc|]; [|lia].
  rewrite give_back_get by done. lia.
Qed.

Lemma held_by_mono s rid l k :
  (forall p, 0 <= allocated_of s p rid) ->
  l ⊆+ k -> held_by s l rid <= held_by s k rid.
Proof.
  intros Hnn. induction 1 as [|x l k _ IH|x y l|x l k _ IH|l k m _ IH1 _ IH2];
    simpl; try lia.
  pose proof (Hnn x). lia.
Qed.

Lemma allocated_of_nonneg s p r : state_inv s -> 0 <= allocated_of s p r.
Proof.
  intros Hinv. unfold allocated_of.
  destruct (dict_get (processes s) p) as [proc|] eqn:Hp; [|lia].
  eapply dict_get_or_nonneg_alloc. by eapply si_procs.
Qed.

Lemma can_finish_mono rids proc w w' :
  (forall rid, rid ∈ rids -> dict_get_or w rid 0 <= dict_get_or w' rid 0) ->
  can_finish rids proc w = true -> can_finish rids proc w' = true.
Proof.
  unfold can_finish. rewrite !forallb_forall. intros Hle H rid Hin.
  specialize (H rid Hin). apply list_elem_of_In in Hin.
  specialize (Hle rid Hin).
  apply negb_true_iff, Z.ltb_ge in H. apply negb_true_iff, Z.ltb_ge. lia.
Qed.

Lemma first_false (P : string -> bool) l x :
  x ∈ l -> P x = false ->
  exists pre q post, l = pre ++ q :: post /\ P q = false /\
    forall y, y ∈ pre -> P y = true.
Proof.
  induction l as [|a l IH]; intros Hin Hx; [by apply elem_of_nil in Hin|].
  destruct (P a) eqn:Ha.
  - apply elem_of_cons in Hin as [->|Hin]; [congruence|].
    destruct (IH Hin Hx) as (pre & q & post & -> & Hq & Hpre).
    exists (a :: pre), q, post. split; [done|]. split; [done|].
    intros y [->|Hy]%elem_of_cons; [done | by apply Hpre].
  - exists [], a, l. split; [done|]. split; [done|].
    by intros y ?%elem_of_nil.
Qed.

Lemma runs_to_completion_prefix rids procs pre q post : forall w,
  runs_to_completion rids procs w (pre ++ q :: post) = true ->
  exists proc, dict_get procs q = Some proc /\
    can_finish rids proc
      (fold_left
         (fun w pid =>
            match dict_get procs pid with
            | Some proc => give_back rids proc w
            | None => w
            end) pre w) = true.
Proof.
  induction pre as [|a pre IH]; intros w; simpl.
  - destruct (dict_get procs q) as [proc|]; [|done].
    intros [H _]%andb_true_iff. by exists proc.
  - destruct (dict_get procs a) as [ap|]; [|done].
    intros [_ H]%andb_true_iff. by apply IH.
Qed.

Lemma banker_verdict_complete s :
  state_inv s ->
  (fst (find_safe_sequence s) = true <-> exists seq, safe_order s seq).
Proof.
  intros Hinv. pose proof (si_proc_nodup s Hinv) as Hnd.
  pose proof (si_res_nodup s Hinv) as Hndr.
  split.
  { intros Hsafe.
    destruct (banker_verdict_sound s Hnd) as (Hsound & Hsome & _).
    destruct (proj1 Hsome Hsafe) as [seq Hseq]. exists seq. apply Hsound.
    destruct (find_safe_sequence s) as [b o]. simpl in *. congruence. }
  intros (sigma & Hperm & Hruns). unfold find_safe_sequence.
  destruct (processes s) as [|kv0 rest] eqn:Hprocs; [done|].
  rewrite <- Hprocs in *. clear kv0 rest Hprocs.
  destruct (banker_loop_terminates (keys (resources s)) (processes s)
              (banker_fuel s) (banker_init s))
    as (v & n & Hrun & _ & _ & _).
  { exact (keys_init (fun _ => false) (processes s)). }
  { unfold banker_fuel. simpl. rewrite unfinished_init. lia. }
  unfold banker_run. rewrite Hrun.
  pose proof (banker_inv_loop s _ _ _ _ Hnd (banker_inv_init s) Hrun)
    as (Hk & Hw & Hnds & Hfin & _).
  pose proof (banker_loop_stuck s _ _ _ _ Hrun) as Hstuck.
  cut (forallb (fun b => b) (values (finish v)) = true).
  { by intros ->. }
  apply forallb_forall. intros b Hb. apply list_elem_of_In in Hb.
  unfold values in Hb. apply list_elem_of_fmap in Hb as ([p b'] & -> & Hpb).
  simpl. destruct b'; [done|]. exfalso.
  assert (Hget : dict_get (finish v) p = Some false).
  { apply elem_dict_get; [by rewrite Hk | done]. }
  assert (Hpf : dict_get_or (finish v) p false = false).
  { unfold dict_get_or. by rewrite Hget. }
  assert (Hps : p ∈ sigma).
  { rewrite Hperm, <- Hk. by eapply dict_get_Some_key. }
  destruct (first_false (fun x => dict_get_or (finish v) x false) sigma p
              Hps Hpf) as (pre & q & post & -> & Hq & Hpre).
  destruct (runs_to_completion_prefix _ _ _ _ _ _ Hruns) as (proc & Hqp & Hc).
  assert (Hnds' : NoDup (pre ++ q :: post)) by (by rewrite Hperm).
  apply NoDup_app in Hnds' as (Hndpre & _ & _).
  assert (Hsub : pre ⊆+ safe_sequence v).
  { apply NoDup_submseteq; [done|]. intros y Hy. apply Hfin. by apply Hpre. }
  apply (can_finish_mono _ _ _ (work v)) in Hc.
  - rewrite (Hstuck q proc) in Hc; [done| |done]. by apply dict_get_elem.
  - intros rid Hrid. rewrite Hw. unfold work_after.
    rewrite !fold_work_get by done.
    pose proof (held_by_mono s rid _ _
                  (fun p => allocated_of_nonneg s p rid Hinv) Hsub). lia.
Qed.

(** The safety check is exact: on a state that satisfies the state
    invariant, [find_safe_sequence] reports a safe state exactly when some
    order exists in which all processes can run to completion (it never
    misses one by finishing processes greedily in insertion order). *)
Theorem find_safe_sequence_complete s :
  state_inv s ->
  (fst (find_safe_sequence s) = true <-> exists seq, safe_order s seq).
Proof. exact (banker_verdict_complete s). Qed.

Lemma find_safe_sequence_complete_witness :
  state_inv banker_three_state /\
  (fst (find_safe_sequence banker_three_state) = true <->
   exists seq, safe_order banker_three_state seq).
Proof.
  assert (H : state_inv banker_three_state).
  { apply reachable_state_inv. apply reachable_run_ops. constructor. }
  split; [exact H | exact (find_safe_sequence_complete banker_three_state H)].
Defined.

(** ** banker.py: what is_safe_state decides for a request *)

(** An allocation of [u >= 0] units that fits the available units and the
    claim is granted; it moves [u] units and keeps the ids. *)
Lemma allocate_grant s p r u proc res :
  dict_get (processes s) p = Some proc ->
  dict_get (resources s) r = Some res ->
  0 <= u -> u <= available_of s r ->
  allocated_of s p r + u <= max_claims_of s p r ->
  exists s', allocate s p r u = Return true s' /\
    keys (processes s') = keys (processes s) /\
    keys (resources s') = keys (resources s) /\
    (forall r', available_of s' r'
                = available_of s r' - (if String.eqb r r' then u else 0)) /\
    (forall r', allocated_of s' p r'
                = allocated_of s p r' + (if String.eqb r r' then u else 0)) /\
    (forall p' r', p' <> p -> allocated_of s' p' r' = allocated_of s p' r') /\
    (forall p' r', max_claims_of s' p' r' = max_claims_of s p' r') /\
    (forall r', total_of s' r' = total_of s r').
Proof.
  intros Hp Hr Hu Hav Hmax.
  destruct (Z.eq_dec u 0) as [->|Hne].
  { unfold allocate. rewrite (validate_ok _ _ _ _ _ Hp Hr), Hp, Hr. simpl.
    eexists. split; [done|]. unfold log_event, available_of, allocated_of,
      max_claims_of, total_of. cbn [resources processes].
    repeat split; try done.
    - intros r'. destruct (String.eqb r r'); lia.
    - intros r'. destruct (String.eqb r r'); lia. }
  assert (Hex : exists s', allocate s p r u = Return true s' /\
                  keys (processes s') = keys (processes s) /\
                  keys (resources s') = keys (resources s)).
  { unfold allocate, available_of, allocated_of, max_claims_of in *.
    rewrite (validate_ok _ _ _ _ _ Hp Hr), Hp, Hr in *.
    destruct (Z.ltb_spec u 0) as [?|_]; [lia|].
    destruct (Z.eqb_spec u 0) as [?|_]; [lia|].
    destruct (Z.ltb_spec (available_units res) u) as [?|_]; [lia|].
    destruct (Z.ltb_spec (dict_get_or (max_claims proc) r 0)
                (dict_get_or (allocated proc) r 0 + u)) as [?|_]; [lia|].
    eexists. split; [done|]. unfold log_event. cbn [resources processes].
    split; apply keys_set_present; by eapply dict_get_Some_key. }
  destruct Hex as (s' & Ha & Hkp & Hkr). exists s'.
  split; [done|]. split; [done|]. split; [done|].
  destruct (allocate_effect _ _ _ _ _ Ha ltac:(lia))
    as (_ & _ & Hav' & Hal' & _ & Havo & Htot & Hoth & Hmc).
  repeat split; try done.
  - intros r'. destruct (String.eqb_spec r r') as [<-|Hn]; [done|].
    rewrite Havo by done. lia.
  - intros r'. destruct (String.eqb_spec r r') as [<-|Hn]; [done|].
    rewrite (proj1 (Hoth p r' ltac:(congruence))). lia.
  - intros p' r' Hn. apply Hoth. congruence.
Qed.

Lemma dict_get_or_cons {V} (k k' : string) (v dflt : V) d :
  dict_get_or ((k, v) :: d) k' dflt
  = if String.eqb k k' then v else dict_get_or d k' dflt.
Proof. unfold dict_get_or. simpl. by destruct (String.eqb k k'). Qed.

Lemma dict_get_or_absent {V} (d : dict V) k dflt :
  k ∉ keys d -> dict_get_or d k dflt = dflt.
Proof. intros H%dict_get_None. unfold dict_get_or. by rewrite H. Qed.

(** The tentative allocation of a request whose items all fit is never
    refused (the amounts of distinct resources do not interfere). *)
Lemma tentative_allocate_grant p (items : dict Z) : forall s,
  p ∈ keys (processes s) ->
  NoDup (keys items) ->
  (forall r u, (r, u) ∈ items ->
     r ∈ keys (resources s) /\ 0 <= u /\ u <= available_of s r /\
     allocated_of s p r + u <= max_claims_of s p r) ->
  exists s', tentative_allocate s p items = Return true s' /\
    keys (processes s') = keys (processes s) /\
    keys (resources s') = keys (resources s) /\
    (forall r, available_of s' r = available_of s r - dict_get_or items r 0) /\
    (forall r, allocated_of s' p r
               = allocated_of s p r + dict_get_or items r 0) /\
    (forall p' r, p' <> p -> allocated_of s' p' r = allocated_of s p' r) /\
    (forall p' r, max_claims_of s' p' r = max_claims_of s p' r) /\
    (forall r, total_of s' r = total_of s r).
Proof.
  induction items as [|[r u] items IH]; intros s Hp Hnd Hfit.
  - exists s. simpl. repeat split; try done; intros; unfold dict_get_or;
      simpl; lia.
  - apply NoDup_cons in Hnd as [Hnotin Hnd].
    destruct (Hfit r u ltac:(by left)) as (Hr & Hu & Hav & Hmax).
    apply elem_keys_dict_get in Hp as [proc Hproc].
    apply elem_keys_dict_get in Hr as [res Hres].
    destruct (allocate_grant s p r u proc res Hproc Hres Hu Hav Hmax)
      as (s1 & Ha & Hkp & Hkr & Hav1 & Hal1 & Hoth1 & Hmc1 & Htot1).
    destruct (IH s1) as (s' & Ht & Hkp' & Hkr' & Hav' & Hal' & Hoth' & Hmc'
                         & Htot').
    { rewrite Hkp. by eapply dict_get_Some_key. }
    { done. }
    { intros r' u' Hin. destruct (Hfit r' u' ltac:(by right))
        as (Hr' & Hu' & Hav2 & Hmax2).
      assert (Hne : r <> r').
      { intros ->. apply Hnotin. unfold keys.
        by apply (list_elem_of_fmap_2 fst _ (r', u')). }
      apply String.eqb_neq in Hne.
      rewrite Hkr, Hav1, Hal1, Hmc1, Hne. repeat split; [done|lia|lia|lia]. }
    exists s'. simpl. rewrite Ha. split; [done|].
    split; [congruence|]. split; [congruence|].
    repeat split.
    + intros r'. rewrite Hav', Hav1, dict_get_or_cons.
      destruct (String.eqb_spec r r') as [<-|Hne]; [|lia].
      rewrite (dict_get_or_absent items r) by done. lia.
    + intros r'. rewrite Hal', Hal1, dict_get_or_cons.
      destruct (String.eqb_spec r r') as [<-|Hne]; [|lia].
      rewrite (dict_get_or_absent items r) by done. lia.
    + intros p' r' Hne. by rewrite Hoth', Hoth1.
    + intros p' r'. by rewrite Hmc', Hmc1.
    + intros r'. by rewrite Htot', Htot1.
Qed.

(** When an item with a negative amount follows items that fit, the
    tentative allocation raises. *)
Lemma tentative_allocate_negative p (items : dict Z) : forall s,
  p ∈ keys (processes s) ->
  NoDup (keys items) ->
  (forall r u, (r, u) ∈ items ->
     r ∈ keys (resources s) /\ u <= available_of s r /\
     allocated_of s p r + u <= max_claims_of s p r) ->
  (exists r u, (r, u) ∈ items /\ u < 0) ->
  exists s', tentative_allocate s p items = Raise ValueError s'.
Proof.
  induction items as [|[r u] items IH]; intros s Hp Hnd Hfit (r0 & u0 & Hin & Hneg).
  - by apply elem_of_nil in Hin.
  - apply NoDup_cons in Hnd as [Hnotin Hnd].
    destruct (Hfit r u ltac:(by left)) as (Hr & Hav & Hmax).
    pose proof Hp as Hp0.
    apply elem_keys_dict_get in Hp as [proc Hproc].
    apply elem_keys_dict_get in Hr as [res Hres].
    destruct (Z.lt_ge_cases u 0) as [Hu|Hu].
    { exists s. simpl. unfold allocate.
      rewrite (validate_ok _ _ _ _ _ Hproc Hres), Hproc, Hres.
      by destruct (Z.ltb_spec u 0) as [_|?]; [|lia]. }
    destruct (allocate_grant s p r u proc res Hproc Hres Hu Hav Hmax)
      as (s1 & Ha & Hkp & Hkr & Hav1 & Hal1 & Hoth1 & Hmc1 & Htot1).
    destruct (IH s1) as [s' Ht].
    { by rewrite Hkp. }
    { done. }
    { intros r' u' Hin'. destruct (Hfit r' u' ltac:(by right))
        as (Hr' & Hav2 & Hmax2).
      assert (Hne : r <> r').
      { intros ->. apply Hnotin. unfold keys.
        by apply (list_elem_of_fmap_2 fst _ (r', u')). }
      apply String.eqb_neq in Hne.
      rewrite Hkr, Hav1, Hal1, Hmc1, Hne. repeat split; [done|lia|lia]. }
    { apply elem_of_cons in Hin as [[= -> ->]|Hin]; [lia|]. eauto. }
    exists s'. simpl. by rewrite Ha.
Qed.

Lemma check_request_true s proc (items : dict Z) :
  check_request s proc items = Ok true <->
  forall r u, (r, u) ∈ items ->
    u <= need proc r /\
    exists res, dict_get (resources s) r = Some res /\
      u <= available_units res.
Proof.
  induction items as [|[r u] items IH]; simpl.
  - split; [by intros _ r u ?%elem_of_nil | done].
  - unfold get_available.
    destruct (Z.ltb_spec (need proc r) u) as [Hn|Hn].
    { split; [done|]. intros H. destruct (H r u ltac:(by left)). lia. }
    destruct (dict_get (resources s) r) as [res|] eqn:Hr.
    2:{ split; [done|]. intros H.
        destruct (H r u ltac:(by left)) as (_ & res' & Hres' & _).
        congruence. }
    destruct (Z.ltb_spec (available_units res) u) as [Ha|Ha].
    { split; [done|]. intros H.
      destruct (H r u ltac:(by left)) as (_ & res' & Hres' & ?).
      assert (res' = res) by congruence. subst. lia. }
    rewrite IH. split.
    + intros H r' u' [[= -> ->]|Hin]%elem_of_cons; [eauto | by apply H].
    + intros H r' u' Hin. apply H. by right.
Qed.

(** With every requested resource known, the first loop answers false as
    soon as some item exceeds the need or the available units. *)
Lemma check_request_false s proc (items : dict Z) :
  (forall r u, (r, u) ∈ items -> r ∈ keys (resources s)) ->
  (exists r u, (r, u) ∈ items /\
     (need proc r < u \/ available_of s r < u)) ->
  check_request s proc items = Ok false.
Proof.
  induction items as [|[r u] items IH]; intros Hk (r0 & u0 & Hin & Hbad).
  - by apply elem_of_nil in Hin.
  - simpl. destruct (Z.ltb_spec (need proc r) u) as [Hn|Hn]; [done|].
    destruct (elem_keys_dict_get _ _ (Hk r u ltac:(by left))) as [res Hr].
    unfold get_available. rewrite Hr.
    destruct (Z.ltb_spec (available_units res) u) as [Ha|Ha]; [done|].
    apply IH; [intros r' u' ?; apply (Hk r' u'); by right|].
    apply elem_of_cons in Hin as [[= -> ->]|Hin]; [|eauto].
    unfold available_of in Hbad. rewrite Hr in Hbad. lia.
Qed.

(** What [is_safe_state] answers for a request of an existing process that
    names known resources, each once: it answers unsafe as soon as an item
    exceeds the remaining need or the available units; when all items fit
    but one amount is negative it raises; and when all items fit with
    non-negative amounts, the tentative allocation is never refused and the
    answer is the verdict of the safety check on the state in which exactly
    the requested amounts have moved from the available units to the
    process. *)
Theorem is_safe_state_request s p proc (items : dict Z) :
  dict_get (processes s) p = Some proc ->
  p <> "" -> items <> [] -> NoDup (keys items) ->
  (forall r u, (r, u) ∈ items -> r ∈ keys (resources s)) ->
  ((exists r u, (r, u) ∈ items /\
      (need_of s p r < u \/ available_of s r < u)) ->
   is_safe_state s (Some p) (Some items) = Ok (false, None)) /\
  ((forall r u, (r, u) ∈ items ->
      u <= need_of s p r /\ u <= available_of s r) ->
   (exists r u, (r, u) ∈ items /\ u < 0) ->
   is_safe_state s (Some p) (Some items) = Err ValueError) /\
  ((forall r u, (r, u) ∈ items ->
      0 <= u /\ u <= need_of s p r /\ u <= available_of s r) ->
   exists s',
     is_safe_state s (Some p) (Some items) = Ok (find_safe_sequence s') /\
     keys (processes s') = keys (processes s) /\
     keys (resources s') = keys (resources s) /\
     (forall r, available_of s' r = available_of s r - dict_get_or items r 0) /\
     (forall r, allocated_of s' p r
                = allocated_of s p r + dict_get_or items r 0) /\
     (forall p' r, p' <> p -> allocated_of s' p' r = allocated_of s p' r) /\
     (forall p' r, max_claims_of s' p' r = max_claims_of s p' r) /\
     (forall r, total_of s' r = total_of s r)).
Proof.
  intros Hp Hne Hitems Hnd Hknown.
  assert (Hneed : forall r, need proc r = need_of s p r).
  { intros r. unfold need, need_of, max_claims_of, allocated_of.
    by rewrite Hp. }
  assert (Hpk : p ∈ keys (processes s)) by (by eapply dict_get_Some_key).
  assert (Hcond : (String.eqb p "" ||
                   match items with [] => true | _ => false end)%bool = false).
  { apply String.eqb_neq in Hne. rewrite Hne. by destruct items. }
  unfold is_safe_state. rewrite Hcond, Hp.
  split; [|split].
  - intros (r & u & Hin & Hbad).
    rewrite (check_request_false s proc items Hknown); [done|].
    exists r, u. by rewrite Hneed.
  - intros Hfit Hneg.
    assert (Hc : check_request s proc items = Ok true).
    { apply check_request_true. intros r u Hin.
      destruct (Hfit r u Hin) as [H1 H2]. rewrite Hneed. split; [done|].
      destruct (elem_keys_dict_get _ _ (Hknown r u Hin)) as [res Hr].
      exists res. split; [done|]. unfold available_of in H2.
      by rewrite Hr in H2. }
    rewrite Hc.
    destruct (tentative_allocate_negative p items s Hpk Hnd) as [s' ->];
      [|done|done].
    intros r u Hin. destruct (Hfit r u Hin) as [H1 H2].
    split; [by eapply Hknown|]. split; [done|]. unfold need_of in H1. lia.
  - intros Hfit.
    assert (Hc : check_request s proc items = Ok true).
    { apply check_request_true. intros r u Hin.
      destruct (Hfit r u Hin) as (_ & H1 & H2). rewrite Hneed. split; [done|].
      destruct (elem_keys_dict_get _ _ (Hknown r u Hin)) as [res Hr].
      exists res. split; [done|]. unfold available_of in H2.
      by rewrite Hr in H2. }
    rewrite Hc.
    destruct (tentative_allocate_grant p items s Hpk Hnd) as (s' & -> & Hrest).
    { intros r u Hin. destruct (Hfit r u Hin) as (H0 & H1 & H2).
      split; [by eapply Hknown|]. split; [done|]. split; [done|].
      unfold need_of in H1. lia. }
    by exists s'.
Qed.

Lemma is_safe_state_request_witness :
  is_safe_state unsafe_grant_state (Some "P1") (Some [("R1", 4)])
  = Ok (false, None).
Proof.
  refine (proj1 (is_safe_state_request unsafe_grant_state "P1" _ [("R1", 4)]
                   eq_refl _ _ _ _) _).
  - done.
  - done.
  - apply NoDup_singleton.
  - intros r u [= -> ->]%list_elem_of_singleton. vm_compute. set_solver.
  - exists "R1", 4. split; [by left|]. vm_compute. by left.
Defined.

(** ** banker.py: get_banker_decision against is_safe_state *)

Lemma find_safe_sequence_unsafe_none s seq :
  find_safe_sequence s = (false, seq) -> seq = None.
Proof.
  unfold find_safe_sequence. destruct (processes s); [done|].
  destruct (banker_run s) as [[v n]|]; [|by intros [= <-]].
  destruct (forallb _ _); [done | by intros [= <-]].
Qed.

Lemma is_safe_state_unsafe_none s process req seq :
  is_safe_state s process req = Ok (false, seq) -> seq = None.
Proof.
  unfold is_safe_state. intros H.
  repeat match type of H with
  | Ok (find_safe_sequence _) = _ =>
      injection H as H; by apply find_safe_sequence_unsafe_none in H
  | Ok (false, None) = _ => by injection H as <-
  | Err _ = _ => discriminate H
  | context [match ?x with _ => _ end] => destruct x eqn:?
  | context [if ?x then _ else _] => destruct x eqn:?
  end.
Qed.

Lemma check_request_loops s proc (items : dict Z) :
  match check_request s proc items with
  | Ok true => exceeds_need proc items = None /\
               exceeds_available s items = Ok None
  | Ok false => exceeds_need proc items <> None \/
                (exceeds_need proc items = None /\
                 exists hit, exceeds_available s items = Ok (Some hit))
  | Err _ => True
  end.
Proof.
  induction items as [|[r u] items IH]; simpl; [done|].
  destruct (need proc r <? u); [by left|].
  destruct (get_available s r) as [av|]; [|done].
  destruct (av <? u).
  - destruct (exceeds_need proc items); [by left|]. right. eauto.
  - exact IH.
Qed.

(** [get_banker_decision] against [is_safe_state]: a decision is positive
    only when [is_safe_state] answers safe for the same request, and it
    then carries the same sequence; conversely, for an existing process
    with a non-empty id, whatever [is_safe_state] answers is the verdict
    and the sequence of the decision.  An unknown process gives a negative
    decision, not an exception. *)
Theorem get_banker_decision_agrees s p (items : dict Z) :
  (forall d, get_banker_decision s p items = Ok d -> dec_safe d = true ->
     is_safe_state s (Some p) (Some items) = Ok (true, dec_safe_sequence d)) /\
  (p ∈ keys (processes s) -> p <> "" ->
   forall b seq, is_safe_state s (Some p) (Some items) = Ok (b, seq) ->
     exists d, get_banker_decision s p items = Ok d /\
       dec_safe d = b /\ dec_safe_sequence d = seq) /\
  (p ∉ keys (processes s) ->
   get_banker_decision s p items
   = Ok (mkDecision false ("Process " ++ p ++ " does not exist") None)).
Proof.
  unfold get_banker_decision, dict_mem. split; [|split].
  - intros d. destruct (is_safe_state s (Some p) (Some items)) as [[b seq]|].
    + destruct (dict_get (processes s) p) as [proc|]; cbn [negb];
        [|by intros [= <-]].
      destruct (exceeds_need proc items) as [[[r u] n]|]; [by intros [= <-]|].
      destruct (exceeds_available s items) as [[[[r u] a]|]|];
        [by intros [= <-]| |done].
      destruct b; by intros [= <-].
    + destruct (dict_get (processes s) p) as [proc|]; cbn [negb];
        [|by intros [= <-]].
      destruct (exceeds_need proc items) as [[[r u] n]|]; [by intros [= <-]|].
      by destruct (exceeds_available s items) as [[[[r u] a]|]|];
        [intros [= <-]| |].
  - intros [proc Hp]%elem_keys_dict_get Hne b seq Hsafe. rewrite Hp.
    cbn [negb].
    destruct items as [|item items'] eqn:Hitems.
    { cbn [exceeds_need exceeds_available]. rewrite Hsafe.
      destruct b; [by eexists|].
      apply is_safe_state_unsafe_none in Hsafe as ->. by eexists. }
    rewrite <- Hitems in *.
    assert (Hcond : (String.eqb p "" ||
                     match items with [] => true | _ => false end)%bool
                    = false).
    { apply String.eqb_neq in Hne. rewrite Hne. by rewrite Hitems. }
    pose proof (check_request_loops s proc items) as Hl.
    pose proof Hsafe as Hsafe'.
    unfold is_safe_state in Hsafe'. rewrite Hcond, Hp in Hsafe'.
    destruct (check_request s proc items) as [[|]|]; [| |done].
    + destruct Hl as [-> ->]. rewrite Hsafe. destruct b; [by eexists|].
      apply is_safe_state_unsafe_none in Hsafe as ->. by eexists.
    + injection Hsafe' as <- <-.
      destruct Hl as [Hn|[-> [[[r u] a] ->]]]; [|by eexists].
      destruct (exceeds_need proc items) as [[[r u] n]|]; [by eexists|done].
  - intros H%dict_get_None. by rewrite H.
Qed.

Lemma get_banker_decision_agrees_witness :
  exists d,
    get_banker_decision unsafe_grant_state "P1" [("R1", 1)] = Ok d /\
    dec_safe d = false /\ dec_safe_sequence d = None.
Proof.
  refine (proj1 (proj2 (get_banker_decision_agrees unsafe_grant_state "P1"
                          [("R1", 1)])) _ _ false None _).
  - vm_compute. set_solver.
  - done.
  - vm_compute. reflexivity.
Defined.

(** ** policies.py: KillProcessRecovery *)

Lemma priority_of_get s p proc :
  dict_get (processes s) p = Some proc -> priority_of s p = priority proc.
Proof. intros H. unfold priority_of. by rewrite H. Qed.

Lemma min_by_priority_loop_spec s rest : forall best,
  (forall q, q ∈ rest -> q ∈ keys (processes s)) ->
  exists v, min_by_priority_loop s rest best (priority_of s best) = Ok v /\
    ((v = best /\ forall q, q ∈ rest -> priority_of s best <= priority_of s q) \/
     (exists pre post, rest = pre ++ v :: post /\
        priority_of s v < priority_of s best /\
        (forall q, q ∈ pre -> priority_of s v < priority_of s q) /\
        (forall q, q ∈ post -> priority_of s v <= priority_of s q))).
Proof.
  induction rest as [|q rest IH]; intros best Hin.
  - exists best. split; [done|]. left. split; [done|]. by intros q ?%elem_of_nil.
  - destruct (elem_keys_dict_get _ _ (Hin q ltac:(by left))) as [proc Hq].
    assert (Hrest : forall x, x ∈ rest -> x ∈ keys (processes s)).
    { intros x Hx. apply Hin. by right. }
    simpl. rewrite Hq, <- (priority_of_get _ _ _ Hq).
    destruct (Z.ltb_spec (priority_of s q) (priority_of s best)) as [Hlt|Hge].
    + destruct (IH q Hrest) as (v & -> & Hv). exists v. split; [done|]. right.
      destruct Hv as [[-> Hall]|(pre & post & -> & Hlt' & Hpre & Hpost)].
      * exists [], rest. split; [done|]. split; [done|].
        split; [by intros x ?%elem_of_nil | done].
      * exists (q :: pre), post. split; [done|]. split; [lia|].
        split; [|done].
        intros x [->|Hx]%elem_of_cons; [done | by apply Hpre].
    + destruct (IH best Hrest) as (v & -> & Hv). exists v. split; [done|].
      destruct Hv as [[-> Hall]|(pre & post & -> & Hlt' & Hpre & Hpost)].
      * left. split; [done|].
        intros x [->|Hx]%elem_of_cons; [done | by apply Hall].
      * right. exists (q :: pre), post. split; [done|]. split; [done|].
        split; [|done].
        intros x [->|Hx]%elem_of_cons; [lia | by apply Hpre].
Qed.

(** Python's [min] with the priority as key picks the first process of the
    list that has the least priority. *)
Lemma min_by_priority_spec s l :
  l <> [] ->
  (forall q, q ∈ l -> q ∈ keys (processes s)) ->
  exists v, min_by_priority s l = Ok v /\ first_lowest_priority s l v.
Proof.
  destruct l as [|p rest]; [done|]. intros _ Hin.
  destruct (elem_keys_dict_get _ _ (Hin p ltac:(by left))) as [proc Hp].
  simpl. rewrite Hp, <- (priority_of_get _ _ _ Hp).
  destruct (min_by_priority_loop_spec s rest p) as (v & -> & Hv).
  { intros x Hx. apply Hin. by right. }
  exists v. split; [done|].
  destruct Hv as [[-> Hall]|(pre & post & -> & Hlt & Hpre & Hpost)].
  - exists [], rest. split; [done|]. split; [by intros x ?%elem_of_nil | done].
  - exists (p :: pre), post. split; [done|]. split; [|done].
    intros x [->|Hx]%elem_of_cons; [done | by apply Hpre].
Qed.

Lemma remove_each_effect dl : forall s,
  state_inv s -> NoDup dl ->
  (forall p, p ∈ dl -> p ∈ keys (processes s)) ->
  exists s', remove_each s dl = Return tt s' /\ state_inv s' /\
    (forall q, q ∈ dl -> dict_get (processes s') q = None) /\
    (forall q, q ∉ dl -> dict_get (processes s') q = dict_get (processes s) q) /\
    (forall r, available_of s' r = available_of s r + held_by s dl r) /\
    (forall r, total_of s' r = total_of s r) /\
    keys (resources s') = keys (resources s).
Proof.
  induction dl as [|p dl IH]; intros s Hinv Hnd Hin.
  - exists s. simpl. split; [done|]. split; [done|].
    split; [by intros q ?%elem_of_nil|]. split; [done|].
    split; [intros r; lia | done].
  - apply NoDup_cons in Hnd as [Hnotin Hnd].
    destruct (elem_keys_dict_get _ _ (Hin p ltac:(by left))) as [proc Hp].
    destruct (remove_process_effect s p proc Hinv Hp)
      as (s1 & Hrm & Hgone & Hoth & Hav & Htot & Hkr & _ & Hinv1).
    destruct (IH s1 Hinv1 Hnd) as (s' & Hre & Hinv' & Hgone' & Hoth' & Hav'
                                   & Htot' & Hkr').
    { intros q Hq. assert (q <> p) by (intros ->; done).
      destruct (elem_keys_dict_get _ _ (Hin q ltac:(by right))) as [qp Hqp].
      eapply dict_get_Some_key. by rewrite Hoth. }
    exists s'. simpl. rewrite Hrm. split; [done|]. split; [done|].
    assert (Hheld : forall r, held_by s1 dl r = held_by s dl r).
    { intros r. clear -Hoth Hnotin. induction dl as [|q dl IH]; [done|].
      apply not_elem_of_cons in Hnotin as [Hne Hnotin]. simpl.
      rewrite IH by done. unfold allocated_of. by rewrite Hoth. }
    repeat split.
    + intros q [->|Hq]%elem_of_cons; [|by apply Hgone'].
      by rewrite Hoth'.
    + intros q [Hne Hq]%not_elem_of_cons. by rewrite Hoth', Hoth.
    + intros r. rewrite Hav', Hav, Hheld. lia.
    + intros r. by rewrite Htot', Htot.
    + congruence.
Qed.

Lemma waits_sub s s' a b :
  NoDup (keys (processes s')) ->
  (forall q proc, dict_get (processes s') q = Some proc ->
     dict_get (processes s) q = Some proc) ->
  waits s' a b -> waits s a b.
Proof.
  intros Hnd Hsub (proc & other & r & u & Ha & Hb & Hne & Hr & Hu & Hal).
  exists proc, other, r, u.
  split; [by apply dict_get_elem, Hsub, elem_dict_get|].
  split; [by apply dict_get_elem, Hsub, elem_dict_get|]. done.
Qed.

Lemma on_cycle_is_process s a :
  on_cycle (build_wait_for_graph s) a -> a ∈ keys (processes s).
Proof.
  intros (b & He & _)%on_cycle_successor.
  apply has_edge_wfg in He as (proc & _ & _ & _ & Ha & _).
  unfold keys. by apply (list_elem_of_fmap_2 fst _ (a, proc)).
Qed.

Lemma on_cycle_sub s s' a :
  NoDup (keys (processes s')) ->
  (forall q proc, dict_get (processes s') q = Some proc ->
     dict_get (processes s) q = Some proc) ->
  on_cycle (build_wait_for_graph s') a -> on_cycle (build_wait_for_graph s) a.
Proof.
  intros Hnd Hsub. unfold on_cycle.
  generalize a at 2 4. intros b Hc.
  induction Hc as [x y He|x y z He _ IH].
  - apply tc_once. apply has_edge_wfg. eapply waits_sub; [done|done|].
    by apply has_edge_wfg.
  - eapply tc_l; [|exact IH]. apply has_edge_wfg.
    eapply waits_sub; [done|done|]. by apply has_edge_wfg.
Qed.

(** Terminating all deadlocked processes ends the deadlock: when the list
    names every process on a wait-for cycle (each once, all existing),
    [KillProcessRecovery(kill_all=True)] removes exactly the listed
    processes, returns their units, keeps the state invariant, and the
    analysis of the resulting state reports no deadlock. *)
Theorem kill_all_clears_deadlock s dl :
  state_inv s -> dl <> [] -> NoDup dl ->
  (forall p, p ∈ dl -> p ∈ keys (processes s)) ->
  (forall p, on_cycle (build_wait_for_graph s) p -> p ∈ dl) ->
  exists s',
    kill_process_recover true s dl
    = Return (true,
              ("Terminated all " ++ py_str_int (Z.of_nat (length dl))
               ++ " deadlocked processes")%string, dl) s' /\
    state_inv s' /\
    (forall q, q ∈ dl -> dict_get (processes s') q = None) /\
    (forall q, q ∉ dl -> dict_get (processes s') q = dict_get (processes s) q) /\
    (forall r, available_of s' r = available_of s r + held_by s dl r) /\
    has_deadlock (analyze_deadlock s') = false.
Proof.
  intros Hinv Hne Hnd Hin Hcyc.
  destruct (remove_each_effect dl s Hinv Hnd Hin)
    as (s' & Hre & Hinv' & Hgone & Hoth & Hav & _ & _).
  exists s'. unfold kill_process_recover. rewrite Hre.
  destruct dl as [|p0 dl0] eqn:Hdl; [done|]. rewrite <- Hdl in *.
  split; [done|]. split; [done|]. split; [done|]. split; [done|].
  split; [done|].
  destruct (has_deadlock (analyze_deadlock s')) eqn:Hd; [|done].
  apply has_deadlock_iff_cycle in Hd as [a Ha].
  assert (Hsub : forall q proc, dict_get (processes s') q = Some proc ->
                   dict_get (processes s) q = Some proc).
  { intros q proc Hq. destruct (decide (q ∈ dl)) as [Hd|Hd].
    - by rewrite Hgone in Hq.
    - by rewrite <- Hoth. }
  pose proof (on_cycle_is_process s' a Ha) as Hk.
  apply elem_keys_dict_get in Hk as [proc Hk].
  apply (on_cycle_sub s s' a (si_proc_nodup s' Hinv') Hsub), Hcyc in Ha.
  by rewrite (Hgone a Ha) in Hk.
Qed.

Lemma kill_all_clears_deadlock_witness :
  exists s',
    kill_process_recover true circular_wait_state ["P1"; "P2"]
    = Return (true, "Terminated all 2 deadlocked processes", ["P1"; "P2"]) s' /\
    has_deadlock (analyze_deadlock s') = false.
Proof.
  destruct (kill_all_clears_deadlock circular_wait_state ["P1"; "P2"])
    as (s' & H1 & _ & _ & _ & _ & H2).
  - apply reachable_state_inv, reachable_run_ops, reachable_empty.
  - done.
  - repeat constructor; set_solver.
  - intros p Hp. vm_compute. exact Hp.
  - intros p Hp%on_cycle_is_process. vm_compute in Hp. exact Hp.
  - exists s'. split; [exact H1 | exact H2].
Defined.

Lemma min_by_priority_loop_missing s rest : forall best k,
  (exists q, q ∈ rest /\ q ∉ keys (processes s)) ->
  min_by_priority_loop s rest best k = Err KeyError.
Proof.
  induction rest as [|q rest IH]; intros best k (x & Hx & Hmiss).
  - by apply elem_of_nil in Hx.
  - simpl. destruct (dict_get (processes s) q) as [proc|] eqn:Hq; [|done].
    assert (Hex : exists y, y ∈ rest /\ y ∉ keys (processes s)).
    { apply elem_of_cons in Hx as [->|Hx]; [|eauto].
      exfalso. apply Hmiss. by eapply dict_get_Some_key. }
    destruct (_ <? _); by apply IH.
Qed.

Lemma min_by_priority_missing s l :
  (exists q, q ∈ l /\ q ∉ keys (processes s)) ->
  min_by_priority s l = Err KeyError.
Proof.
  destruct l as [|p rest]; intros (x & Hx & Hmiss).
  - by apply elem_of_nil in Hx.
  - simpl. destruct (dict_get (processes s) p) as [proc|] eqn:Hp; [|done].
    apply min_by_priority_loop_missing.
    apply elem_of_cons in Hx as [->|Hx]; [|eauto].
    exfalso. apply Hmiss. by eapply dict_get_Some_key.
Qed.

Lemma first_lowest_priority_elem s l v :
  first_lowest_priority s l v -> v ∈ l.
Proof. intros (pre & post & -> & _). set_solver. Qed.

(** Terminating one process: for a non-empty list of existing processes,
    [KillProcessRecovery(kill_all=False)] removes the first listed process
    of least priority and nothing else, and returns what it held; a listed
    id that is not a process makes it raise [KeyError] before the state is
    touched. *)
Theorem kill_one_removes_lowest s dl :
  state_inv s -> dl <> [] ->
  ((forall p, p ∈ dl -> p ∈ keys (processes s)) ->
   exists victim s',
     kill_process_recover false s dl
     = Return (true, ("Terminated process " ++ victim)%string, [victim]) s' /\
     first_lowest_priority s dl victim /\
     dict_get (processes s') victim = None /\
     (forall q, q <> victim ->
        dict_get (processes s') q = dict_get (processes s) q) /\
     (forall r, available_of s' r
                = available_of s r + allocated_of s victim r) /\
     (forall r, total_of s' r = total_of s r) /\
     state_inv s') /\
  ((exists p, p ∈ dl /\ p ∉ keys (processes s)) ->
   kill_process_recover false s dl = Raise KeyError s).
Proof.
  intros Hinv Hne. split.
  - intros Hin.
    destruct (min_by_priority_spec s dl Hne Hin) as (v & Hmin & Hfirst).
    pose proof (Hin v (first_lowest_priority_elem _ _ _ Hfirst)) as Hv.
    apply elem_keys_dict_get in Hv as [proc Hv].
    destruct (remove_process_effect s v proc Hinv Hv)
      as (s' & Hrm & Hgone & Hoth & Hav & Htot & _ & _ & Hinv').
    exists v, s'. unfold kill_process_recover. rewrite Hmin, Hrm.
    by destruct dl.
  - intros Hmiss. unfold kill_process_recover.
    rewrite (min_by_priority_missing s dl Hmiss). by destruct dl.
Qed.

Lemma kill_one_removes_lowest_witness :
  exists victim s',
    kill_process_recover false circular_wait_state ["P2"; "P1"]
    = Return (true, ("Terminated process " ++ victim)%string, [victim]) s' /\
    first_lowest_priority circular_wait_state ["P2"; "P1"] victim.
Proof.
  destruct (proj1 (kill_one_removes_lowest circular_wait_state ["P2"; "P1"]
                     ltac:(apply reachable_state_inv, reachable_run_ops,
                             reachable_empty)
                     ltac:(done)))
    as (v & s' & H1 & H2 & _).
  - intros p Hp. vm_compute. set_solver.
  - exists v, s'. split; [exact H1 | exact H2].
Defined.

(** ** policies.py: PreemptLowPriorityRecovery *)

Lemma dict_set_absent {V} (d : dict V) k v :
  k ∉ keys d -> dict_set d k v = (d ++ [(k, v)])%list.
Proof.
  unfold keys. induction d as [|[k' v'] d IH]; simpl; [done|].
  rewrite not_elem_of_cons. intros [Hk Hd].
  destruct (String.eqb_spec k' k) as [->|Hne]; [done|].
  f_equal. by apply IH.
Qed.

Lemma fold_dict_set_fresh (items : dict Z) : forall acc,
  NoDup (keys acc ++ keys items) ->
  fold_left (fun d kv => dict_set d kv.1 kv.2) items acc = (acc ++ items)%list.
Proof.
  induction items as [|[k v] items IH]; intros acc Hnd; simpl.
  - by rewrite app_nil_r.
  - assert (Hk : k ∉ keys acc).
    { apply NoDup_app in Hnd as (_ & Hd & _). intros H. apply (Hd k H).
      unfold keys. simpl. by left. }
    rewrite (dict_set_absent acc k v Hk), IH.
    + by rewrite <- app_assoc.
    + unfold keys in *. rewrite fmap_app. simpl. rewrite <- app_assoc. exact Hnd.
Qed.

Lemma preempt_loop_release_all v items : forall s released,
  preempt_loop s v items released
  = match release_all s v items with
    | Return _ s' =>
        Return (fold_left (fun d kv => dict_set d kv.1 kv.2) items released) s'
    | Raise e s' => Raise e s'
    end.
Proof.
  induction items as [|[r u] items IH]; intros s released; simpl; [done|].
  destruct (release s v r u) as [b s'|e s']; [|done]. apply IH.
Qed.

Lemma tc_last_step {A} (R : A -> A -> Prop) x y :
  tc R x y -> exists z, R z y.
Proof. induction 1 as [x y H|x y z _ _ IH]; [by exists x | exact IH]. Qed.

(** Preempting the process of least priority: for a non-empty list of
    existing processes the policy picks the first listed process of least
    priority, releases everything it holds and keeps the process with its
    claims and pending requests; the units return to the available ones,
    the other processes are untouched, the message lists exactly what the
    victim held, and afterwards nobody waits for the victim, so it lies on
    no wait-for cycle. *)
Theorem preempt_releases_victim (repr_dict : dict Z -> string) s dl :
  state_inv s -> dl <> [] ->
  (forall p, p ∈ dl -> p ∈ keys (processes s)) ->
  exists victim proc s',
    dict_get (processes s) victim = Some proc /\
    preempt_low_priority_recover repr_dict s dl
    = Return (true,
              ("Preempted " ++ victim ++ " (priority="
               ++ py_str_int (priority proc) ++ "), released "
               ++ repr_dict (allocated proc))%string,
              [victim]) s' /\
    first_lowest_priority s dl victim /\
    keys (processes s') = keys (processes s) /\
    (forall r, allocated_of s' victim r = 0) /\
    (forall r, requested_of s' victim r = requested_of s victim r) /\
    (forall r, max_claims_of s' victim r = max_claims_of s victim r) /\
    (forall q, q <> victim ->
       dict_get (processes s') q = dict_get (processes s) q) /\
    (forall r, available_of s' r
               = available_of s r + allocated_of s victim r) /\
    (forall r, total_of s' r = total_of s r) /\
    state_inv s' /\
    (forall a, ~ waits s' a victim) /\
    ~ on_cycle (build_wait_for_graph s') victim.
Proof.
  intros Hinv Hne Hin.
  destruct (min_by_priority_spec s dl Hne Hin) as (v & Hmin & Hfirst).
  pose proof (Hin v (first_lowest_priority_elem _ _ _ Hfirst)) as Hv.
  apply elem_keys_dict_get in Hv as [proc Hv].
  destruct (release_all_effects (allocated proc) v s proc Hinv Hv eq_refl)
    as (s' & proc' & Hall & Hinv' & Hv' & He & Hrq & Hmc & Hoth & Hav & Htot
        & _ & Hkp & _).
  assert (Hnow : forall a, ~ waits s' a v).
  { intros a (pa & other & r & u & _ & Hb & _ & _ & _ & Hpos).
    apply elem_dict_get in Hb; [|by destruct Hinv'].
    rewrite Hv' in Hb. injection Hb as <-. rewrite He in Hpos.
    unfold dict_get_or in Hpos. simpl in Hpos. lia. }
  exists v, proc, s'. split; [done|]. split.
  { unfold preempt_low_priority_recover. rewrite Hmin, Hv.
    rewrite preempt_loop_release_all, Hall.
    rewrite (fold_dict_set_fresh (allocated proc) []).
    - by destruct dl.
    - simpl. by destruct (si_procs s Hinv v proc Hv). }
  split; [done|]. split; [done|].
  unfold allocated_of, requested_of, max_claims_of. rewrite Hv, Hv', He, Hrq, Hmc.
  split; [done|]. split; [done|]. split; [done|]. split; [done|].
  split; [done|]. split; [done|]. split; [done|]. split; [done|].
  intros [z Hz]%tc_last_step. apply has_edge_wfg in Hz. by apply (Hnow z).
Qed.

Lemma preempt_releases_victim_witness :
  exists victim proc s',
    dict_get (processes circular_wait_state) victim = Some proc /\
    preempt_low_priority_recover (fun _ => "{}") circular_wait_state
      ["P2"; "P1"]
    = Return (true,
              ("Preempted " ++ victim ++ " (priority="
               ++ py_str_int (priority proc) ++ "), released {}")%string,
              [victim]) s' /\
    first_lowest_priority circular_wait_state ["P2"; "P1"] victim.
Proof.
  destruct (preempt_releases_victim (fun _ => "{}") circular_wait_state
              ["P2"; "P1"]
              ltac:(apply reachable_state_inv, reachable_run_ops,
                      reachable_empty)
              ltac:(done))
    as (v & proc & s' & H0 & H1 & H2 & _).
  - intros p Hp. vm_compute. set_solver.
  - exists v, proc, s'. split; [exact H0|]. split; [exact H1 | exact H2].
Defined.

(** ** policies.py: the outcome of ResourceOrderingPolicy.should_allow *)

Lemma fold_max_spec l : forall x,
  let m := fold_left Nat.max l x in
  (m = x \/ m ∈ l) /\ (x <= m)%nat /\ forall y, y ∈ l -> (y <= m)%nat.
Proof.
  induction l as [|a l IH]; intros x; simpl.
  - split; [by left|]. split; [lia|]. by intros y ?%elem_of_nil.
  - destruct (IH (Nat.max x a)) as (Hm & Hx & Hall). split; [|split].
    + destruct Hm as [Hm|Hm]; [|right; by right].
      destruct (Nat.max_spec x a) as [[_ He]|[_ He]]; rewrite He in *.
      * right. rewrite Hm. by left.
      * by left.
    + lia.
    + intros y [->|Hy]%elem_of_cons; [lia | by apply Hall].
Qed.

Lemma py_max_spec l m :
  py_max l = Some m -> m ∈ l /\ forall y, y ∈ l -> (y <= m)%nat.
Proof.
  destruct l as [|x l]; [done|]. intros [= Hm0]. subst m.
  destruct (fold_max_spec l x) as (Hm & Hx & Hall). split.
  - destruct Hm as [->|Hm]; [by left | by right].
  - intros y [->|Hy]%elem_of_cons; [done | by apply Hall].
Qed.

Lemma should_allow_order self s pid req :
  fst (should_allow self s pid req) = mkOrdering (effective_order self s).
Proof.
  unfold should_allow, effective_order.
  assert (He : match resource_order self with
               | [] => mkOrdering (sorted (keys (resources s)))
               | _ => self
               end
               = mkOrdering match resource_order self with
                            | [] => sorted (keys (resources s))
                            | o => o
                            end).
  { destruct self as [[|x o]]; done. }
  rewrite He.
  destruct (dict_get (processes s) pid) as [process|]; [|done].
  destruct (List.filter _ _); [done|].
  destruct (py_max _); [|done]. by destruct (first_violation _ _ _).
Qed.

Lemma should_allow_cases self s pid process (req : dict Z) :
  dict_get (processes s) pid = Some process ->
  let order := effective_order self s in
  let held := held_resources process in
  fst (should_allow self s pid req) = mkOrdering order /\
  (held = [] ->
   snd (should_allow self s pid req)
   = Ok (true, "No resources held, request allowed")) /\
  (held <> [] -> (forall h, h ∈ held -> index order h = None) ->
   snd (should_allow self s pid req) = Err ValueError) /\
  (forall h j, h ∈ held -> index order h = Some j ->
   exists allow reason,
     snd (should_allow self s pid req) = Ok (allow, reason) /\
     (allow = true <->
      forall r k h' j', r ∈ keys req -> index order r = Some k ->
        h' ∈ held -> index order h' = Some j' -> (j' <= k)%nat)).
Proof.
  intros Hp. cbv zeta.
  split; [apply should_allow_order|].
  pose proof (should_allow_order self s pid req) as Hfst.
  unfold should_allow in *. rewrite Hp in *.
  fold (held_resources process) in *.
  set (order := effective_order self s) in *.
  set (held := held_resources process) in *.
  set (self1 := match resource_order self with [] => _ | _ => self end) in *.
  assert (Hord : resource_order self1 = order).
  { unfold order, effective_order, self1. by destruct self as [[|x o]]. }
  rewrite Hord in *. clear Hfst Hord. clearbody held order.
  rewrite omap_index_filter.
  split; [by intros ->|]. split.
  - intros Hne Hnone.
    assert (Hr : omap (index order) held = []).
    { clear -Hnone. induction held as [|h held IH]; [done|].
      cbn. rewrite (Hnone h) by (by left). apply IH.
      intros x Hx. apply Hnone. by right. }
    rewrite Hr. by destruct held.
  - intros h j Hh Hj.
    destruct (py_max (omap (index order) held)) as [m|] eqn:Hmax.
    2:{ exfalso. assert (Hin : j ∈ omap (index order) held).
        { apply list_elem_of_omap. eauto. }
        destruct (omap (index order) held); [by apply elem_of_nil in Hin|done]. }
    apply py_max_spec in Hmax as [Hm Hall].
    apply list_elem_of_omap in Hm as (hm & Hhm & Hjm).
    assert (Hiff : first_violation order m (keys req) = None <->
                   forall r k h' j', r ∈ keys req -> index order r = Some k ->
                     h' ∈ held -> index order h' = Some j' -> (j' <= k)%nat).
    { rewrite first_violation_None, forallb_forall. split.
      - intros H r k h' j' Hr Hk Hh' Hj'.
        apply list_elem_of_In, H in Hr. rewrite Hk in Hr.
        apply Nat.leb_le in Hr.
        assert (j' <= m)%nat; [|lia].
        apply Hall, list_elem_of_omap. eauto.
      - intros H r Hr%list_elem_of_In.
        destruct (index order r) as [k|] eqn:Hk; [|done].
        apply Nat.leb_le. by apply (H r k hm m). }
    destruct held as [|h0 held']; [by apply elem_of_nil in Hh|].
    destruct (first_violation order m (keys req)) as [v|] eqn:Hv.
    + eexists false, _. split; [done|]. split; [done|].
      intros H. by apply Hiff in H.
    + eexists true, _. split; [done|]. split; [|done].
      intros _. by apply Hiff.
Qed.

(** The outcome of the resource-ordering policy for an existing process:
    the policy keeps its ordering, or caches the sorted resource ids when
    it has none; a process that holds nothing is always allowed; when it
    holds resources but none of them has a rank the call raises; otherwise
    the request is allowed exactly when no requested resource with a rank
    ranks below a held resource with a rank. *)
Theorem should_allow_outcome self s pid process (req : dict Z) :
  dict_get (processes s) pid = Some process ->
  let order := effective_order self s in
  let held := held_resources process in
  fst (should_allow self s pid req) = mkOrdering order /\
  (held = [] ->
   snd (should_allow self s pid req)
   = Ok (true, "No resources held, request allowed")) /\
  (held <> [] -> (forall h, h ∈ held -> index order h = None) ->
   snd (should_allow self s pid req) = Err ValueError) /\
  (forall h j, h ∈ held -> index order h = Some j ->
   exists allow reason,
     snd (should_allow self s pid req) = Ok (allow, reason) /\
     (allow = true <->
      forall r k h' j', r ∈ keys req -> index order r = Some k ->
        h' ∈ held -> index order h' = Some j' -> (j' <= k)%nat)).
Proof. exact (should_allow_cases self s pid process req). Qed.

Lemma should_allow_outcome_witness :
  snd (should_allow (mkOrdering []) holds_r2_state "P1" [("R1", 1)])
  = Err ValueError \/
  exists allow reason,
    snd (should_allow (mkOrdering []) holds_r2_state "P1" [("R1", 1)])
    = Ok (allow, reason).
Proof.
  destruct (dict_get (processes holds_r2_state) "P1") as [process|] eqn:Hp;
    [|vm_compute in Hp; discriminate Hp].
  injection Hp as Hproc.
  destruct (proj2 (proj2 (proj2
              (should_allow_outcome (mkOrdering []) holds_r2_state "P1"
                 process [("R1", 1)]
                 ltac:(rewrite <- Hproc; vm_compute; reflexivity))))
              "R2" 1%nat)
    as (allow & reason & H & _).
  - rewrite <- Hproc. vm_compute. set_solver.
  - vm_compute. reflexivity.
  - right. by exists allow, reason.
Defined.

Lemma elem_of_insert_sorted x y l : y ∈ insert_sorted x l <-> y = x \/ y ∈ l.
Proof.
  induction l as [|z l IH]; simpl.
  - rewrite list_elem_of_singleton, elem_of_nil. naive_solver.
  - destruct (String.leb x z).
    + by rewrite elem_of_cons.
    + rewrite !elem_of_cons, IH. naive_solver.
Qed.

Lemma elem_of_sorted y l : y ∈ sorted l <-> y ∈ l.
Proof.
  induction l as [|x l IH]; simpl; [done|].
  by rewrite elem_of_insert_sorted, elem_of_cons, IH.
Qed.

Lemma index_elem order r : r ∈ order -> exists i, index order r = Some i.
Proof.
  intros H. apply in_order_index. unfold in_order. apply existsb_exists.
  exists r. split; [by apply list_elem_of_In | apply String.eqb_refl].
Qed.

(** A policy created without an ordering never raises on a state kept by
    the operations: it caches the sorted resource ids, every held resource
    has a rank in that ordering, and the call returns a verdict. *)
Theorem should_allow_auto_order s pid process (req : dict Z) :
  state_inv s ->
  dict_get (processes s) pid = Some process ->
  exists allow reason,
    should_allow (mkOrdering []) s pid req
    = (mkOrdering (sorted (keys (resources s))), Ok (allow, reason)).
Proof.
  intros Hinv Hp.
  destruct (should_allow_cases (mkOrdering []) s pid process req Hp)
    as (Hfst & Hnone & _ & Hsome).
  change (effective_order (mkOrdering []) s)
    with (sorted (keys (resources s))) in *.
  destruct (should_allow (mkOrdering []) s pid req) as [self' out].
  simpl in *. subst self'.
  destruct (held_resources process) as [|h held'] eqn:Hheld.
  - rewrite Hnone by done. eauto.
  - assert (Hh : h ∈ held_resources process) by (rewrite Hheld; by left).
    unfold held_resources in Hh. apply list_elem_of_In, filter_In in Hh as [Hk _].
    apply list_elem_of_In, elem_keys_dict_get in Hk as [u Hu].
    destruct (si_procs s Hinv pid process Hp) as [_ _ Hal _].
    destruct (Hal h u Hu) as (_ & _ & Hres).
    destruct (index_elem (sorted (keys (resources s))) h) as [j Hj].
    { by apply elem_of_sorted. }
    destruct (Hsome h j ltac:(by left) Hj) as (allow & reason & -> & _).
    eauto.
Qed.

Lemma should_allow_auto_order_witness :
  exists allow reason,
    should_allow (mkOrdering []) holds_r2_state "P1" [("R1", 1)]
    = (mkOrdering (sorted (keys (resources holds_r2_state))),
       Ok (allow, reason)).
Proof.
  destruct (dict_get (processes holds_r2_state) "P1") as [process|] eqn:Hp;
    [|vm_compute in Hp; discriminate Hp].
  apply (should_allow_auto_order holds_r2_state "P1" process).
  - apply reachable_state_inv, reachable_run_ops, reachable_empty.
  - exact Hp.
Defined.

(** ** policies.py: ConservativeAllocationPolicy *)

Lemma first_excess_need_none s (needs : dict Z) :
  (forall r n, (r, n) ∈ needs ->
     exists res, dict_get (resources s) r = Some res /\ n <= total_units res) ->
  first_excess_need s needs = Ok None.
Proof.
  induction needs as [|[r n] needs IH]; intros H; simpl; [done|].
  destruct (H r n ltac:(by left)) as (res & -> & Hle).
  destruct (Z.ltb_spec (total_units res) n) as [?|_]; [lia|].
  apply IH. intros r' n' Hin. apply H. by right.
Qed.

Lemma first_unavailable_spec s (items : dict Z) :
  (forall r u, (r, u) ∈ items -> r ∈ keys (resources s)) ->
  (first_unavailable s items = Ok None /\
   forall r u, (r, u) ∈ items -> u <= available_of s r) \/
  (exists r u, first_unavailable s items = Ok (Some r) /\
     (r, u) ∈ items /\ available_of s r < u).
Proof.
  induction items as [|[r u] items IH]; intros Hk; simpl.
  - left. split; [done|]. by intros r u ?%elem_of_nil.
  - destruct (elem_keys_dict_get _ _ (Hk r u ltac:(by left))) as [res Hr].
    unfold get_available. rewrite Hr.
    assert (Hav : available_of s r = available_units res).
    { unfold available_of. by rewrite Hr. }
    destruct (Z.ltb_spec (available_units res) u) as [Hlt|Hge].
    + right. exists r, u. split; [done|]. split; [by left | lia].
    + destruct IH as [[-> Hall]|(r' & u' & -> & Hin & Hlt)].
      * intros r' u' Hin. apply (Hk r' u'). by right.
      * left. split; [done|].
        intros r' u' [[= -> ->]|Hin]%elem_of_cons; [lia | by apply Hall].
      * right. exists r', u'. split; [done|]. split; [by right | done].
Qed.

(** In a reachable state the first check of the conservative policy is
    idle, whatever order the set of [total_need] is iterated in: no
    remaining need exceeds a total and no lookup fails.  The verdict is
    that of the availability check alone: for a request over known
    resources, allowed exactly when every requested amount is available
    now. *)
Theorem conservative_should_allow_reachable
    (set_iter : list string -> list string) s pid process (req : dict Z) :
  (forall l x, x ∈ set_iter l -> x ∈ l) ->
  reachable s ->
  dict_get (processes s) pid = Some process ->
  conservative_should_allow set_iter s pid req
  = match first_unavailable s req with
    | Err e => Err e
    | Ok (Some res_id) =>
        Ok (false, ("Insufficient " ++ res_id ++ " available now")%string)
    | Ok None => Ok (true, "Conservative check passed")
    end /\
  ((forall r u, (r, u) ∈ req -> r ∈ keys (resources s)) ->
   exists allow reason,
     conservative_should_allow set_iter s pid req = Ok (allow, reason) /\
     (allow = true <-> forall r u, (r, u) ∈ req -> u <= available_of s r)).
Proof.
  intros Hset Hreach Hp.
  pose proof (reachable_state_inv s Hreach) as Hinv.
  pose proof (reachable_bounds_inv s Hreach) as [Hclaims _ _].
  destruct (si_procs s Hinv pid process Hp) as [_ _ Hal _].
  assert (Hfirst : first_excess_need s (total_need_items set_iter process)
                   = Ok None).
  { apply first_excess_need_none. intros r n Hin.
    unfold total_need_items in Hin.
    apply list_elem_of_fmap in Hin as (r' & [= -> ->] & Hr').
    apply Hset, elem_of_app in Hr'.
    assert (Hnn : 0 <= dict_get_or (allocated process) r' 0).
    { by eapply dict_get_or_nonneg_alloc, si_procs. }
    unfold need.
    destruct (dict_get (max_claims process) r') as [c|] eqn:Hc.
    - destruct (Hclaims pid process r' c Hp (dict_get_elem _ _ _ Hc))
        as (res & Hres & Hle).
      exists res. split; [done|]. unfold dict_get_or at 1. rewrite Hc. lia.
    - destruct Hr' as [Hr'|Hr'].
      { apply elem_keys_dict_get in Hr' as [c Hc']. congruence. }
      apply elem_keys_dict_get in Hr' as [u Hu].
      destruct (Hal r' u Hu) as (Hpos & Hle & _).
      unfold dict_get_or in Hle. rewrite Hc in Hle. lia. }
  assert (Heq : conservative_should_allow set_iter s pid req
                = match first_unavailable s req with
                  | Err e => Err e
                  | Ok (Some res_id) =>
                      Ok (false,
                          ("Insufficient " ++ res_id ++ " available now")%string)
                  | Ok None => Ok (true, "Conservative check passed")
                  end).
  { unfold conservative_should_allow. by rewrite Hp, Hfirst. }
  split; [exact Heq|]. intros Hk. rewrite Heq.
  destruct (first_unavailable_spec s req Hk)
    as [[-> Hall]|(r & u & -> & Hin & Hlt)].
  - eexists true, _. split; [done|]. by split.
  - eexists false, _. split; [done|]. split; [done|].
    intros H. specialize (H r u Hin). lia.
Qed.

Lemma conservative_should_allow_reachable_witness :
  conservative_should_allow (fun l => l) unsafe_grant_state "P1" [("R1", 2)]
  = Ok (false, "Insufficient R1 available now").
Proof.
  destruct (dict_get (processes unsafe_grant_state) "P1") as [process|] eqn:Hp;
    [|vm_compute in Hp; discriminate Hp].
  rewrite (proj1 (conservative_should_allow_reachable (fun l => l)
                    unsafe_grant_state "P1" process [("R1", 2)]
                    ltac:(done)
                    ltac:(apply reachable_run_ops, reachable_empty)
                    Hp)).
  vm_compute. reflexivity.
Defined.

(** ** rag.py: the edges of the resource allocation graph *)

Lemma edge_get_set es e d e' :
  edge_get (edge_set es e d) e'
  = if same_edge e e' then Some d else edge_get es e'.
Proof.
  induction es as [|[f d'] es IH]; simpl; [done|].
  destruct (same_edge f e) eqn:Hfe; simpl.
  - apply same_edge_true in Hfe. subst f. by destruct (same_edge e e').
  - rewrite IH. destruct (same_edge e e') eqn:Hee; [|done].
    apply same_edge_true in Hee. subst e'. by rewrite Hfe.
Qed.

Lemma edge_get_writes_sound ws es e d :
  edge_get (fold_left (fun es w => edge_set es w.1 w.2) ws es) e = Some d ->
  (e, d) ∈ ws \/ edge_get es e = Some d.
Proof.
  induction ws as [|[f d0] ws IH] using rev_ind; [by right|].
  rewrite fold_left_app. simpl. rewrite edge_get_set.
  destruct (same_edge f e) eqn:Hfe.
  - apply same_edge_true in Hfe. subst f. intros [= ->]. left. set_solver.
  - intros [H|H]%IH; [left; set_solver | by right].
Qed.

Lemma edge_get_writes_complete ws es e d :
  (e, d) ∈ ws -> (forall d', (e, d') ∈ ws -> d' = d) ->
  edge_get (fold_left (fun es w => edge_set es w.1 w.2) ws es) e = Some d.
Proof.
  induction ws as [|[f d0] ws IH] using rev_ind;
    [by intros ?%elem_of_nil|].
  intros Hin Hfun. rewrite fold_left_app. simpl. rewrite edge_get_set.
  destruct (same_edge f e) eqn:Hfe.
  - apply same_edge_true in Hfe. subst f. f_equal. apply Hfun. set_solver.
  - apply IH.
    + apply elem_of_app in Hin as [Hin|Hin%list_elem_of_singleton]; [done|].
      injection Hin as He Hd. subst f.
      assert (same_edge e e = true) by (by apply same_edge_true). congruence.
    + intros d' Hd'. apply Hfun. set_solver.
Qed.

Lemma rag_edges_add_assignments p (items : dict Z) : forall g,
  rag_edges (add_assignments p items g)
  = fold_left (fun es w => edge_set es w.1 w.2) (assignment_writes p items)
      (rag_edges g) /\
  process_nodes (add_assignments p items g) = process_nodes g /\
  resource_nodes (add_assignments p items g) = resource_nodes g.
Proof.
  unfold add_assignments, assignment_writes.
  induction items as [|[r n] items IH]; intros g; [done|].
  cbn [fold_left List.filter fst snd]. destruct (0 <? n); [|apply IH].
  destruct (IH (add_assignment_edge g r p n)) as (-> & -> & ->). done.
Qed.

Lemma rag_edges_add_requests p (items : dict Z) : forall g,
  rag_edges (add_requests p items g)
  = fold_left (fun es w => edge_set es w.1 w.2) (request_writes p items)
      (rag_edges g) /\
  process_nodes (add_requests p items g) = process_nodes g /\
  resource_nodes (add_requests p items g) = resource_nodes g.
Proof.
  unfold add_requests, request_writes.
  induction items as [|[r n] items IH]; intros g; [done|].
  cbn [fold_left List.filter fst snd]. destruct (0 <? n); [|apply IH].
  destruct (IH (add_request_edge g p r n)) as (-> & -> & ->). done.
Qed.

Lemma fold_set_add l : forall acc,
  NoDup (acc ++ l) -> fold_left (fun a x => set_add x a) l acc = (acc ++ l)%list.
Proof.
  induction l as [|x l IH]; intros acc Hnd; simpl.
  - by rewrite app_nil_r.
  - assert (Hx : existsb (String.eqb x) acc = false).
    { destruct (existsb (String.eqb x) acc) eqn:E; [|done].
      apply existsb_exists in E as (y & Hy & <-%String.eqb_eq).
      apply NoDup_app in Hnd as (_ & Hd & _).
      exfalso. apply (Hd x); [by apply list_elem_of_In | by left]. }
    unfold set_add at 2. rewrite Hx, IH; rewrite <- app_assoc; done.
Qed.

Lemma rag_build_processes (procs : dict Process) : forall g,
  let g' :=
    fold_left
      (fun g item =>
         let g1 := rag_add_process g (fst item) in
         let g2 := add_assignments (fst item) (allocated (snd item)) g1 in
         add_requests (fst item) (requested (snd item)) g2)
      procs g in
  rag_edges g'
  = fold_left (fun es w => edge_set es w.1 w.2) (rag_writes procs)
      (rag_edges g) /\
  process_nodes g'
  = fold_left (fun a x => set_add x a) (keys procs) (process_nodes g) /\
  resource_nodes g' = resource_nodes g.
Proof.
  induction procs as [|[p proc] procs IH]; intros g; [done|].
  cbn [fold_left rag_writes flat_map fst snd keys fmap list_fmap].
  destruct (IH (add_requests p (requested proc)
                  (add_assignments p (allocated proc) (rag_add_process g p))))
    as (He & Hp & Hr).
  cbv zeta in *. rewrite He, Hp, Hr.
  destruct (rag_edges_add_requests p (requested proc)
              (add_assignments p (allocated proc) (rag_add_process g p)))
    as (-> & -> & ->).
  destruct (rag_edges_add_assignments p (allocated proc) (rag_add_process g p))
    as (-> & -> & ->).
  by rewrite !fold_left_app.
Qed.

Lemma rag_build_resources (rs : dict Resource) : forall g,
  let g' :=
    fold_left
      (fun g item => rag_add_resource g (fst item) (total_units (snd item)))
      rs g in
  rag_edges g' = rag_edges g /\ process_nodes g' = process_nodes g /\
  resource_nodes g'
  = fold_left (fun a x => set_add x a) (keys rs) (resource_nodes g).
Proof.
  induction rs as [|[r res] rs IH]; intros g; [done|].
  cbn [fold_left fst snd keys fmap list_fmap].
  destruct (IH (rag_add_resource g r (total_units res))) as (He & Hp & Hr).
  cbv zeta in *. by rewrite He, Hp, Hr.
Qed.

Lemma elem_of_rag_writes (procs : dict Process) u v d :
  ((u, v), d) ∈ rag_writes procs <->
  exists p proc, (p, proc) ∈ procs /\
    ((v = p /\ exists n, (u, n) ∈ allocated proc /\ 0 < n /\
        d = mkEdgeData "assignment" n) \/
     (u = p /\ exists n, (v, n) ∈ requested proc /\ 0 < n /\
        d = mkEdgeData "request" n)).
Proof.
  unfold rag_writes. rewrite list_elem_of_In, in_flat_map. split.
  - intros ([p proc] & Hin%list_elem_of_In & Hw%list_elem_of_In).
    exists p, proc. split; [done|]. simpl in Hw.
    apply elem_of_app in Hw as [Hw|Hw];
      apply list_elem_of_fmap in Hw as ([r n] & [= -> -> ->] & Hf);
      apply list_elem_of_In, filter_In in Hf as [Hf%list_elem_of_In Hn];
      apply Z.ltb_lt in Hn; simpl in *; [left | right]; eauto.
  - intros (p & proc & Hin & Hcase). exists (p, proc).
    split; [by apply list_elem_of_In|]. apply list_elem_of_In. simpl.
    apply elem_of_app.
    destruct Hcase as [(-> & n & Hn & Hpos & ->)|(-> & n & Hn & Hpos & ->)];
      [left; apply (list_elem_of_fmap_2' _ _ (u, n))
      |right; apply (list_elem_of_fmap_2' _ _ (v, n))]; try done;
      apply list_elem_of_In, filter_In; (split; [by apply list_elem_of_In|]);
      by apply Z.ltb_lt.
Qed.

Lemma rag_build_edges s :
  rag_edges (build_resource_allocation_graph s)
  = fold_left (fun es w => edge_set es w.1 w.2) (rag_writes (processes s)) [].
Proof.
  unfold build_resource_allocation_graph.
  destruct (rag_build_processes (processes s)
              (fold_left
                 (fun g item =>
                    rag_add_resource g (fst item) (total_units (snd item)))
                 (resources s) empty_rag)) as (He & _ & _).
  cbv zeta in He. rewrite He.
  by destruct (rag_build_resources (resources s) empty_rag) as (-> & _ & _).
Qed.

Lemma rag_edge_cases s u v d :
  state_inv s ->
  (forall x, x ∈ keys (processes s) -> x ∉ keys (resources s)) ->
  edge_get (rag_edges (build_resource_allocation_graph s)) (u, v) = Some d <->
  (v ∈ keys (processes s) /\ 0 < allocated_of s v u /\
   d = mkEdgeData "assignment" (allocated_of s v u)) \/
  (u ∈ keys (processes s) /\ 0 < requested_of s u v /\
   d = mkEdgeData "request" (requested_of s u v)).
Proof.
  intros Hinv Hdisj. rewrite rag_build_edges.
  pose proof (si_proc_nodup s Hinv) as Hnd.
  assert (Hmem : forall u v d, ((u, v), d) ∈ rag_writes (processes s) <->
    (v ∈ keys (processes s) /\ 0 < allocated_of s v u /\
     d = mkEdgeData "assignment" (allocated_of s v u)) \/
    (u ∈ keys (processes s) /\ 0 < requested_of s u v /\
     d = mkEdgeData "request" (requested_of s u v))).
  { clear u v d. intros u v d. rewrite elem_of_rag_writes.
    unfold allocated_of, requested_of. split.
    - intros (p & proc & Hin & Hcase).
      pose proof (elem_dict_get _ _ _ Hnd Hin) as Hp.
      destruct (si_procs s Hinv p proc Hp) as [Hna Hnr _ _].
      assert (Hpk : p ∈ keys (processes s)) by (by eapply dict_get_Some_key).
      destruct Hcase as [(-> & n & Hn & Hpos & ->)|(-> & n & Hn & Hpos & ->)].
      + left. rewrite Hp. apply (elem_dict_get _ _ _ Hna) in Hn.
        unfold dict_get_or. by rewrite Hn.
      + right. rewrite Hp. apply (elem_dict_get _ _ _ Hnr) in Hn.
        unfold dict_get_or. by rewrite Hn.
    - intros [(Hk & Hpos & ->)|(Hk & Hpos & ->)];
        apply elem_keys_dict_get in Hk as [proc Hp]; rewrite Hp in *.
      + exists v, proc. split; [by apply dict_get_elem|]. left.
        split; [done|]. eexists. split; [|done].
        apply dict_get_elem. eapply dict_get_or_pos_inv; [done|lia].
      + exists u, proc. split; [by apply dict_get_elem|]. right.
        split; [done|]. eexists. split; [|done].
        apply dict_get_elem. eapply dict_get_or_pos_inv; [done|lia]. }
  split.
  - intros [H|H]%edge_get_writes_sound; [by apply Hmem | done].
  - intros H. apply edge_get_writes_complete; [by apply Hmem|].
    intros d' Hd'%Hmem.
    assert (Hres : forall p r, p ∈ keys (processes s) ->
                     0 < allocated_of s p r -> r ∈ keys (resources s)).
    { intros p r [proc Hp]%elem_keys_dict_get. unfold allocated_of.
      rewrite Hp. intros Hpos.
      destruct (si_procs s Hinv p proc Hp) as [_ _ Hal _].
      apply (Hal r (dict_get_or (allocated proc) r 0)).
      eapply dict_get_or_pos_inv; [done|lia]. }
    assert (Hreq : forall p r, p ∈ keys (processes s) ->
                     0 < requested_of s p r -> r ∈ keys (resources s)).
    { intros p r [proc Hp]%elem_keys_dict_get. unfold requested_of.
      rewrite Hp. intros Hpos.
      destruct (si_procs s Hinv p proc Hp) as [_ _ _ Hrq].
      apply (Hrq r (dict_get_or (requested proc) r 0)).
      eapply dict_get_or_pos_inv; [done|lia]. }
    destruct H as [(Hk & Hpos & ->)|(Hk & Hpos & ->)],
             Hd' as [(Hk' & Hpos' & ->)|(Hk' & Hpos' & ->)]; try done.
    + exfalso. by apply (Hdisj u), (Hres v u).
    + exfalso. by apply (Hdisj v), (Hreq u v).
Qed.

(** The resource allocation graph of a state that satisfies the state
    invariant and keeps process ids apart from resource ids: its edges are
    exactly one assignment edge resource -> process for every positive
    holding and one request edge process -> resource for every pending
    request, each carrying the units; the two id sets are the process ids
    and the resource ids; and the wait-for graph is its projection: p waits
    for q exactly when p <> q and some request edge p -> r meets an
    assignment edge r -> q. *)
Theorem rag_edges_characterised s :
  state_inv s ->
  (forall x, x ∈ keys (processes s) -> x ∉ keys (resources s)) ->
  let rag := build_resource_allocation_graph s in
  (forall u v d,
     edge_get (rag_edges rag) (u, v) = Some d <->
     (v ∈ keys (processes s) /\ 0 < allocated_of s v u /\
      d = mkEdgeData "assignment" (allocated_of s v u)) \/
     (u ∈ keys (processes s) /\ 0 < requested_of s u v /\
      d = mkEdgeData "request" (requested_of s u v))) /\
  process_nodes rag = keys (processes s) /\
  resource_nodes rag = keys (resources s) /\
  (forall p q,
     has_edge (build_wait_for_graph s) p q = true <->
     p <> q /\
     exists r d1 d2,
       edge_get (rag_edges rag) (p, r) = Some d1 /\ edge_type d1 = "request" /\
       edge_get (rag_edges rag) (r, q) = Some d2 /\
       edge_type d2 = "assignment").
Proof.
  intros Hinv Hdisj rag.
  pose proof (si_proc_nodup s Hinv) as Hnd.
  split; [intros u v d; by apply rag_edge_cases|].
  split; [|split].
  - unfold rag, build_resource_allocation_graph.
    destruct (rag_build_processes (processes s)
                (fold_left
                   (fun g item =>
                      rag_add_resource g (fst item) (total_units (snd item)))
                   (resources s) empty_rag)) as (_ & Hp & _).
    cbv zeta in Hp. rewrite Hp.
    destruct (rag_build_resources (resources s) empty_rag) as (_ & -> & _).
    by apply (fold_set_add (keys (processes s)) []).
  - unfold rag, build_resource_allocation_graph.
    destruct (rag_build_processes (processes s)
                (fold_left
                   (fun g item =>
                      rag_add_resource g (fst item) (total_units (snd item)))
                   (resources s) empty_rag)) as (_ & _ & Hr).
    cbv zeta in Hr. rewrite Hr.
    destruct (rag_build_resources (resources s) empty_rag) as (_ & _ & ->).
    apply (fold_set_add (keys (resources s)) []). by destruct Hinv.
  - intros p q. rewrite has_edge_wfg. unfold waits. split.
    + intros (proc & other & r & u & Hp & Hq & Hne & Hr & Hu & Hal).
      split; [done|].
      apply (elem_dict_get _ _ _ Hnd) in Hp, Hq.
      destruct (si_procs s Hinv p proc Hp) as [_ Hnr _ Hrq].
      apply (elem_dict_get _ _ _ Hnr) in Hr.
      destruct (Hrq r u Hr) as [Hpos _].
      exists r, (mkEdgeData "request" (requested_of s p r)),
        (mkEdgeData "assignment" (allocated_of s q r)).
      split; [|split; [done|split; [|done]]].
      * apply rag_edge_cases; [done|done|]. right.
        split; [by eapply dict_get_Some_key|]. split; [|done].
        unfold requested_of, dict_get_or. by rewrite Hp, Hr.
      * apply rag_edge_cases; [done|done|]. left.
        split; [by eapply dict_get_Some_key|]. split; [|done].
        unfold allocated_of. by rewrite Hq.
    + intros (Hne & r & d1 & d2 & H1 & Ht1 & H2 & Ht2).
      apply (rag_edge_cases s p r d1 Hinv Hdisj) in H1
        as [(_ & _ & ->)|(Hk1 & Hpos1 & _)]; [done|].
      apply (rag_edge_cases s r q d2 Hinv Hdisj) in H2
        as [(Hk2 & Hpos2 & _)|(_ & _ & ->)]; [|done].
      apply elem_keys_dict_get in Hk1 as [proc Hp].
      apply elem_keys_dict_get in Hk2 as [other Hq].
      unfold requested_of in Hpos1. unfold allocated_of in Hpos2.
      rewrite Hp in Hpos1. rewrite Hq in Hpos2.
      exists proc, other, r, (dict_get_or (requested proc) r 0).
      split; [by apply dict_get_elem|]. split; [by apply dict_get_elem|].
      split; [done|]. split; [|split; [lia|done]].
      apply dict_get_elem. eapply dict_get_or_pos_inv; [done|lia].
Qed.

Lemma rag_edges_characterised_witness :
  edge_get (rag_edges (build_resource_allocation_graph circular_wait_state))
    ("R1", "P1")
  = Some (mkEdgeData "assignment" 1) <->
  ("P1" ∈ keys (processes circular_wait_state) /\
   0 < allocated_of circular_wait_state "P1" "R1" /\
   mkEdgeData "assignment" 1
   = mkEdgeData "assignment" (allocated_of circular_wait_state "P1" "R1")) \/
  ("R1" ∈ keys (processes circular_wait_state) /\
   0 < requested_of circular_wait_state "R1" "P1" /\
   mkEdgeData "assignment" 1
   = mkEdgeData "request" (requested_of circular_wait_state "R1" "P1")).
Proof.
  refine (proj1 (rag_edges_characterised circular_wait_state _ _)
            "R1" "P1" (mkEdgeData "assignment" 1)).
  - apply reachable_state_inv, reachable_run_ops, reachable_empty.
  - intros x Hx Hr. vm_compute in Hx, Hr.
    repeat (apply elem_of_cons in Hx as [->|Hx];
            [set_solver|]).
    by apply elem_of_nil in Hx.
Defined.

(** ** state.py: which calls raise, and what a raising call leaves *)

Lemma check_max_claims_exn s items e :
  check_max_claims s items = Some e -> e = ValueError.
Proof.
  induction items as [|[r u] items IH]; simpl; [done|].
  destruct (dict_get (resources s) r) as [res|]; [|by intros [= <-]].
  destruct (_ <? _); [by intros [= <-] | exact IH].
Qed.

Lemma validate_cases s p r :
  (validate_process_and_resource s p r = Some ValueError /\
   (p ∉ keys (processes s) \/ r ∉ keys (resources s))) \/
  (validate_process_and_resource s p r = None /\
   p ∈ keys (processes s) /\ r ∈ keys (resources s)).
Proof.
  unfold validate_process_and_resource.
  destruct (dict_mem (processes s) p) eqn:Hp; simpl.
  - destruct (dict_mem (resources s) r) eqn:Hr; simpl.
    + right. by rewrite <- !dict_mem_true.
    + left. split; [done|]. right. by apply dict_mem_false.
  - left. split; [done|]. left. by apply dict_mem_false.
Qed.

(** The exceptions of the state API.  In a state that satisfies the state
    invariant a call raises exactly in the listed cases (an existing or
    unknown id, a negative total, a claim above a total, a non-positive
    amount for request and release, a negative amount for allocate); the
    exception is always [ValueError]; and a call that raises leaves the
    whole state, event log included, as it was. *)
Theorem api_raises_exactly s o :
  state_inv s ->
  (op_raises s o = Some ValueError <-> bad_call s o) /\
  (op_raises s o = None \/ op_raises s o = Some ValueError) /\
  (op_raises s o <> None -> apply_op s o = s).
Proof.
  intros Hinv. destruct o as [r t|p c prio|p r u|p r u|p r u|p]; simpl.
  - unfold add_resource. destruct (dict_mem (resources s) r) eqn:Hr; simpl.
    { apply dict_mem_true in Hr. split; [split; [by left|done]|]. by split; [right|]. }
    apply dict_mem_false in Hr.
    destruct (Z.ltb_spec t 0) as [Ht|Ht]; simpl.
    { split; [split; [by right|done]|]. by split; [right|]. }
    split; [split; [done|intros [?|?]; [done|exfalso; lia]]|]. by split; [left|].
  - unfold add_process. destruct (dict_mem (processes s) p) eqn:Hp; simpl.
    { apply dict_mem_true in Hp. split; [split; [by left|done]|]. by split; [right|]. }
    apply dict_mem_false in Hp.
    destruct (check_max_claims s c) as [e|] eqn:Hc; simpl.
    + pose proof (check_max_claims_exn _ _ _ Hc) as ->.
      split; [|by split; [right|]]. split; [|done]. intros _. right.
      assert (Hn : ~ forall r u, (r, u) ∈ c ->
                     exists res, dict_get (resources s) r = Some res /\
                       u <= total_units res).
      { intros H. apply check_max_claims_None in H. congruence. }
      clear Hc. induction c as [|[r u] c IH].
      { exfalso. apply Hn. by intros r u ?%elem_of_nil. }
      destruct (dict_get (resources s) r) as [res|] eqn:Hr.
      2:{ exists r, u. split; [by left|]. left. by apply dict_get_None. }
      destruct (Z.lt_ge_cases (total_units res) u) as [Hlt|Hge].
      { exists r, u. split; [by left|]. right. unfold total_of. by rewrite Hr. }
      destruct IH as (r' & u' & Hin & Hbad).
      { intros H. apply Hn. intros r' u' [[= -> ->]|Hin]%elem_of_cons;
          [exists res; split; [done|lia] | by apply H]. }
      exists r', u'. split; [by right | done].
    + split; [|by split; [left|]]. split; [done|].
      intros [?|(r & u & Hin & Hbad)]; [done|]. exfalso.
      destruct (proj1 (check_max_claims_None s c) Hc r u Hin)
        as (res & Hr & Hle).
      destruct Hbad as [Hbad|Hbad].
      * apply Hbad. by eapply dict_get_Some_key.
      * unfold total_of in Hbad. rewrite Hr in Hbad. lia.
  - unfold request.
    destruct (validate_cases s p r) as [[-> Hbad]|(-> & Hp & Hr)]; simpl.
    { split; [split; [tauto|done]|]. by split; [right|]. }
    destruct (elem_keys_dict_get _ _ Hp) as [proc ->].
    destruct (Z.leb_spec u 0) as [Hu|Hu]; simpl.
    { split; [split; [tauto|done]|]. by split; [right|]. }
    destruct (_ <? _); simpl;
      (split; [split; [done|intros [?|[?|?]]; [done|done|exfalso; lia]]|]);
      by split; [left|].
  - unfold allocate.
    destruct (validate_cases s p r) as [[-> Hbad]|(-> & Hp & Hr)]; simpl.
    { split; [split; [tauto|done]|]. by split; [right|]. }
    destruct (elem_keys_dict_get _ _ Hp) as [proc ->].
    destruct (elem_keys_dict_get _ _ Hr) as [res ->].
    destruct (Z.ltb_spec u 0) as [Hu|Hu]; simpl.
    { split; [split; [tauto|done]|]. by split; [right|]. }
    destruct (u =? 0); [|destruct (_ <? _); [|destruct (_ <? _)]]; simpl;
      (split; [split; [done|intros [?|[?|?]]; [done|done|exfalso; lia]]|]);
      by split; [left|].
  - unfold release.
    destruct (validate_cases s p r) as [[-> Hbad]|(-> & Hp & Hr)]; simpl.
    { split; [split; [tauto|done]|]. by split; [right|]. }
    destruct (elem_keys_dict_get _ _ Hp) as [proc ->].
    destruct (elem_keys_dict_get _ _ Hr) as [res ->].
    destruct (Z.leb_spec u 0) as [Hu|Hu]; simpl.
    { split; [split; [tauto|done]|]. by split; [right|]. }
    destruct (_ <? _); simpl;
      (split; [split; [done|intros [?|[?|?]]; [done|done|exfalso; lia]]|]);
      by split; [left|].
  - unfold remove_process.
    destruct (dict_get (processes s) p) as [proc|] eqn:Hp; simpl.
    + destruct (release_all_returns _ s p proc Hinv Hp eq_refl)
        as (s' & proc' & -> & _). simpl.
      split; [|by split; [left|]]. split; [done|].
      intros H. exfalso. apply H. by eapply dict_get_Some_key.
    + split; [|by split; [right|]]. split; [|done].
      intros _. by apply dict_get_None.
Qed.

Lemma api_raises_exactly_witness :
  op_raises exceeds_need_state (Release "P1" "R1" 0) = Some ValueError /\
  apply_op exceeds_need_state (Release "P1" "R1" 0) = exceeds_need_state.
Proof.
  destruct (api_raises_exactly exceeds_need_state (Release "P1" "R1" 0))
    as (H1 & _ & H3).
  - apply reachable_state_inv, reachable_run_ops, reachable_empty.
  - assert (H : op_raises exceeds_need_state (Release "P1" "R1" 0)
                = Some ValueError).
    { apply H1. simpl. right. right. lia. }
    split; [exact H|]. apply H3. by rewrite H.
Defined.

(** ** state.py: a snapshot shows the state it is taken from *)

Lemma snapshot_resources_reads h (rs : dict Heap.loc) : forall rs',
  Heap.read_all (Heap.read_resource h) rs = Some rs' ->
  Heap.snapshot_resources rs h
  = Heap.Done
      ((fun kv => (kv.1, (total_units kv.2, available_units kv.2))) <$> rs') h.
Proof.
  induction rs as [|[rid rl] rs IH]; intros rs'; simpl.
  - by intros [= <-].
  - unfold Heap.read_resource at 1.
    destruct (h !! rl) as [[| r | | | |]|] eqn:E; try done.
    destruct (Heap.read_all (Heap.read_resource h) rs) as [tl|]; [|done].
    intros [= <-].
    cbv [Heap.bind Heap.ret Heap.load_resource Heap.load]. rewrite E.
    by rewrite (IH tl eq_refl).
Qed.

Lemma snapshot_processes_reads set_iter h (ps : dict Heap.loc) : forall ps',
  Heap.read_all (Heap.read_process h) ps = Some ps' ->
  exists snaps,
    AnyOrder.snapshot_processes set_iter ps h = Heap.Done snaps h /\
    Heap.read_all (Heap.view_process h) snaps
    = Some ((fun kv =>
               (kv.1, Heap.mkProcessView (max_claims kv.2) (allocated kv.2)
                        (requested kv.2) (total_need_items set_iter kv.2)
                        (priority kv.2)))
              <$> ps').
Proof.
  induction ps as [|[pid pl] ps IH]; intros ps'; simpl.
  - intros [= <-]. by exists [].
  - unfold Heap.read_process at 1, Heap.read_ints.
    destruct (h !! pl) as [[| | p | | |]|] eqn:E; try done.
    destruct (h !! Heap.pr_max_claims p) as [[mc| | | | |]|] eqn:E1; try done.
    destruct (h !! Heap.pr_allocated p) as [[al| | | | |]|] eqn:E2; try done.
    destruct (h !! Heap.pr_requested p) as [[rq| | | | |]|] eqn:E3; try done.
    destruct (Heap.read_all (Heap.read_process h) ps) as [tl|]; [|done].
    intros [= <-]. destruct (IH tl eq_refl) as (snaps & Hs & Hv).
    cbv [Heap.bind Heap.ret Heap.load_process Heap.load AnyOrder.total_need
         Heap.load_ints].
    rewrite E, E1, E2, Hs.
    eexists. split; [done|]. simpl.
    unfold Heap.view_process at 1, Heap.read_ints. simpl.
    by rewrite E1, E2, E3, Hv.
Qed.

(** A snapshot is accurate when it is taken, whatever order the set inside
    [total_need()] is iterated in: [snapshot()] does not change the store,
    and read at that moment it shows every resource with its total and
    available units and every process with its claims, holdings, pending
    requests and priority, and as needs the entries of [total_need()]. *)
Theorem snapshot_shows_state (set_iter : list string -> list string)
    (h : Heap.store) self s :
  Heap.read_state h self = Some s ->
  exists snap,
    AnyOrder.snapshot set_iter self h = Heap.Done snap h /\
    Heap.view h snap = Some (AnyOrder.snapshot_of set_iter s) /\
    forall pid pv, (pid, pv) ∈ (AnyOrder.snapshot_of set_iter s).2 ->
      forall r n, (r, n) ∈ Heap.view_need pv <->
        r ∈ set_iter (keys (Heap.view_max_claims pv)
                      ++ keys (Heap.view_allocated pv)) /\
        n = dict_get_or (Heap.view_max_claims pv) r 0
            - dict_get_or (Heap.view_allocated pv) r 0.
Proof.
  unfold Heap.read_state.
  destruct (h !! self) as [[| | | | |st]|] eqn:E; try done.
  destruct (h !! Heap.sr_resources st) as [[| | |rs| |]|] eqn:Ers; try done.
  destruct (h !! Heap.sr_processes st) as [[| | |ps| |]|] eqn:Eps; try done.
  destruct (h !! Heap.sr_event_log st) as [[| | | |lg|]|]; try done.
  destruct (Heap.read_all (Heap.read_resource h) rs) as [rs'|] eqn:R1; [|done].
  destruct (Heap.read_all (Heap.read_process h) ps) as [ps'|] eqn:R2; [|done].
  destruct (Heap.read_log h lg) as [lg'|]; [|done].
  intros [= <-].
  destruct (snapshot_processes_reads set_iter h ps ps' R2)
    as (snaps & Hs & Hv).
  cbv [AnyOrder.snapshot Heap.bind Heap.ret Heap.load_state Heap.load_dict
       Heap.load].
  rewrite E, Ers, (snapshot_resources_reads h rs rs' R1), Eps, Hs.
  eexists. split; [done|]. split.
  { unfold Heap.view, AnyOrder.snapshot_of. simpl. by rewrite Hv. }
  unfold AnyOrder.snapshot_of. simpl. intros pid pv Hin r n.
  apply list_elem_of_fmap in Hin as ([k proc] & [= -> ->] & _). simpl.
  unfold total_need_items. rewrite list_elem_of_fmap. unfold need. split.
  - intros (r' & [= -> ->] & Hr). by split.
  - intros [Hr ->]. by exists r.
Qed.

Lemma snapshot_shows_state_witness :
  exists snap,
    AnyOrder.snapshot (fun l => l) Heap.setup_state Heap.setup_store
    = Heap.Done snap Heap.setup_store /\
    Heap.view Heap.setup_store snap
    = Some (AnyOrder.snapshot_of (fun l => l) exceeds_need_state).
Proof.
  destruct (snapshot_shows_state (fun l => l) Heap.setup_store
              Heap.setup_state exceeds_need_state)
    as (snap & H1 & H2 & _).
  - vm_compute. reflexivity.
  - by exists snap.
Defined.

(** ** banker.py: the safety check ignores pending requests *)

Lemma same_claims_refl ps : same_claims ps ps.
Proof. unfold same_claims. induction ps; constructor; done. Qed.

Lemma same_claims_set ps p proc proc' :
  dict_get ps p = Some proc ->
  max_claims proc' = max_claims proc -> allocated proc' = allocated proc ->
  same_claims ps (dict_set ps p proc').
Proof.
  intros Hp Hmc Hal. unfold same_claims.
  induction ps as [|[k q] ps IH]; simpl in *; [done|].
  destruct (String.eqb_spec k p) as [->|Hne].
  - injection Hp as ->. constructor; [done | apply same_claims_refl].
  - constructor; [done | by apply IH].
Qed.

Lemma sweep_same_claims rids ps ps' :
  same_claims ps ps' -> forall v, sweep rids ps v = sweep rids ps' v.
Proof.
  induction 1 as [|[k a] [k' b] ps ps' (Hk & Hmc & Hal) _ IH]; intros v;
    [done|].
  simpl in Hk, Hmc, Hal. subst k'. rewrite !sweep_cons.
  assert (Hv : visit rids v (k, a) = visit rids v (k, b)).
  { unfold visit, can_finish, mark_finished, give_back, need.
    by rewrite Hmc, Hal. }
  rewrite Hv. apply IH.
Qed.

Lemma banker_loop_same_claims rids ps ps' fuel :
  same_claims ps ps' ->
  forall v, banker_loop fuel rids ps v = banker_loop fuel rids ps' v.
Proof.
  intros Hs. induction fuel as [|fuel IH]; intros v; simpl; [done|].
  rewrite (sweep_same_claims rids ps ps' Hs). destruct (progress _); [|done].
  by rewrite IH.
Qed.

Lemma find_safe_sequence_same_claims s s' :
  (fun kv : string * Resource => (kv.1, available_units kv.2)) <$> resources s
  = (fun kv : string * Resource => (kv.1, available_units kv.2))
      <$> resources s' ->
  same_claims (processes s) (processes s') ->
  find_safe_sequence s = find_safe_sequence s'.
Proof.
  intros Hres Hps.
  assert (Hkr : keys (resources s) = keys (resources s')).
  { unfold keys. apply (f_equal (fmap fst)) in Hres.
    rewrite <- !list_fmap_compose in Hres. exact Hres. }
  assert (Hfin : (fun kv : string * Process => (kv.1, false)) <$> processes s
                 = (fun kv : string * Process => (kv.1, false))
                     <$> processes s').
  { clear -Hps. induction Hps as [|a b ps ps' (Hk & _) _ IH]; [done|].
    rewrite !fmap_cons. by rewrite Hk, IH. }
  assert (Hlen : length (processes s) = length (processes s')).
  { by eapply Forall2_length. }
  unfold find_safe_sequence, banker_run, banker_fuel, banker_init.
  rewrite <- Hkr, <- Hres, <- Hfin, <- Hlen.
  rewrite (banker_loop_same_claims _ _ _ _ Hps).
  destruct Hps; done.
Qed.

(** Pending requests play no part in the safety check: whatever a call of
    [request] does (record the request, reject it, or raise), the verdict
    and the sequence of [find_safe_sequence] are the same before and after
    it. *)
Theorem request_keeps_verdict s p r u :
  find_safe_sequence (state_of (request s p r u)) = find_safe_sequence s.
Proof.
  symmetry. unfold request.
  destruct (validate_process_and_resource s p r); [done|].
  destruct (dict_get (processes s) p) as [proc|] eqn:Hp; [|done].
  destruct (u <=? 0); [done|].
  destruct (_ <? u); apply find_safe_sequence_same_claims; simpl; try done.
  - apply same_claims_refl.
  - by apply (same_claims_set _ _ proc).
Qed.

(** ** banker.py and state.py: releasing units keeps a safe state safe *)

Lemma release_true_cases s p r u s' :
  release s p r u = Return true s' ->
  0 < u /\ u <= allocated_of s p r /\
  keys (processes s') = keys (processes s) /\
  keys (resources s') = keys (resources s) /\
  (forall rid, available_of s' rid
               = available_of s rid + (if String.eqb r rid then u else 0)) /\
  (forall q rid, allocated_of s' q rid
                 = allocated_of s q rid
                   - (if (String.eqb p q && String.eqb r rid)%bool
                      then u else 0)) /\
  (forall q rid, max_claims_of s' q rid = max_claims_of s q rid).
Proof.
  intros H.
  assert (Hv : validate_process_and_resource s p r = None).
  { unfold release in H. by destruct (validate_process_and_resource s p r). }
  destruct (validate_None_inv _ _ _ Hv) as [[proc Hp] [res Hr]].
  destruct (release_effect s p r u proc res Hp Hr) as (H1 & H2 & H3).
  destruct (Z.le_gt_cases u 0) as [Hu|Hu]; [rewrite H1 in H; done|].
  destruct (Z.lt_ge_cases (allocated_of s p r) u) as [Hlt|Hge].
  { destruct (H2 ltac:(lia) Hlt) as (s'' & Hs'' & _). congruence. }
  destruct (H3 ltac:(lia) Hge)
    as (s'' & Hs'' & Hav & Hal & Havo & _ & Halo & Hrest).
  assert (s'' = s') by congruence. subst s''.
  split; [lia|]. split; [done|].
  assert (Hk : keys (processes s') = keys (processes s) /\
               keys (resources s') = keys (resources s)).
  { clear -H Hv Hp Hr. unfold release in H. rewrite Hv, Hp, Hr in H.
    destruct (u <=? 0); [done|]. destruct (_ <? u); [done|].
    injection H as <-. unfold log_event. cbn [processes resources].
    split; apply keys_set_present; by eapply dict_get_Some_key. }
  destruct Hk as [Hkp Hkr]. split; [done|]. split; [done|].
  split; [|split].
  - intros rid. destruct (String.eqb_spec r rid) as [<-|Hne]; [done|].
    rewrite Havo by done. lia.
  - intros q rid.
    destruct (String.eqb_spec p q) as [<-|Hnp];
      destruct (String.eqb_spec r rid) as [<-|Hnr]; simpl; [done| | |];
      rewrite Halo by congruence; lia.
  - intros q rid. apply Hrest.
Qed.

Lemma can_finish_observed s q proc w :
  dict_get (processes s) q = Some proc ->
  can_finish (keys (resources s)) proc w = true <->
  forall rid, rid ∈ keys (resources s) ->
    max_claims_of s q rid - allocated_of s q rid <= dict_get_or w rid 0.
Proof.
  intros Hq. unfold can_finish, need, max_claims_of, allocated_of.
  rewrite Hq, forallb_forall. split.
  - intros H rid Hin%list_elem_of_In. apply H in Hin.
    apply negb_true_iff, Z.ltb_ge in Hin. lia.
  - intros H rid Hin%list_elem_of_In. apply negb_true_iff, Z.ltb_ge.
    specialize (H rid Hin). lia.
Qed.

Lemma runs_after_release s s' p r u seq :
  NoDup (keys (resources s)) ->
  keys (resources s') = keys (resources s) ->
  keys (processes s') = keys (processes s) ->
  0 <= u ->
  (forall q rid, allocated_of s' q rid
                 = allocated_of s q rid
                   - (if (String.eqb p q && String.eqb r rid)%bool
                      then u else 0)) ->
  (forall q rid, max_claims_of s' q rid = max_claims_of s q rid) ->
  forall w w' (released : bool),
    NoDup seq ->
    (released = true -> p ∉ seq) ->
    (forall rid, rid ∈ keys (resources s) ->
       dict_get_or w rid 0
       + (if released then 0 else if String.eqb r rid then u else 0)
       <= dict_get_or w' rid 0) ->
    runs_to_completion (keys (resources s)) (processes s) w seq = true ->
    runs_to_completion (keys (resources s')) (processes s') w' seq = true.
Proof.
  intros Hndr Hkr Hkp Hu Hal Hmc. rewrite Hkr.
  induction seq as [|q seq IH]; intros w w' released Hnd Hrel Hw; [done|].
  apply NoDup_cons in Hnd as [Hq Hnd]. simpl.
  destruct (dict_get (processes s) q) as [proc|] eqn:Hproc; [|done].
  assert (Hq' : q ∈ keys (processes s')).
  { rewrite Hkp. by eapply dict_get_Some_key. }
  apply elem_keys_dict_get in Hq' as [proc' Hproc']. rewrite Hproc'.
  intros [Hc Hruns]%andb_true_iff. apply andb_true_iff. split.
  - pose proof (proj1 (can_finish_observed s q proc w Hproc) Hc) as Hall.
    rewrite <- Hkr. apply (can_finish_observed s' q proc' w' Hproc').
    rewrite Hkr. intros rid Hrid. specialize (Hall rid Hrid).
    specialize (Hw rid Hrid). rewrite Hmc, Hal.
    destruct (String.eqb_spec p q) as [<-|Hne]; simpl.
    + destruct released; [exfalso; apply Hrel; [done | by left]|].
      destruct (String.eqb r rid); lia.
    + destruct released; [lia|]. destruct (String.eqb r rid); lia.
  - apply (IH (give_back (keys (resources s)) proc w) _
             (released || String.eqb p q)%bool); [done| | |done].
    + intros [->|Heq]%orb_true_iff.
      * intros Hin. apply Hrel; [done | by right].
      * apply String.eqb_eq in Heq as ->. done.
    + intros rid Hrid. rewrite !give_back_get by done.
      specialize (Hw rid Hrid).
      assert (Ha : dict_get_or (allocated proc) rid 0 = allocated_of s q rid).
      { unfold allocated_of. by rewrite Hproc. }
      assert (Ha' : dict_get_or (allocated proc') rid 0
                    = allocated_of s' q rid).
      { unfold allocated_of. by rewrite Hproc'. }
      rewrite Ha, Ha', Hal.
      destruct (String.eqb_spec p q) as [<-|Hne]; simpl.
      * destruct released; [exfalso; apply Hrel; [done | by left]|].
        simpl. destruct (String.eqb r rid); lia.
      * rewrite orb_false_r. destruct released; [lia|].
        destruct (String.eqb r rid); lia.
Qed.

(** Releasing units never makes a safe state unsafe: after a successful
    [release] every safe order of the old state is a safe order of the new
    one, so a state that [find_safe_sequence] reports safe is still
    reported safe. *)
Theorem release_keeps_safe s p r u s' :
  state_inv s ->
  release s p r u = Return true s' ->
  (forall seq, safe_order s seq -> safe_order s' seq) /\
  (fst (find_safe_sequence s) = true -> fst (find_safe_sequence s') = true).
Proof.
  intros Hinv Hrel.
  destruct (release_true_cases s p r u s' Hrel)
    as (Hu & _ & Hkp & Hkr & Hav & Hal & Hmc).
  assert (Hinv' : state_inv s').
  { pose proof (release_inv s p r u Hinv) as H. by rewrite Hrel in H. }
  assert (Hord : forall seq, safe_order s seq -> safe_order s' seq).
  { intros seq [Hperm Hruns]. split; [by rewrite Hkp|].
    eapply (runs_after_release s s' p r u seq (si_res_nodup s Hinv) Hkr Hkp
              ltac:(lia) Hal Hmc _ _ false); [| |  |exact Hruns].
    - rewrite Hperm. by destruct Hinv.
    - done.
    - intros rid Hrid.
      assert (Hinit : forall t, dict_get_or (work (banker_init t)) rid 0
                                = available_of t rid).
      { intros t. unfold dict_get_or, available_of. simpl.
        rewrite (dict_get_init available_units).
        by destruct (dict_get (resources t) rid). }
      rewrite !Hinit, Hav. lia. }
  split; [exact Hord|]. intros Hsafe.
  apply (banker_verdict_complete s Hinv) in Hsafe as [seq Hseq].
  apply (banker_verdict_complete s' Hinv'). exists seq. by apply Hord.
Qed.

Lemma release_keeps_safe_witness :
  exists s',
    release banker_three_state "P3" "R1" 1 = Return true s' /\
    fst (find_safe_sequence s') = true.
Proof.
  destruct (release banker_three_state "P3" "R1" 1) as [[|] s'|] eqn:Hrel;
    [|vm_compute in Hrel; discriminate Hrel
     |vm_compute in Hrel; discriminate Hrel].
  exists s'. split; [done|].
  apply (proj2 (release_keeps_safe banker_three_state "P3" "R1" 1 s'
                  ltac:(apply reachable_state_inv, reachable_run_ops,
                          reachable_empty)
                  Hrel)).
  vm_compute. reflexivity.
Defined.

(** ** rag.py: what a reported deadlock implies *)

Lemma waits_observed s a b :
  state_inv s -> waits s a b ->
  a <> b /\ a ∈ keys (processes s) /\ b ∈ keys (processes s) /\
  exists r, 0 < requested_of s a r /\ 0 < allocated_of s b r.
Proof.
  intros Hinv (proc & other & r & u & Ha & Hb & Hne & Hr & Hu & Hal).
  pose proof (si_proc_nodup s Hinv) as Hnd.
  apply (elem_dict_get _ _ _ Hnd) in Ha, Hb.
  destruct (si_procs s Hinv a proc Ha) as [_ Hnr _ Hrq].
  apply (elem_dict_get _ _ _ Hnr) in Hr.
  destruct (Hrq r u Hr) as [Hpos _].
  split; [done|]. split; [by eapply dict_get_Some_key|].
  split; [by eapply dict_get_Some_key|]. exists r.
  unfold requested_of, allocated_of, dict_get_or. rewrite Ha, Hb, Hr.
  split; [done|]. exact Hal.
Qed.

(** A reported deadlock implies hold-and-wait: every process on a wait-for
    cycle has a pending request for a resource that another process holds,
    and itself holds a resource for which another process has a pending
    request; so a deadlock is reported only when there are at least two
    processes, and never when no request is pending. *)
Theorem deadlock_needs_hold_and_wait s :
  state_inv s ->
  (forall a, on_cycle (build_wait_for_graph s) a ->
     (exists r b, b <> a /\ b ∈ keys (processes s) /\
        0 < requested_of s a r /\ 0 < allocated_of s b r) /\
     (exists r b, b <> a /\ b ∈ keys (processes s) /\
        0 < allocated_of s a r /\ 0 < requested_of s b r)) /\
  (has_deadlock (analyze_deadlock s) = true ->
   (2 <= length (processes s))%nat /\
   exists p r, 0 < requested_of s p r) /\
  ((forall p r, requested_of s p r = 0) ->
   has_deadlock (analyze_deadlock s) = false).
Proof.
  intros Hinv.
  assert (Hcyc : forall a, on_cycle (build_wait_for_graph s) a ->
     (exists r b, b <> a /\ b ∈ keys (processes s) /\
        0 < requested_of s a r /\ 0 < allocated_of s b r) /\
     (exists r b, b <> a /\ b ∈ keys (processes s) /\
        0 < allocated_of s a r /\ 0 < requested_of s b r)).
  { intros a Ha. split.
    - destruct (on_cycle_successor _ _ Ha) as (b & He & _).
      apply has_edge_wfg, (waits_observed s a b Hinv) in He
        as (Hne & _ & Hb & r & Hr & Hal).
      exists r, b. by repeat split.
    - destruct (tc_last_step _ _ _ Ha) as [b He].
      apply has_edge_wfg, (waits_observed s b a Hinv) in He
        as (Hne & Hb & _ & r & Hr & Hal).
      exists r, b. by repeat split. }
  split; [exact Hcyc|]. split.
  - intros [a Ha]%has_deadlock_iff_cycle.
    destruct (Hcyc a Ha) as [(r & b & Hne & Hb & Hr & _) _].
    split; [|eauto].
    pose proof (on_cycle_is_process s a Ha) as Hak.
    assert (Hle : (length [a; b] <= length (keys (processes s)))%nat).
    { apply NoDup_length_le.
      - repeat constructor; set_solver.
      - intros x [->|[->|?%elem_of_nil]%elem_of_cons]%elem_of_cons; done. }
    unfold keys in Hle. rewrite length_fmap in Hle. exact Hle.
  - intros Hnone.
    destruct (has_deadlock (analyze_deadlock s)) eqn:Hd; [|done].
    apply has_deadlock_iff_cycle in Hd as [a Ha].
    destruct (Hcyc a Ha) as [(r & b & _ & _ & Hr & _) _].
    rewrite Hnone in Hr. lia.
Qed.

Lemma deadlock_needs_hold_and_wait_witness :
  (2 <= length (processes circular_wait_state))%nat /\
  exists p r, 0 < requested_of circular_wait_state p r.
Proof.
  apply (proj1 (proj2 (deadlock_needs_hold_and_wait circular_wait_state
                         ltac:(apply reachable_state_inv, reachable_run_ops,
                                 reachable_empty)))).
  vm_compute. reflexivity.
Defined.

(** ** banker.py and state.py: removing a process keeps a safe state safe *)

Lemma runs_after_remove s s' p seq :
  NoDup (keys (resources s)) ->
  keys (resources s') = keys (resources s) ->
  (forall q, q <> p -> dict_get (processes s') q = dict_get (processes s) q) ->
  (forall rid, 0 <= allocated_of s p rid) ->
  forall w w' (released : bool),
    NoDup seq ->
    (released = true -> p ∉ seq) ->
    (forall rid, rid ∈ keys (resources s) ->
       dict_get_or w rid 0 + (if released then 0 else allocated_of s p rid)
       <= dict_get_or w' rid 0) ->
    runs_to_completion (keys (resources s)) (processes s) w seq = true ->
    runs_to_completion (keys (resources s')) (processes s') w'
      (List.filter (fun q => negb (String.eqb p q)) seq) = true.
Proof.
  intros Hndr Hkr Hoth Hnn. rewrite Hkr.
  induction seq as [|q seq IH]; intros w w' released Hnd Hrel Hw; [done|].
  apply NoDup_cons in Hnd as [Hq Hnd]. cbn [runs_to_completion List.filter].
  destruct (dict_get (processes s) q) as [proc|] eqn:Hproc; [|done].
  intros [Hc Hruns]%andb_true_iff.
  assert (Ha : forall rid, dict_get_or (allocated proc) rid 0
                           = allocated_of s q rid).
  { intros rid. unfold allocated_of. by rewrite Hproc. }
  destruct (String.eqb_spec p q) as [<-|Hne]; cbn [negb].
  - destruct released; [exfalso; apply Hrel; [done | by left]|].
    apply (IH (give_back (keys (resources s)) proc w) w' true);
      [done|done| |done].
    intros rid Hrid. rewrite give_back_get, Ha by done.
    specialize (Hw rid Hrid). lia.
  - cbn [runs_to_completion]. rewrite (Hoth q) by done. rewrite Hproc.
    apply andb_true_iff. split.
    + apply (can_finish_mono _ _ w); [|done]. intros rid Hrid.
      specialize (Hw rid Hrid). specialize (Hnn rid).
      destruct released; lia.
    + apply (IH (give_back (keys (resources s)) proc w) _ released);
        [done| | |done].
      * intros Hr Hin. apply (Hrel Hr). by right.
      * intros rid Hrid. rewrite !give_back_get by done.
        specialize (Hw rid Hrid). lia.
Qed.

(** Removing a process never makes a safe state unsafe: after
    [remove_process] every safe order of the old state, with the removed
    process left out, is a safe order of the new state, so a state that
    [find_safe_sequence] reports safe is still reported safe. *)
Theorem remove_process_keeps_safe s p s' :
  state_inv s ->
  remove_process s p = Return tt s' ->
  (forall seq, safe_order s seq ->
     safe_order s' (List.filter (fun q => negb (String.eqb p q)) seq)) /\
  (fst (find_safe_sequence s) = true -> fst (find_safe_sequence s') = true).
Proof.
  intros Hinv Hrm.
  destruct (dict_get (processes s) p) as [proc|] eqn:Hp;
    [|unfold remove_process in Hrm; by rewrite Hp in Hrm].
  destruct (remove_process_effect s p proc Hinv Hp)
    as (s'' & Hrm' & Hgone & Hoth & Hav & _ & Hkr & _ & Hinv').
  assert (s'' = s') by congruence. subst s''.
  assert (Hord : forall seq, safe_order s seq ->
            safe_order s' (List.filter (fun q => negb (String.eqb p q)) seq)).
  { intros seq [Hperm Hruns].
    assert (Hnds : NoDup seq) by (rewrite Hperm; by destruct Hinv).
    split.
    - apply NoDup_Permutation.
      + apply NoDup_ListNoDup, List.NoDup_filter. by apply NoDup_ListNoDup.
      + by destruct Hinv'.
      + intros x. rewrite list_elem_of_In, filter_In, <- list_elem_of_In.
        rewrite Hperm, negb_true_iff, String.eqb_neq. split.
        * intros [[v Hx]%elem_keys_dict_get Hne].
          eapply dict_get_Some_key. rewrite Hoth by done. exact Hx.
        * intros [v Hx]%elem_keys_dict_get.
          assert (Hne : x <> p) by (intros ->; congruence).
          split; [|done]. eapply dict_get_Some_key.
          rewrite <- Hoth by done. exact Hx.
    - eapply (runs_after_remove s s' p seq (si_res_nodup s Hinv) Hkr Hoth
                (fun rid => allocated_of_nonneg s p rid Hinv) _ _ false);
        [done|done| |exact Hruns].
      intros rid Hrid.
      assert (Hinit : forall t, dict_get_or (work (banker_init t)) rid 0
                                = available_of t rid).
      { intros t. unfold dict_get_or, available_of. simpl.
        rewrite (dict_get_init available_units).
        by destruct (dict_get (resources t) rid). }
      rewrite !Hinit, Hav. lia. }
  split; [exact Hord|]. intros Hsafe.
  apply (banker_verdict_complete s Hinv) in Hsafe as [seq Hseq].
  apply (banker_verdict_complete s' Hinv'). eexists. by apply Hord.
Qed.

Lemma remove_process_keeps_safe_witness :
  exists s',
    remove_process banker_three_state "P3" = Return tt s' /\
    fst (find_safe_sequence s') = true.
Proof.
  destruct (remove_process banker_three_state "P3") as [[] s'|] eqn:Hrm;
    [|vm_compute in Hrm; discriminate Hrm].
  exists s'. split; [done|].
  apply (proj2 (remove_process_keeps_safe banker_three_state "P3" s'
                  ltac:(apply reachable_state_inv, reachable_run_ops,
                          reachable_empty)
                  Hrm)).
  vm_compute. reflexivity.
Defined.

(** ** banker.py and state.py: admitting a process keeps a safe state safe *)

Lemma held_by_perm s l l' r : l ≡ₚ l' -> held_by s l r = held_by s l' r.
Proof.
  induction 1 as [|x l l' _ IH|x y l|l l' l'' _ IH1 _ IH2]; simpl; lia.
Qed.

Lemma held_by_keys s r :
  NoDup (keys (processes s)) ->
  held_by s (keys (processes s)) r = sum_alloc (processes s) r.
Proof.
  intros Hnd.
  assert (H : forall l : dict Process,
            (forall kv, kv ∈ l -> kv ∈ processes s) ->
            held_by s (keys l) r = sum_alloc l r).
  { induction l as [|[k proc] l IH]; intros Hsub; [done|].
    simpl. rewrite IH by (intros kv Hkv; apply Hsub; by right).
    unfold allocated_of.
    by rewrite (elem_dict_get _ _ _ Hnd (Hsub (k, proc) ltac:(by left))). }
  by apply H.
Qed.

Lemma runs_to_completion_agree rids procs procs' seq : forall w,
  (forall q, q ∈ seq -> dict_get procs' q = dict_get procs q) ->
  runs_to_completion rids procs' w seq = runs_to_completion rids procs w seq /\
  fold_left
    (fun w pid =>
       match dict_get procs' pid with
       | Some proc => give_back rids proc w
       | None => w
       end) seq w
  = fold_left
      (fun w pid =>
         match dict_get procs pid with
         | Some proc => give_back rids proc w
         | None => w
         end) seq w.
Proof.
  induction seq as [|q seq IH]; intros w Hag; [done|].
  simpl. rewrite (Hag q) by (by left).
  destruct (dict_get procs q) as [proc|].
  - destruct (IH (give_back rids proc w)) as [-> ->]; [|done].
    intros x Hx. apply Hag. by right.
  - split; [done|]. apply IH. intros x Hx. apply Hag. by right.
Qed.

(** Admitting a process never makes a safe state unsafe: after a
    successful [add_process] every safe order of the old state, followed
    by the new process, is a safe order of the new state (once all others
    have finished every unit is back, and no claim exceeds a total), so a
    state that [find_safe_sequence] reports safe is still reported safe. *)
Theorem add_process_keeps_safe s p (c : dict Z) prio s' :
  state_inv s ->
  add_process s p c prio = Return tt s' ->
  (forall seq, safe_order s seq -> safe_order s' (seq ++ [p])) /\
  (fst (find_safe_sequence s) = true -> fst (find_safe_sequence s') = true).
Proof.
  intros Hinv Hadd.
  assert (Hinv' : state_inv s').
  { pose proof (add_process_inv s p c prio Hinv) as H. by rewrite Hadd in H. }
  unfold add_process in Hadd.
  destruct (dict_mem (processes s) p) eqn:Hmem; [done|].
  apply dict_mem_false in Hmem.
  destruct (check_max_claims s c) eqn:Hc; [done|].
  injection Hadd as <-.
  pose proof (proj1 (check_max_claims_None s c) Hc) as Hclaims.
  pose proof (si_res_nodup s Hinv) as Hndr.
  pose proof (si_proc_nodup s Hinv) as Hndp.
  assert (Hord : forall seq, safe_order s seq ->
            safe_order
              (log_event
                 (mkState (resources s)
                    (dict_set (processes s) p (mkProcess p c [] [] prio))
                    (event_log s)) "process_added"
                 [("process", FStr p); ("max_claims", FClaims c)])
              (seq ++ [p])).
  { intros seq [Hperm Hruns]. unfold safe_order, log_event.
    cbn [processes resources banker_init work].
    split.
    { rewrite keys_set_absent by done. by rewrite Hperm. }
    assert (Hag : forall q, q ∈ seq ->
              dict_get (dict_set (processes s) p (mkProcess p c [] [] prio)) q
              = dict_get (processes s) q).
    { intros q Hq. apply dict_get_set_ne. intros ->. apply Hmem.
      by rewrite <- Hperm. }
    destruct (runs_to_completion_agree (keys (resources s)) (processes s)
                (dict_set (processes s) p (mkProcess p c [] [] prio)) seq
                (work (banker_init s)) Hag) as [Hr Hf].
    rewrite runs_to_completion_snoc, dict_get_set_eq.
    cbn [banker_init work] in Hr, Hf. rewrite Hr, Hf.
    cbn [banker_init work] in Hruns. rewrite Hruns. simpl.
    unfold can_finish. apply forallb_forall. intros rid Hrid%list_elem_of_In.
    apply negb_true_iff, Z.ltb_ge.
    rewrite (fold_work_get s rid seq _ Hndr Hrid).
    rewrite (held_by_perm s seq _ rid Hperm), (held_by_keys s rid Hndp).
    destruct (elem_keys_dict_get _ _ Hrid) as [res Hres].
    destruct (si_res s Hinv rid res Hres) as [Havail Hcons].
    assert (Hw0 : dict_get_or
                    ((fun kv : string * Resource =>
                        (kv.1, available_units kv.2)) <$> resources s) rid 0
                  = available_units res).
    { unfold dict_get_or. rewrite (dict_get_init available_units).
      by rewrite Hres. }
    rewrite Hw0. unfold sum_allocated in Hcons. unfold need. simpl.
    change (dict_get_or [] rid 0) with 0.
    assert (Hsum : 0 <= sum_alloc (processes s) rid).
    { apply sum_alloc_nonneg. intros k q Hkq.
      exact (state_inv_alloc_nonneg s rid k q Hinv Hkq). }
    destruct (dict_get c rid) as [u|] eqn:Hu; unfold dict_get_or; rewrite Hu.
    - destruct (Hclaims rid u (dict_get_elem _ _ _ Hu)) as (res' & Hres' & Hle).
      assert (res' = res) by congruence. subst res'. lia.
    - lia. }
  split; [exact Hord|]. intros Hsafe.
  apply (banker_verdict_complete s Hinv) in Hsafe as [seq Hseq].
  apply (banker_verdict_complete _ Hinv'). eexists. by apply Hord.
Qed.

Lemma add_process_keeps_safe_witness :
  exists s',
    add_process banker_three_state "P4" [("R1", 10)] 0 = Return tt s' /\
    fst (find_safe_sequence s') = true.
Proof.
  destruct (add_process banker_three_state "P4" [("R1", 10)] 0)
    as [[] s'|] eqn:Hadd; [|vm_compute in Hadd; discriminate Hadd].
  exists s'. split; [done|].
  apply (proj2 (add_process_keeps_safe banker_three_state "P4" [("R1", 10)] 0
                  s'
                  ltac:(apply reachable_state_inv, reachable_run_ops,
                          reachable_empty)
                  Hadd)).
  vm_compute. reflexivity.
Defined.
